(** * Collaborative editor: operational transform, operation buffer,
      session state and rate limiting

    A shallow embedding of [backend/app/ot.py], of the rate limiter and
    message entry point of [backend/app/manager.py], and of the session
    record of [backend/app/sessions.py], with the properties the
    specification states about them. The model comes first, the
    properties after it.

    Conventions.
    - A Python [int] is a [Z]; [len(...)] and loop counters derived from
      it are [nat].
    - A Python [str] is a [string]; slicing follows Python's rules.
    - A [float] timestamp is a rational [Q]: only its order and
      differences are used, rounding is not modelled.
    - A raised exception is the [Raise] branch of [Result].
    - [hashlib] digests and the textual form of a float are not part of
      the repository; they are the fields of the class [Hashlib]. Dates
      and the handlers behind [handle_message] are classes of their own.
    - An object mutated in place is a value passed in and returned. *)

From Stdlib Require Import ZArith QArith Lqa String Ascii List Lia Bool.
From Stdlib Require Import DecimalString.
From stdpp Require Import gmap strings list fin_maps.

Local Open Scope Z_scope.

(* ===================================================================== *)
(** * Python strings *)
(* ===================================================================== *)

Module Text.

Fixpoint str_take (n : nat) (s : string) : string :=
  match n, s with
  | S n', String c s' => String c (str_take n' s')
  | _, _ => EmptyString
  end.

Fixpoint str_drop (n : nat) (s : string) : string :=
  match n, s with
  | S n', String _ s' => str_drop n' s'
  | _, _ => s
  end.

Definition len (s : string) : Z := Z.of_nat (String.length s).

(** A slice bound as Python normalises it: a negative bound counts from
    the end, and every bound is clamped to [0, len]. *)
Definition slice_bound (n i : Z) : Z :=
  if i <? 0 then Z.max 0 (i + n) else Z.min i n.

(** [s[lo:hi]] *)
Definition slice (s : string) (lo hi : Z) : string :=
  let lo' := slice_bound (len s) lo in
  let hi' := slice_bound (len s) hi in
  str_take (Z.to_nat (hi' - lo')) (str_drop (Z.to_nat lo') s).

(** [s[:hi]] and [s[lo:]] *)
Definition slice_to (s : string) (hi : Z) : string := slice s 0 hi.
Definition slice_from (s : string) (lo : Z) : string := slice s lo (len s).

(** [not s] *)
Definition is_empty (s : string) : bool :=
  match s with EmptyString => true | _ => false end.

(** [str(n)] for an integer *)
Definition str_of_Z (n : Z) : string := NilZero.string_of_int (Z.to_int n).

End Text.

(* ===================================================================== *)
(** * Exceptions *)
(* ===================================================================== *)

Inductive exn : Type :=
| ValueError (msg : string)
| KeyError (key : string)
| IndexError (msg : string)
| TypeError (msg : string)
| AttributeError (msg : string).

Inductive Result (A : Type) : Type :=
| Ok (a : A)
| Raise (e : exn).
Arguments Ok {A} a.
Arguments Raise {A} e.

Definition bind {A B : Type} (r : Result A) (k : A -> Result B) : Result B :=
  match r with
  | Ok a => k a
  | Raise e => Raise e
  end.

Notation "'try!' x <- r 'in' k" := (bind r (fun x => k))
  (at level 10, x name, r at level 100, k at level 200).

Definition is_ok {A : Type} (r : Result A) : bool :=
  match r with Ok _ => true | Raise _ => false end.

(* ===================================================================== *)
(** * Vector clocks ([VectorClock] of ot.py) *)
(* ===================================================================== *)

Module VectorClock.

(** [clocks: Dict[str, int]] *)
Record t : Type := Make { clocks : gmap string Z }.

Definition empty : t := Make ∅.

(** [self.clocks.get(client_id, 0)] *)
Definition get (vc : t) (client_id : string) : Z :=
  default 0 (clocks vc !! client_id).

Definition increment (vc : t) (client_id : string) : t :=
  Make (<[client_id := get vc client_id + 1]> (clocks vc)).

(** The loop of [update] over [other.clocks.items()]. *)
Definition update (vc other : t) : t :=
  Make (foldl (fun m '(client_id, clock_value) =>
                 <[client_id := Z.max (default 0 (m !! client_id)) clock_value]> m)
              (clocks vc) (map_to_list (clocks other))).

(** One iteration of the loop of [compare]; the state is
    [(self_less, other_less)]. *)
Definition compare_step (self other : t) (flags : bool * bool)
    (client : string) : bool * bool :=
  let '(self_less, other_less) := flags in
  let self_val := get self client in
  let other_val := get other client in
  if self_val <? other_val then (self_less, true)
  else if self_val >? other_val then (true, other_less)
  else (self_less, other_less).

Definition compare_flags (self other : t) : bool * bool :=
  let all_clients := elements (dom (clocks self) ∪ dom (clocks other)) in
  foldl (compare_step self other) (false, false) all_clients.

Definition compare (self other : t) : string :=
  let '(self_less, other_less) := compare_flags self other in
  if self_less && other_less then "concurrent"
  else if self_less && negb other_less then "before"
  else if other_less && negb self_less then "after"
  else "equal".

Definition copy (vc : t) : t := Make (clocks vc).

End VectorClock.

(* ===================================================================== *)
(** * Operations and the transformation engine (ot.py) *)
(* ===================================================================== *)

Inductive OperationType : Type := RETAIN | INSERT | DELETE.

(** [OperationType.X.value] *)
Definition value (t : OperationType) : string :=
  match t with
  | RETAIN => "retain"
  | INSERT => "insert"
  | DELETE => "delete"
  end.

Definition OperationType_eqb (a b : OperationType) : bool :=
  match a, b with
  | RETAIN, RETAIN | INSERT, INSERT | DELETE, DELETE => true
  | _, _ => false
  end.

(** The fields of the dataclass [Operation], each prefixed with [op_]. *)
Record Operation : Type := {
  op_type : OperationType;
  op_position : Z;
  op_text : string;
  op_length : Z;
  op_client_id : string;
  op_operation_id : string;
  op_vector_clock : VectorClock.t;
  op_timestamp : Q;
  op_checksum : string
}.

(** What the code takes from Python's library and the theorems leave
    open: [hashlib.sha256(s.encode()).hexdigest()],
    [hashlib.md5(s.encode()).hexdigest()], the text of a float in an
    f-string, and [str(sorted(clocks.items()))]. *)
Class Hashlib : Type := {
  sha256_hex : string -> string;
  md5_hex : string -> string;
  str_of_float : Q -> string;
  str_of_sorted_items : gmap string Z -> string
}.

Section Engine.

Context {hashlib : Hashlib}.

Definition _generate_operation_id (self : Operation) : string :=
  let content :=
    op_client_id self +:+ "_" +:+ str_of_float (op_timestamp self) +:+ "_"
      +:+ value (op_type self) +:+ "_" +:+ Text.str_of_Z (op_position self) in
  Text.str_take 16 (md5_hex content).

Definition _generate_checksum (self : Operation) : string :=
  let content :=
    value (op_type self) +:+ "_" +:+ Text.str_of_Z (op_position self) +:+ "_"
      +:+ op_text self +:+ "_" +:+ Text.str_of_Z (op_length self) in
  Text.str_take 32 (sha256_hex content).

(** [Operation.__post_init__], run on the fields as the caller gave them. *)
Definition __post_init__ (self : Operation) : Result Operation :=
  if OperationType_eqb (op_type self) INSERT && Text.is_empty (op_text self)
  then Raise (ValueError "Insert operations must have text")
  else if OperationType_eqb (op_type self) DELETE && (op_length self <=? 0)
  then Raise (ValueError "Delete operations must have positive length")
  else
    let self1 :=
      if Text.is_empty (op_operation_id self)
      then {| op_type := op_type self; op_position := op_position self;
              op_text := op_text self; op_length := op_length self;
              op_client_id := op_client_id self;
              op_operation_id := _generate_operation_id self;
              op_vector_clock := op_vector_clock self;
              op_timestamp := op_timestamp self;
              op_checksum := op_checksum self |}
      else self in
    let self2 :=
      if Text.is_empty (op_checksum self1)
      then {| op_type := op_type self1; op_position := op_position self1;
              op_text := op_text self1; op_length := op_length self1;
              op_client_id := op_client_id self1;
              op_operation_id := op_operation_id self1;
              op_vector_clock := op_vector_clock self1;
              op_timestamp := op_timestamp self1;
              op_checksum := _generate_checksum self1 |}
      else self1 in
    Ok self2.

(** The constructor call [Operation(type=..., position=..., ...)]: the
    arguments in the order of the dataclass fields, then [__post_init__].
    A keyword the caller leaves out takes its default: [""] for the
    strings, [0] for [length], an empty clock, and the current time for
    [timestamp]. *)
Definition Operation_new (type : OperationType) (position : Z) (text : string)
    (length : Z) (client_id operation_id : string)
    (vector_clock : VectorClock.t) (timestamp : Q) (checksum : string)
  : Result Operation :=
  __post_init__
    {| op_type := type; op_position := position; op_text := text;
       op_length := length; op_client_id := client_id;
       op_operation_id := operation_id; op_vector_clock := vector_clock;
       op_timestamp := timestamp; op_checksum := checksum |}.

Definition verify_integrity (self : Operation) : bool :=
  let expected_checksum := _generate_checksum self in
  String.eqb (op_checksum self) expected_checksum.

(** ** [AdvancedTextOT] *)

Definition apply_operation (text : string) (operation : Operation)
  : Result string :=
  if negb (verify_integrity operation)
  then Raise (ValueError ("Operation integrity check failed: "
                            +:+ op_operation_id operation))
  else
    let text_len := Text.len text in
    match op_type operation with
    | INSERT =>
        let pos := Z.max 0 (Z.min (op_position operation) text_len) in
        Ok (Text.slice_to text pos +:+ op_text operation
              +:+ Text.slice_from text pos)
    | DELETE =>
        let start_pos := Z.max 0 (Z.min (op_position operation) text_len) in
        let end_pos :=
          Z.max start_pos
                (Z.min (op_position operation + op_length operation) text_len) in
        Ok (Text.slice_to text start_pos +:+ Text.slice_from text end_pos)
    | RETAIN => Ok text
    end.

(** The sort key [(op.timestamp, op.type.value)] and Python's order on
    such pairs: the first components decide unless they are equal. *)
Definition sort_key (op : Operation) : Q * string :=
  (op_timestamp op, value (op_type op)).

Definition key_lt (a b : Q * string) : bool :=
  match Qcompare (fst a) (fst b) with
  | Lt => true
  | Gt => false
  | Eq => String.ltb (snd a) (snd b)
  end.

(** [sorted(operations, key=...)] is a stable sort: an operation goes in
    front of the first one of the already sorted rest that is not
    strictly smaller. *)
Fixpoint sorted_insert (op : Operation) (l : list Operation) : list Operation :=
  match l with
  | [] => [op]
  | y :: ys =>
      if key_lt (sort_key y) (sort_key op) then y :: sorted_insert op ys
      else op :: y :: ys
  end.

Fixpoint sorted (operations : list Operation) : list Operation :=
  match operations with
  | [] => []
  | op :: rest => sorted_insert op (sorted rest)
  end.

(** The body of the loop of [apply_operations], with the state
    [(result, position_offset)]. *)
Fixpoint apply_operations_loop (sorted_ops : list Operation)
    (result : string) (position_offset : Z) : Result string :=
  match sorted_ops with
  | [] => Ok result
  | op :: rest =>
      try! adjusted_op <-
        Operation_new (op_type op) (op_position op + position_offset)
                      (op_text op) (op_length op) (op_client_id op)
                      (op_operation_id op) (op_vector_clock op)
                      (op_timestamp op) (op_checksum op) in
      try! result' <- apply_operation result adjusted_op in
      let position_offset' :=
        match op_type op with
        | INSERT => position_offset + Text.len (op_text op)
        | DELETE => position_offset - op_length op
        | RETAIN => position_offset
        end in
      apply_operations_loop rest result' position_offset'
  end.

Definition apply_operations (text : string) (operations : list Operation)
  : Result string :=
  let sorted_ops := sorted operations in
  apply_operations_loop sorted_ops text 0.

Definition _operations_conflict (op1 op2 : Operation) : bool :=
  if OperationType_eqb (op_type op1) RETAIN
     || OperationType_eqb (op_type op2) RETAIN
  then false
  else
    let op1_start := op_position op1 in
    let op1_end :=
      op_position op1
      + (if OperationType_eqb (op_type op1) DELETE then op_length op1 else 0) in
    let op2_start := op_position op2 in
    let op2_end :=
      op_position op2
      + (if OperationType_eqb (op_type op2) DELETE then op_length op2 else 0) in
    negb ((op1_end <=? op2_start) || (op2_end <=? op1_start)).

Definition Qltb (a b : Q) : bool :=
  match Qcompare a b with Lt => true | _ => false end.

Definition _determine_priority (op1 op2 : Operation) : string :=
  let clock_comparison :=
    VectorClock.compare (op_vector_clock op1) (op_vector_clock op2) in
  if String.eqb clock_comparison "before" then "op1"
  else if String.eqb clock_comparison "after" then "op2"
  else if String.ltb (op_client_id op1) (op_client_id op2) then "op1"
  else if String.ltb (op_client_id op2) (op_client_id op1) then "op2"
  else if Qltb (op_timestamp op1) (op_timestamp op2) then "op1" else "op2".

(** [Operation(type=op.type, position=position, text=op.text,
    client_id=..., operation_id=..., vector_clock=op.vector_clock.copy(),
    timestamp=op.timestamp)]: the shifted copy of an insert. *)
Definition moved_insert (op : Operation) (position : Z) : Result Operation :=
  Operation_new (op_type op) position (op_text op) 0 (op_client_id op)
                (op_operation_id op) (VectorClock.copy (op_vector_clock op))
                (op_timestamp op) "".

(** The same with [length=length] in place of [text=...]: the shifted or
    shortened copy of a delete, or the retain that replaces it. *)
Definition moved_delete (type : OperationType) (op : Operation)
    (position length : Z) : Result Operation :=
  Operation_new type position "" length (op_client_id op)
                (op_operation_id op) (VectorClock.copy (op_vector_clock op))
                (op_timestamp op) "".

Definition _transform_insert_insert (op1 op2 : Operation) (priority : string)
  : Result (Operation * Operation) :=
  if op_position op1 <? op_position op2 then
    try! op2_prime <-
      moved_insert op2 (op_position op2 + Text.len (op_text op1)) in
    Ok (op1, op2_prime)
  else if op_position op1 >? op_position op2 then
    try! op1_prime <-
      moved_insert op1 (op_position op1 + Text.len (op_text op2)) in
    Ok (op1_prime, op2)
  else if String.eqb priority "op1" then
    try! op2_prime <-
      moved_insert op2 (op_position op2 + Text.len (op_text op1)) in
    Ok (op1, op2_prime)
  else
    try! op1_prime <-
      moved_insert op1 (op_position op1 + Text.len (op_text op2)) in
    Ok (op1_prime, op2).

Definition _transform_insert_delete (op_insert op_delete : Operation)
  : Result (Operation * Operation) :=
  let delete_start := op_position op_delete in
  let delete_end := op_position op_delete + op_length op_delete in
  if op_position op_insert <=? delete_start then
    try! op_delete_prime <-
      moved_delete (op_type op_delete) op_delete
        (op_position op_delete + Text.len (op_text op_insert))
        (op_length op_delete) in
    Ok (op_insert, op_delete_prime)
  else if op_position op_insert >=? delete_end then
    try! op_insert_prime <-
      moved_insert op_insert (op_position op_insert - op_length op_delete) in
    Ok (op_insert_prime, op_delete)
  else
    try! op_insert_prime <- moved_insert op_insert delete_start in
    try! op_delete_prime <-
      moved_delete (op_type op_delete) op_delete
        (op_position op_delete + Text.len (op_text op_insert))
        (op_length op_delete) in
    Ok (op_insert_prime, op_delete_prime).

(** One half of [_transform_delete_delete]: [op] transformed against
    [other]. Both halves of the source have this shape with the roles
    exchanged; [min(op1_start, op2_start)] and the overlap are symmetric. *)
Definition transform_delete_against (op other : Operation) : Result Operation :=
  let op_start := op_position op in
  let op_end := op_position op + op_length op in
  let other_start := op_position other in
  let other_end := op_position other + op_length other in
  let overlap_start := Z.max op_start other_start in
  let overlap_end := Z.min op_end other_end in
  let overlap_length := Z.max 0 (overlap_end - overlap_start) in
  if other_end <=? op_start then
    moved_delete (op_type op) op (op_position op - op_length other)
                 (op_length op)
  else if other_start >=? op_end then Ok op
  else
    let new_length := op_length op - overlap_length in
    if new_length <=? 0 then
      moved_delete RETAIN op (Z.min op_start other_start) 0
    else
      moved_delete (op_type op) op (Z.min op_start other_start) new_length.

Definition _transform_delete_delete (op1 op2 : Operation)
  : Result (Operation * Operation) :=
  try! op1_prime <- transform_delete_against op1 op2 in
  try! op2_prime <- transform_delete_against op2 op1 in
  Ok (op1_prime, op2_prime).

Definition _transform_operation_pair (op1 op2 : Operation)
  : Result (Operation * Operation) :=
  if String.eqb (op_client_id op1) (op_client_id op2)
     || negb (_operations_conflict op1 op2)
  then Ok (op1, op2)
  else
    let priority := _determine_priority op1 op2 in
    match op_type op1, op_type op2 with
    | INSERT, INSERT => _transform_insert_insert op1 op2 priority
    | INSERT, DELETE => _transform_insert_delete op1 op2
    | DELETE, INSERT =>
        try! r <- _transform_insert_delete op2 op1 in
        let '(op2_prime, op1_prime) := r in
        Ok (op1_prime, op2_prime)
    | DELETE, DELETE => _transform_delete_delete op1 op2
    | _, _ => Ok (op1, op2)
    end.

(** The inner loop of [transform_operations] for one [op1]: its running
    first coordinate against every [op2] in turn. *)
Fixpoint transform_against_all (current_op1 : Operation) (ops2 : list Operation)
  : Result Operation :=
  match ops2 with
  | [] => Ok current_op1
  | op2 :: rest =>
      try! r <- _transform_operation_pair current_op1 op2 in
      transform_against_all (fst r) rest
  end.

(** The inner loop for one [op2]: its running second coordinate against
    every [op1] in turn. *)
Fixpoint transform_all_against (ops1 : list Operation) (current_op2 : Operation)
  : Result Operation :=
  match ops1 with
  | [] => Ok current_op2
  | op1 :: rest =>
      try! r <- _transform_operation_pair op1 current_op2 in
      transform_all_against rest (snd r)
  end.

(** A [for] loop that appends one result per element, stopping at the
    first exception. *)
Fixpoint for_each {A B : Type} (f : A -> Result B) (l : list A)
  : Result (list B) :=
  match l with
  | [] => Ok []
  | x :: rest =>
      try! y <- f x in
      try! ys <- for_each f rest in
      Ok (y :: ys)
  end.

Definition is_nil {A : Type} (l : list A) : bool :=
  match l with [] => true | _ => false end.

Definition transform_operations (ops1 ops2 : list Operation)
  : Result (list Operation * list Operation) :=
  if is_nil ops1 || is_nil ops2 then Ok (ops1, ops2)
  else
    try! transformed_ops1 <-
      for_each (fun op1 => transform_against_all op1 ops2) ops1 in
    try! transformed_ops2 <-
      for_each (fun op2 => transform_all_against ops1 op2) ops2 in
    Ok (transformed_ops1, transformed_ops2).

(** ** Helpers that create operations

    [now] is the reading of [time.time()] that the default of
    [timestamp] takes when the operation is built. *)
Definition create_insert_operation (now : Q) (position : Z) (text : string)
    (client_id : string) : Result Operation :=
  Operation_new INSERT position text 0 client_id "" VectorClock.empty now "".

Definition create_delete_operation (now : Q) (position : Z) (length : Z)
    (client_id : string) : Result Operation :=
  Operation_new DELETE position "" length client_id "" VectorClock.empty now "".

(** [old_text[i] == new_text[j]]; both indices are inside their strings
    wherever the loops below evaluate it. *)
Definition same_char (old_text new_text : string) (i j : nat) : bool :=
  match String.get i old_text, String.get j new_text with
  | Some x, Some y => Ascii.eqb x y
  | _, _ => false
  end.

(** [while prefix_len < min_len and old_text[prefix_len] ==
    new_text[prefix_len]: prefix_len += 1]. Every iteration raises
    [prefix_len], which stays below [min_len]: [min_len] iterations are
    enough. *)
Fixpoint prefix_loop (fuel : nat) (old_text new_text : string)
    (min_len prefix_len : nat) : nat :=
  match fuel with
  | O => prefix_len
  | S fuel' =>
      if (prefix_len <? min_len)%nat
         && same_char old_text new_text prefix_len prefix_len
      then prefix_loop fuel' old_text new_text min_len (S prefix_len)
      else prefix_len
  end.

(** [while suffix_len < min_len - prefix_len and
    old_text[old_suffix_start - 1 - suffix_len] ==
    new_text[new_suffix_start - 1 - suffix_len]: suffix_len += 1]. *)
Fixpoint suffix_loop (fuel : nat) (old_text new_text : string)
    (min_len prefix_len old_suffix_start new_suffix_start suffix_len : nat)
  : nat :=
  match fuel with
  | O => suffix_len
  | S fuel' =>
      if (suffix_len <? min_len - prefix_len)%nat
         && same_char old_text new_text
                      (old_suffix_start - 1 - suffix_len)
                      (new_suffix_start - 1 - suffix_len)
      then suffix_loop fuel' old_text new_text min_len prefix_len
                       old_suffix_start new_suffix_start (S suffix_len)
      else suffix_len
  end.

(** [clock k] is the [k]-th reading of [time.time()] during the call. *)
Definition parse_edit_to_operations (clock : nat -> Q)
    (old_text new_text client_id : string) : Result (list Operation) :=
  if String.eqb old_text new_text then Ok []
  else
    let min_len := Nat.min (String.length old_text) (String.length new_text) in
    let prefix_len := prefix_loop min_len old_text new_text min_len 0 in
    let old_suffix_start := String.length old_text in
    let new_suffix_start := String.length new_text in
    let suffix_len :=
      suffix_loop (min_len - prefix_len) old_text new_text min_len prefix_len
                  old_suffix_start new_suffix_start 0 in
    let old_middle :=
      Text.slice old_text (Z.of_nat prefix_len)
                 (Z.of_nat (String.length old_text - suffix_len)) in
    let new_middle :=
      Text.slice new_text (Z.of_nat prefix_len)
                 (Z.of_nat (String.length new_text - suffix_len)) in
    if negb (Text.is_empty old_middle) && negb (Text.is_empty new_middle) then
      try! d <- create_delete_operation (clock 0%nat) (Z.of_nat prefix_len)
                  (Text.len old_middle) client_id in
      try! i <- create_insert_operation (clock 1%nat) (Z.of_nat prefix_len)
                  new_middle client_id in
      Ok [d; i]
    else if negb (Text.is_empty old_middle) then
      try! d <- create_delete_operation (clock 0%nat) (Z.of_nat prefix_len)
                  (Text.len old_middle) client_id in
      Ok [d]
    else if negb (Text.is_empty new_middle) then
      try! i <- create_insert_operation (clock 0%nat) (Z.of_nat prefix_len)
                  new_middle client_id in
      Ok [i]
    else Ok [].

(** ** [OperationBuffer]

    The wall-clock metrics ([last_operation_time] and the moving average
    [average_processing_time]) are floats that no other field depends on;
    they are left out. *)
Record OperationBuffer : Type := {
  content : string;
  client_id : string;
  operation_history : list Operation;
  pending_operations : list Operation;
  vector_clock : VectorClock.t;
  state_hash : string;
  operations_processed : Z
}.

Definition _calculate_state_hash (content : string) (vc : VectorClock.t)
  : string :=
  let content_hash := sha256_hex content in
  let clock_hash := sha256_hex (str_of_sorted_items (VectorClock.clocks vc)) in
  Text.str_take 16 (sha256_hex (content_hash +:+ clock_hash)).

Definition OperationBuffer_init (initial_content client_id : string)
  : OperationBuffer :=
  {| content := initial_content;
     client_id := client_id;
     operation_history := [];
     pending_operations := [];
     vector_clock := VectorClock.empty;
     state_hash := _calculate_state_hash initial_content VectorClock.empty;
     operations_processed := 0 |}.

(** A method of the buffer: the state it leaves behind, and the value it
    returns or the exception it raises. *)
Definition method (A : Type) : Type := OperationBuffer * Result A.

Definition apply_local_operation (self : OperationBuffer)
    (operation : Operation) : method string :=
  (* operation.client_id = self.client_id *)
  let operation1 :=
    {| op_type := op_type operation; op_position := op_position operation;
       op_text := op_text operation; op_length := op_length operation;
       op_client_id := client_id self;
       op_operation_id := op_operation_id operation;
       op_vector_clock := op_vector_clock operation;
       op_timestamp := op_timestamp operation;
       op_checksum := op_checksum operation |} in
  (* self.vector_clock.increment(self.client_id) *)
  let vector_clock1 := VectorClock.increment (vector_clock self) (client_id self) in
  (* operation.vector_clock = self.vector_clock.copy() *)
  let operation2 :=
    {| op_type := op_type operation1; op_position := op_position operation1;
       op_text := op_text operation1; op_length := op_length operation1;
       op_client_id := op_client_id operation1;
       op_operation_id := op_operation_id operation1;
       op_vector_clock := VectorClock.copy vector_clock1;
       op_timestamp := op_timestamp operation1;
       op_checksum := op_checksum operation1 |} in
  match apply_operation (content self) operation2 with
  | Raise e =>
      ({| content := content self;
          client_id := client_id self;
          operation_history := operation_history self;
          pending_operations := pending_operations self;
          vector_clock := vector_clock1;
          state_hash := state_hash self;
          operations_processed := operations_processed self |},
       Raise e)
  | Ok content' =>
      ({| content := content';
          client_id := client_id self;
          operation_history := operation_history self ++ [operation2];
          pending_operations := pending_operations self;
          vector_clock := vector_clock1;
          state_hash := _calculate_state_hash content' vector_clock1;
          operations_processed := operations_processed self + 1 |},
       Ok content')
  end.

Definition apply_remote_operation (self : OperationBuffer)
    (operation : Operation) : method string :=
  if negb (verify_integrity operation)
  then (self, Raise (ValueError ("Remote operation integrity check failed: "
                                   +:+ op_operation_id operation)))
  else
    (* self.vector_clock.update(operation.vector_clock) *)
    let vector_clock1 :=
      VectorClock.update (vector_clock self) (op_vector_clock operation) in
    let self1 :=
      {| content := content self;
         client_id := client_id self;
         operation_history := operation_history self;
         pending_operations := pending_operations self;
         vector_clock := vector_clock1;
         state_hash := state_hash self;
         operations_processed := operations_processed self |} in
    (* Transform against pending local operations *)
    let transformed : Result (Operation * list Operation) :=
      if negb (is_nil (pending_operations self1)) then
        try! r <- transform_operations [operation] (pending_operations self1) in
        match fst r with
        | [] => Raise (IndexError "list index out of range")
        | operation' :: _ => Ok (operation', snd r)
        end
      else Ok (operation, pending_operations self1) in
    match transformed with
    | Raise e => (self1, Raise e)
    | Ok (operation', pending') =>
        match apply_operation (content self1) operation' with
        | Raise e =>
            ({| content := content self1;
                client_id := client_id self1;
                operation_history := operation_history self1;
                pending_operations := pending';
                vector_clock := vector_clock1;
                state_hash := state_hash self1;
                operations_processed := operations_processed self1 |},
             Raise e)
        | Ok content' =>
            ({| content := content';
                client_id := client_id self1;
                operation_history := operation_history self1 ++ [operation'];
                pending_operations := pending';
                vector_clock := vector_clock1;
                state_hash := _calculate_state_hash content' vector_clock1;
                operations_processed := operations_processed self1 + 1 |},
             Ok content')
        end
    end.

End Engine.

(* ===================================================================== *)
(** * Session state (sessions.py) *)
(* ===================================================================== *)

Module Sessions.

(** A value stored under a key of the dictionary that [from_dict] reads. *)
Inductive value : Type :=
| VStr (s : string)
| VInt (n : Z)
| VList (l : list string)
| VDict (d : list (string * string)).

(** [datetime] and [datetime.fromisoformat], which returns [None] here
    where Python raises [ValueError]. *)
Class DatetimeLib : Type := {
  datetime : Type;
  fromisoformat : string -> option datetime
}.

Section SessionState.

Context {hashlib : Hashlib}.

Context {datetimelib : DatetimeLib}.

(** The dataclass [SessionState]. The fields that the code only stores
    keep the value they were given, whatever its type. *)
Record SessionState : Type := {
  session_id : value;
  content : string;
  users : gset string;
  created_at : datetime;
  last_activity : datetime;
  version : value;
  operation_count : value;
  content_checksum : string;
  metadata : value
}.

(** [hashlib.sha256(content.encode()).hexdigest()[:16]] *)
Definition checksum_of (content : string) : string :=
  Text.str_take 16 (sha256_hex content).

(** The constructor: the fields as given ([metadata] is [None] when left
    out), then [__post_init__]. *)
Definition SessionState_new (session_id : value) (content : string)
    (users : gset string) (created_at last_activity : datetime)
    (version operation_count : value) (content_checksum : string)
    (metadata : option value) : SessionState :=
  {| session_id := session_id;
     content := content;
     users := users;
     created_at := created_at;
     last_activity := last_activity;
     version := version;
     operation_count := operation_count;
     content_checksum := checksum_of content;
     metadata := match metadata with None => VDict [] | Some m => m end |}.

Definition verify_integrity (self : SessionState) : bool :=
  let expected_checksum := checksum_of (content self) in
  String.eqb (content_checksum self) expected_checksum.

(** [data[key]] *)
Definition item (data : gmap string value) (key : string) : Result value :=
  match data !! key with
  | Some v => Ok v
  | None => Raise (KeyError key)
  end.

(** [data.get(key, default)] *)
Definition get (data : gmap string value) (key : string) (default : value)
  : value :=
  match data !! key with
  | Some v => v
  | None => default
  end.

(** The characters of a string, each as a string. *)
Fixpoint chars (s : string) : list string :=
  match s with
  | EmptyString => []
  | String c s' => String c EmptyString :: chars s'
  end.

(** [set(v)] *)
Definition set_of (v : value) : Result (gset string) :=
  match v with
  | VStr s => Ok (list_to_set (chars s))
  | VList l => Ok (list_to_set l)
  | VDict d => Ok (list_to_set (map fst d))
  | VInt _ => Raise (TypeError "'int' object is not iterable")
  end.

(** [datetime.fromisoformat(v)] *)
Definition parse_datetime (v : value) : Result datetime :=
  match v with
  | VStr s =>
      match fromisoformat s with
      | Some d => Ok d
      | None => Raise (ValueError ("Invalid isoformat string: " +:+ s))
      end
  | _ => Raise (TypeError "fromisoformat: argument must be str")
  end.

(** [content.encode()] inside [__post_init__] needs a string. *)
Definition as_str (v : value) : Result string :=
  match v with
  | VStr s => Ok s
  | _ => Raise (AttributeError "object has no attribute 'encode'")
  end.

(** The checksum argument is stored and then overwritten; it is kept as a
    string here, any other value being overwritten just the same. *)
Definition checksum_argument (v : value) : string :=
  match v with VStr s => s | _ => "" end.

Definition from_dict (data : gmap string value) : Result SessionState :=
  try! session_id <- item data "session_id" in
  try! content_v <- item data "content" in
  try! users_v <- item data "users" in
  try! users <- set_of users_v in
  try! created_at_v <- item data "created_at" in
  try! created_at <- parse_datetime created_at_v in
  try! last_activity_v <- item data "last_activity" in
  try! last_activity <- parse_datetime last_activity_v in
  let version := get data "version" (VInt 0) in
  let operation_count := get data "operation_count" (VInt 0) in
  let content_checksum := get data "content_checksum" (VStr "") in
  let metadata := get data "metadata" (VDict []) in
  try! content <- as_str content_v in
  Ok (SessionState_new session_id content users created_at last_activity
                       version operation_count
                       (checksum_argument content_checksum) (Some metadata)).

(** ** [DistributedSessionManager.get_session] *)

Record SessionManager : Type := {
  _local_cache : gmap string SessionState;
  _cache_timestamps : gmap string Q;
  cache_ttl : Q;
  cache_hits : Z;
  cache_misses : Z;
  redis_errors : Z
}.

(** What [redis_client.hgetall] does: it returns a dictionary or raises. *)
Inductive hgetall_outcome : Type :=
| Returned (session_data : gmap string value)
| Failed (e : exn).

Definition _is_cache_valid (self : SessionManager) (session_id : string)
    (now : Q) : bool :=
  match _local_cache self !! session_id with
  | None => false
  | Some _ =>
      let cache_time := default 0%Q (_cache_timestamps self !! session_id) in
      Qltb (now - cache_time) (cache_ttl self)
  end.

Definition count_cache_hit (self : SessionManager) : SessionManager :=
  {| _local_cache := _local_cache self;
     _cache_timestamps := _cache_timestamps self;
     cache_ttl := cache_ttl self;
     cache_hits := cache_hits self + 1;
     cache_misses := cache_misses self;
     redis_errors := redis_errors self |}.

Definition count_cache_miss (self : SessionManager) : SessionManager :=
  {| _local_cache := _local_cache self;
     _cache_timestamps := _cache_timestamps self;
     cache_ttl := cache_ttl self;
     cache_hits := cache_hits self;
     cache_misses := cache_misses self + 1;
     redis_errors := redis_errors self |}.

Definition count_redis_error (self : SessionManager) : SessionManager :=
  {| _local_cache := _local_cache self;
     _cache_timestamps := _cache_timestamps self;
     cache_ttl := cache_ttl self;
     cache_hits := cache_hits self;
     cache_misses := cache_misses self;
     redis_errors := redis_errors self + 1 |}.

Definition store_in_cache (self : SessionManager) (session_id : string)
    (session_state : SessionState) (now : Q) : SessionManager :=
  {| _local_cache := <[session_id := session_state]> (_local_cache self);
     _cache_timestamps := <[session_id := now]> (_cache_timestamps self);
     cache_ttl := cache_ttl self;
     cache_hits := cache_hits self;
     cache_misses := cache_misses self;
     redis_errors := redis_errors self |}.

(** The branch of [get_session] a call leaves through. *)
Inductive exit : Type :=
| CacheHit
| NoData
| IntegrityFailure
| Fetched
| RedisFailure.

(** [get_session], with the two readings of the clock and the outcome of
    [hgetall] as arguments; it returns the manager afterwards, the value
    returned, and the branch taken. *)
Definition get_session (self : SessionManager) (session_id : string)
    (now_check now_store : Q) (redis : hgetall_outcome)
  : SessionManager * option SessionState * exit :=
  if _is_cache_valid self session_id now_check
  then (count_cache_hit self, _local_cache self !! session_id, CacheHit)
  else
    let self := count_cache_miss self in
    let parsed : Result (option SessionState) :=
      match redis with
      | Failed e => Raise e
      | Returned session_data =>
          if decide (session_data = ∅) then Ok None
          else
            try! session_state <- from_dict session_data in
            Ok (Some session_state)
      end in
    match parsed with
    | Ok None => (self, None, NoData)
    | Ok (Some session_state) =>
        if negb (verify_integrity session_state)
        then (count_redis_error self, None, IntegrityFailure)
        else (store_in_cache self session_id session_state now_store,
              Some session_state, Fetched)
    | Raise e =>
        (count_redis_error self, _local_cache self !! session_id, RedisFailure)
    end.

End SessionState.

End Sessions.

(* ===================================================================== *)
(** * Rate limiting of incoming messages (manager.py) *)
(* ===================================================================== *)

Module Manager.

Local Open Scope Q_scope.

(** A JSON object with string fields: a message on the wire. *)
Definition message : Type := list (string * string).

(** The dictionary kept per connection. The WebSocket itself is a number
    that identifies the channel. *)
Record ConnectionInfo : Type := {
  user_id : string;
  session_id : string;
  connected_at : Q;
  cursor_position : Z;
  last_activity : Q;
  vector_clock : VectorClock.t
}.

(** [AdvancedConnectionManager]. Of [PerformanceMetrics] only the error
    counters are kept; [sent] lists the messages that reached a channel,
    oldest first. *)
Record AdvancedConnectionManager : Type := {
  connection_info : gmap nat ConnectionInfo;
  session_buffers : gmap string OperationBuffer;
  rate_limits : gmap string (list Q);
  error_count : gmap string Z;
  sent : list (nat * message)
}.

(** [deque.append] on a [deque(maxlen=maxlen)]: a full deque drops its
    oldest entry. *)
Definition deque_append (maxlen : nat) (d : list Q) (x : Q) : list Q :=
  if (length d <? maxlen)%nat then d ++ [x] else tail d ++ [x].

(** [while user_requests and user_requests[0] < cutoff:
    user_requests.popleft()] *)
Fixpoint popleft_while_older (cutoff : Q) (user_requests : list Q) : list Q :=
  match user_requests with
  | [] => []
  | x :: rest =>
      if Qltb x cutoff then popleft_while_older cutoff rest
      else user_requests
  end.

(** [self.rate_limits[user_id]] on the [defaultdict]: a missing entry is
    an empty deque. *)
Definition requests_of (rate_limits : gmap string (list Q)) (user_id : string)
  : list Q :=
  default [] (rate_limits !! user_id).

(** [_check_rate_limit]: the rate limits afterwards and the answer. *)
Definition _check_rate_limit (rate_limits : gmap string (list Q))
    (user_id : string) (current_time : Q) (max_requests : nat)
    (window_seconds : Q) : gmap string (list Q) * bool :=
  let user_requests := requests_of rate_limits user_id in
  let user_requests :=
    popleft_while_older (current_time - window_seconds) user_requests in
  if (max_requests <=? length user_requests)%nat
  then (<[user_id := user_requests]> rate_limits, false)
  else (<[user_id := deque_append 100 user_requests current_time]> rate_limits,
        true).

(** The pruning of [_cleanup_loop]: entries older than five minutes are
    dropped from every deque, and an empty deque is deleted. *)
Definition cleanup_rate_limits (current_time : Q)
    (rate_limits : gmap string (list Q)) : gmap string (list Q) :=
  filter (fun kv => is_nil (snd kv) = false)
         (popleft_while_older (current_time - 300) <$> rate_limits).

Definition record_error (self : AdvancedConnectionManager)
    (error_type : string) : AdvancedConnectionManager :=
  {| connection_info := connection_info self;
     session_buffers := session_buffers self;
     rate_limits := rate_limits self;
     error_count :=
       <[error_type := (default 0%Z (error_count self !! error_type) + 1)%Z]>
         (error_count self);
     sent := sent self |}.

Definition rate_limit_reply : message :=
  [("type", "error"); ("message", "Rate limit exceeded")].

(** What [handle_message] relies on: whether [websocket.send_text]
    delivers a message or raises, and the handlers it dispatches to on the
    type of the message (with the recording of the processing time). *)
Class Handlers : Type := {
  send_text_ok : nat -> message -> bool;
  dispatch :
    AdvancedConnectionManager -> nat -> message -> AdvancedConnectionManager
}.

Section HandleMessage.

Context {handlers : Handlers}.

Definition send_personal_message (self : AdvancedConnectionManager)
    (msg : message) (websocket : nat) : AdvancedConnectionManager :=
  if send_text_ok websocket msg then
    {| connection_info := connection_info self;
       session_buffers := session_buffers self;
       rate_limits := rate_limits self;
       error_count := error_count self;
       sent := sent self ++ [(websocket, msg)] |}
  else record_error self "send_error".

(** [handle_message]; [now_activity] and [current_time] are the readings
    of the clock for [last_activity] and inside [_check_rate_limit]. *)
Definition handle_message (self : AdvancedConnectionManager) (websocket : nat)
    (msg : message) (now_activity current_time : Q)
  : AdvancedConnectionManager :=
  match connection_info self !! websocket with
  | None => self
  | Some info =>
      let info' :=
        {| user_id := user_id info; session_id := session_id info;
           connected_at := connected_at info;
           cursor_position := cursor_position info;
           last_activity := now_activity;
           vector_clock := vector_clock info |} in
      let '(rate_limits', allowed) :=
        _check_rate_limit (rate_limits self) (user_id info) current_time
                          100 60 in
      let self1 :=
        {| connection_info := <[websocket := info']> (connection_info self);
           session_buffers := session_buffers self;
           rate_limits := rate_limits';
           error_count := error_count self;
           sent := sent self |} in
      if negb allowed then
        record_error (send_personal_message self1 rate_limit_reply websocket)
                     "rate_limit_exceeded"
      else dispatch self1 websocket msg
  end.

End HandleMessage.

(** The handlers leave the rate limits alone: in manager.py only
    [_check_rate_limit] and [_cleanup_loop] touch them. *)
Definition keeps_rate_limits (handlers : Handlers) : Prop :=
  forall self websocket msg,
    rate_limits (dispatch self websocket msg) = rate_limits self.

(** ** Runs of the manager *)

(** What a step of the manager is, as far as the rate limits go: a call
    of [handle_message] on a known channel, with the user, the reading of
    the clock and the answer of the check; a call on an unknown channel; a
    round of pruning by [_cleanup_loop]; anything else. *)
Inductive label : Type :=
| Handled (user_id : string) (current_time : Q) (allowed : bool)
| Ignored
| Pruned (current_time : Q)
| Other.

Inductive step :
  AdvancedConnectionManager -> label -> AdvancedConnectionManager -> Prop :=
| step_handled (handlers : Handlers) self websocket msg now_activity
               current_time info :
    keeps_rate_limits handlers ->
    connection_info self !! websocket = Some info ->
    step self
         (Handled (user_id info) current_time
                  (snd (_check_rate_limit (rate_limits self) (user_id info)
                                          current_time 100 60)))
         (handle_message self websocket msg now_activity current_time)
| step_ignored (handlers : Handlers) self websocket msg now_activity
               current_time :
    connection_info self !! websocket = None ->
    step self Ignored
         (handle_message self websocket msg now_activity current_time)
| step_pruned self self' current_time :
    rate_limits self' = cleanup_rate_limits current_time (rate_limits self) ->
    step self (Pruned current_time) self'
| step_other self self' :
    rate_limits self' = rate_limits self ->
    step self Other self'.

Inductive run :
  AdvancedConnectionManager -> list label -> AdvancedConnectionManager -> Prop :=
| run_nil self : run self [] self
| run_cons self l self' trace self'' :
    step self l self' -> run self' trace self'' ->
    run self (l :: trace) self''.

(** The readings of the clock along a run, and the times at which the
    messages of one user passed the check. *)
Fixpoint times (trace : list label) : list Q :=
  match trace with
  | [] => []
  | Handled _ t _ :: rest => t :: times rest
  | Pruned t :: rest => t :: times rest
  | _ :: rest => times rest
  end.

Fixpoint allowed_times (user : string) (trace : list label) : list Q :=
  match trace with
  | [] => []
  | Handled u t true :: rest =>
      if String.eqb u user then t :: allowed_times user rest
      else allowed_times user rest
  | _ :: rest => allowed_times user rest
  end.

Fixpoint nondecreasing_from (last : Q) (ts : list Q) : Prop :=
  match ts with
  | [] => True
  | t :: rest => last <= t /\ nondecreasing_from t rest
  end.

Definition nondecreasing (ts : list Q) : Prop :=
  match ts with
  | [] => True
  | t :: rest => nondecreasing_from t rest
  end.

(** [t] lies in the window of 60 seconds that starts at [w]. *)
Definition in_window (w t : Q) : bool := Qle_bool w t && Qle_bool t (w + 60).

(** ** Running a list of calls *)

(** A call of [handle_message]: the channel, the message and the two
    readings of the clock. *)
Definition call : Type := (nat * message * Q * Q)%type.

Section Calls.

Context {handlers : Handlers}.

Definition label_of (self : AdvancedConnectionManager) (c : call) : label :=
  let '(websocket, _, _, current_time) := c in
  match connection_info self !! websocket with
  | Some info =>
      Handled (user_id info) current_time
              (snd (_check_rate_limit (rate_limits self) (user_id info)
                                      current_time 100 60))
  | None => Ignored
  end.

Definition handle_call (self : AdvancedConnectionManager) (c : call)
  : AdvancedConnectionManager :=
  let '(websocket, msg, now_activity, current_time) := c in
  handle_message self websocket msg now_activity current_time.

Fixpoint handle_all (self : AdvancedConnectionManager) (calls : list call)
  : AdvancedConnectionManager :=
  match calls with
  | [] => self
  | c :: rest => handle_all (handle_call self c) rest
  end.

Fixpoint labels (self : AdvancedConnectionManager) (calls : list call)
  : list label :=
  match calls with
  | [] => []
  | c :: rest => label_of self c :: labels (handle_call self c) rest
  end.

End Calls.

End Manager.

(* ===================================================================== *)
(** * Cursor positions and the wire format of operations (ot.py) *)
(* ===================================================================== *)

(** [AdvancedTextOT.transform_position] *)
Definition transform_position (position : Z) (operation : Operation) : Z :=
  match op_type operation with
  | INSERT =>
      if position >=? op_position operation
      then position + Text.len (op_text operation)
      else position
  | DELETE =>
      if position >? op_position operation + op_length operation
      then position - op_length operation
      else if position >? op_position operation then op_position operation
      else position
  | RETAIN => position
  end.

Module Wire.

(** The dictionaries [Operation.from_dict] is given: under each of the
    nine keys either no entry or a value of the type [to_dict] writes
    there. Other keys are not read. *)
Record OperationDict : Type := {
  d_type : option string;
  d_position : option Z;
  d_text : option string;
  d_length : option Z;
  d_client_id : option string;
  d_operation_id : option string;
  d_vector_clock : option (gmap string Z);
  d_timestamp : option Q;
  d_checksum : option string
}.

Definition to_dict (self : Operation) : OperationDict :=
  {| d_type := Some (value (op_type self));
     d_position := Some (op_position self);
     d_text := Some (op_text self);
     d_length := Some (op_length self);
     d_client_id := Some (op_client_id self);
     d_operation_id := Some (op_operation_id self);
     d_vector_clock := Some (VectorClock.clocks (op_vector_clock self));
     d_timestamp := Some (op_timestamp self);
     d_checksum := Some (op_checksum self) |}.

(** [OperationType(s)]: the member with that value. *)
Definition OperationType_of_value (s : string) : Result OperationType :=
  if String.eqb s "retain" then Ok RETAIN
  else if String.eqb s "insert" then Ok INSERT
  else if String.eqb s "delete" then Ok DELETE
  else Raise (ValueError ("'" +:+ s +:+ "' is not a valid OperationType")).

(** [data[key]] *)
Definition item {A : Type} (entry : option A) (key : string) : Result A :=
  match entry with
  | Some v => Ok v
  | None => Raise (KeyError key)
  end.

Section FromDict.

Context {hashlib : Hashlib}.

(** [Operation.from_dict]; [now] is the reading of [time.time()] that
    the default of [timestamp] takes. *)
Definition from_dict (now : Q) (data : OperationDict) : Result Operation :=
  let vector_clock := VectorClock.Make (default ∅ (d_vector_clock data)) in
  try! type_value <- item (d_type data) "type" in
  try! type <- OperationType_of_value type_value in
  try! position <- item (d_position data) "position" in
  Operation_new type position
                (default "" (d_text data))
                (default 0 (d_length data))
                (default "" (d_client_id data))
                (default "" (d_operation_id data))
                vector_clock
                (default now (d_timestamp data))
                (default "" (d_checksum data)).

End FromDict.

End Wire.

(* ===================================================================== *)
(** * Throughput counters (manager.py) *)
(* ===================================================================== *)

Module Metrics.

Local Open Scope Q_scope.

(** The throughput part of [PerformanceMetrics]: the two windows are
    [deque(maxlen=60)]. *)
Record PerformanceMetrics : Type := {
  operation_count_window : list Q;
  message_count_window : list Q;
  operations_per_second : Z;
  messages_per_second : Z
}.

Definition PerformanceMetrics_init : PerformanceMetrics :=
  {| operation_count_window := [];
     message_count_window := [];
     operations_per_second := 0;
     messages_per_second := 0 |}.

Definition increment_operation_count (self : PerformanceMetrics)
    (current_time : Q) : PerformanceMetrics :=
  {| operation_count_window :=
       Manager.deque_append 60 (operation_count_window self) current_time;
     message_count_window := message_count_window self;
     operations_per_second := operations_per_second self;
     messages_per_second := messages_per_second self |}.

Definition increment_message_count (self : PerformanceMetrics)
    (current_time : Q) : PerformanceMetrics :=
  {| operation_count_window := operation_count_window self;
     message_count_window :=
       Manager.deque_append 60 (message_count_window self) current_time;
     operations_per_second := operations_per_second self;
     messages_per_second := messages_per_second self |}.

Definition _calculate_throughput (self : PerformanceMetrics)
    (current_time : Q) : PerformanceMetrics :=
  let cutoff_time := current_time - 60 in
  let operation_count_window :=
    Manager.popleft_while_older cutoff_time (operation_count_window self) in
  let message_count_window :=
    Manager.popleft_while_older cutoff_time (message_count_window self) in
  {| operation_count_window := operation_count_window;
     message_count_window := message_count_window;
     operations_per_second := Z.of_nat (length operation_count_window);
     messages_per_second := Z.of_nat (length message_count_window) |}.

End Metrics.

(* ===================================================================== *)
(** * The local cache and the stored form of a session (sessions.py) *)
(* ===================================================================== *)

Module SessionCache.
Import Sessions.

Section Cache.

Context {hashlib : Hashlib} {datetimelib : DatetimeLib}.

(** [current_time - timestamp > self.cache_ttl * 2] *)
Definition expired (self : SessionManager) (current_time timestamp : Q)
  : bool :=
  Qltb (cache_ttl self * 2) (current_time - timestamp).

(** [dict.pop(key, None)] for every key of a list. *)
Definition pop_all {A : Type} (keys : list string) (m : gmap string A)
  : gmap string A :=
  foldl (fun m key => delete key m) m keys.

Definition _cleanup_local_cache (self : SessionManager) (current_time : Q)
  : SessionManager :=
  let expired_keys :=
    map fst (List.filter (fun kv => expired self current_time (snd kv))
                         (map_to_list (_cache_timestamps self))) in
  {| _local_cache := pop_all expired_keys (_local_cache self);
     _cache_timestamps := pop_all expired_keys (_cache_timestamps self);
     cache_ttl := cache_ttl self;
     cache_hits := cache_hits self;
     cache_misses := cache_misses self;
     redis_errors := redis_errors self |}.

(** [datetime.isoformat] *)
Variable isoformat : datetime -> string.

(** [SessionState.to_dict]; [list(self.users)] lists the set in some
    order. *)
Definition to_dict (self : SessionState) : gmap string value :=
  list_to_map
    [("session_id", session_id self);
     ("content", VStr (content self));
     ("users", VList (elements (users self)));
     ("created_at", VStr (isoformat (created_at self)));
     ("last_activity", VStr (isoformat (last_activity self)));
     ("version", version self);
     ("operation_count", operation_count self);
     ("content_checksum", VStr (content_checksum self));
     ("metadata", metadata self)].

End Cache.

End SessionCache.

(* ===================================================================== *)
(** * Facts about strings *)
(* ===================================================================== *)

Module TextFacts.
Import Text.

Lemma is_empty_true s : is_empty s = true <-> s = EmptyString.
Proof. destruct s; simpl; split; congruence. Qed.

Lemma is_empty_false s : is_empty s = false <-> s <> EmptyString.
Proof. destruct s; simpl; split; congruence. Qed.

Lemma app_nil (b : string) : EmptyString +:+ b = b.
Proof. reflexivity. Qed.

Lemma app_cons c (a b : string) : String c a +:+ b = String c (a +:+ b).
Proof. reflexivity. Qed.

Ltac str_simpl := repeat (rewrite ?app_nil, ?app_cons; simpl).

Lemma length_app (a b : string) :
  String.length (a +:+ b) = (String.length a + String.length b)%nat.
Proof. induction a as [|c a IH]; str_simpl; [reflexivity | now rewrite IH]. Qed.

Lemma app_empty_r (a : string) : a +:+ EmptyString = a.
Proof. induction a as [|c a IH]; str_simpl; [reflexivity | now rewrite IH]. Qed.

Lemma app_assoc (a b c : string) : (a +:+ b) +:+ c = a +:+ (b +:+ c).
Proof. induction a as [|x a IH]; str_simpl; [reflexivity | now rewrite IH]. Qed.

Lemma str_take_drop n s : str_take n s +:+ str_drop n s = s.
Proof.
  revert s; induction n as [|n IH]; intros [|c s]; str_simpl; try reflexivity.
  now rewrite IH.
Qed.

Lemma str_take_0 s : str_take 0 s = EmptyString.
Proof. now destruct s. Qed.

Lemma str_drop_0 s : str_drop 0 s = s.
Proof. now destruct s. Qed.

Lemma str_take_all n s : (String.length s <= n)%nat -> str_take n s = s.
Proof.
  revert s; induction n as [|n IH]; intros [|c s] H; str_simpl; simpl in *;
    try reflexivity; try lia.
  rewrite IH by lia. reflexivity.
Qed.

Lemma str_drop_all n s :
  (String.length s <= n)%nat -> str_drop n s = EmptyString.
Proof.
  revert s; induction n as [|n IH]; intros [|c s] H; str_simpl; simpl in *;
    try reflexivity; try lia.
  apply IH; lia.
Qed.

Lemma length_str_take n s :
  String.length (str_take n s) = Nat.min n (String.length s).
Proof.
  revert s; induction n as [|n IH]; intros [|c s]; str_simpl; try reflexivity.
  now rewrite IH.
Qed.

Lemma length_str_drop n s :
  String.length (str_drop n s) = (String.length s - n)%nat.
Proof.
  revert s; induction n as [|n IH]; intros [|c s]; str_simpl; try reflexivity.
  now rewrite IH.
Qed.

Lemma str_take_app_length a b : str_take (String.length a) (a +:+ b) = a.
Proof. induction a as [|c a IH]; str_simpl; [reflexivity | now rewrite IH]. Qed.

Lemma str_drop_app_length a b : str_drop (String.length a) (a +:+ b) = b.
Proof. induction a as [|c a IH]; str_simpl; [apply str_drop_0 | exact IH]. Qed.

Lemma str_take_app_le n a b :
  (n <= String.length a)%nat -> str_take n (a +:+ b) = str_take n a.
Proof.
  revert a; induction n as [|n IH]; intros a H.
  - now rewrite !str_take_0.
  - destruct a as [|c a]; simpl in H; [lia|].
    str_simpl. rewrite IH by lia. reflexivity.
Qed.

Lemma str_drop_app_le n a b :
  (n <= String.length a)%nat -> str_drop n (a +:+ b) = str_drop n a +:+ b.
Proof.
  revert a; induction n as [|n IH]; intros a H.
  - now rewrite !str_drop_0.
  - destruct a as [|c a]; simpl in H; [lia|].
    str_simpl. apply IH; lia.
Qed.

Lemma str_drop_drop n m s : str_drop n (str_drop m s) = str_drop (m + n) s.
Proof.
  revert s; induction m as [|m IH]; intros s.
  - now rewrite str_drop_0.
  - destruct s as [|c s]; simpl; [now destruct n | apply IH].
Qed.

Lemma str_take_take n m s :
  (n <= m)%nat -> str_take n (str_take m s) = str_take n s.
Proof.
  revert m s; induction n as [|n IH]; intros m s H.
  - now rewrite !str_take_0.
  - destruct m as [|m]; [lia|]. destruct s as [|c s]; simpl; [reflexivity|].
    rewrite IH by lia. reflexivity.
Qed.

(** The slices at a position inside the text. *)
Lemma slice_bound_in_range n i : 0 <= i <= n -> slice_bound n i = i.
Proof.
  intros H. unfold slice_bound.
  destruct (i <? 0) eqn:E; [apply Z.ltb_lt in E; lia | lia].
Qed.

Lemma slice_in_range s (lo hi : nat) :
  (lo <= hi <= String.length s)%nat ->
  slice s (Z.of_nat lo) (Z.of_nat hi) = str_take (hi - lo) (str_drop lo s).
Proof.
  intros H. unfold slice, len.
  rewrite !slice_bound_in_range by lia.
  rewrite Nat2Z.id. f_equal. lia.
Qed.

Lemma slice_to_in_range s (p : nat) :
  (p <= String.length s)%nat -> slice_to s (Z.of_nat p) = str_take p s.
Proof.
  intros H. unfold slice_to. change 0 with (Z.of_nat 0).
  rewrite slice_in_range by lia. rewrite str_drop_0. f_equal. lia.
Qed.

Lemma slice_from_in_range s (p : nat) :
  (p <= String.length s)%nat -> slice_from s (Z.of_nat p) = str_drop p s.
Proof.
  intros H. unfold slice_from, len.
  rewrite slice_in_range by lia.
  apply str_take_all. rewrite length_str_drop. lia.
Qed.

End TextFacts.

(* ===================================================================== *)
(** * Vector clock comparison *)
(* ===================================================================== *)

Module VectorClockFacts.
Import VectorClock.

Lemma compare_step_spec self other a b c :
  compare_step self other (a, b) c =
  (a || (get other c <? get self c), b || (get self c <? get other c)).
Proof.
  unfold compare_step. rewrite Z.gtb_ltb.
  destruct (get self c <? get other c) eqn:E1.
  - apply Z.ltb_lt in E1.
    assert ((get other c <? get self c) = false) as -> by (apply Z.ltb_ge; lia).
    now rewrite orb_false_r, orb_true_r.
  - destruct (get other c <? get self c);
      now rewrite ?orb_false_r, ?orb_true_r.
Qed.

Lemma compare_flags_fold self other l a b :
  foldl (compare_step self other) (a, b) l =
  (a || existsb (fun c => get other c <? get self c) l,
   b || existsb (fun c => get self c <? get other c) l).
Proof.
  revert a b; induction l as [|c l IH]; intros a b.
  - simpl. now rewrite !orb_false_r.
  - change (foldl (compare_step self other) (a, b) (c :: l))
      with (foldl (compare_step self other) (compare_step self other (a, b) c) l).
    rewrite compare_step_spec, IH. simpl. now rewrite !orb_assoc.
Qed.

Lemma get_outside self other c :
  c ∉ elements (dom (clocks self) ∪ dom (clocks other)) ->
  get self c = 0 /\ get other c = 0.
Proof.
  intros H. rewrite elem_of_elements, elem_of_union, !elem_of_dom in H.
  unfold get.
  destruct (clocks self !! c) eqn:E1; [exfalso; apply H; left; eauto|].
  destruct (clocks other !! c) eqn:E2; [exfalso; apply H; right; eauto|].
  split; reflexivity.
Qed.

(** [self_less] is raised exactly when some component of [self] is
    greater, [other_less] exactly when some component of [other] is. *)
Lemma compare_flags_spec self other :
  (fst (compare_flags self other) = true <-> exists c, get other c < get self c)
  /\ (snd (compare_flags self other) = true <-> exists c, get self c < get other c).
Proof.
  unfold compare_flags. rewrite compare_flags_fold. simpl.
  split; rewrite existsb_exists; split.
  - intros (c & _ & Hc). exists c. now apply Z.ltb_lt.
  - intros (c & Hc). exists c. split; [|now apply Z.ltb_lt].
    apply list_elem_of_In.
    destruct (decide (c ∈ elements (dom (clocks self) ∪ dom (clocks other))))
      as [Hin|Hout]; [exact Hin|].
    destruct (get_outside _ _ _ Hout) as [H1 H2]. lia.
  - intros (c & _ & Hc). exists c. now apply Z.ltb_lt.
  - intros (c & Hc). exists c. split; [|now apply Z.ltb_lt].
    apply list_elem_of_In.
    destruct (decide (c ∈ elements (dom (clocks self) ∪ dom (clocks other))))
      as [Hin|Hout]; [exact Hin|].
    destruct (get_outside _ _ _ Hout) as [H1 H2]. lia.
Qed.

Lemma compare_cases self other :
  compare self other =
  match compare_flags self other with
  | (true, true) => "concurrent"
  | (true, false) => "before"
  | (false, true) => "after"
  | (false, false) => "equal"
  end.
Proof.
  unfold compare. destruct (compare_flags self other) as [[|] [|]]; reflexivity.
Qed.

Lemma compare_before_iff self other :
  compare self other = "before" <->
  (forall c, get other c <= get self c) /\ (exists c, get other c < get self c).
Proof.
  rewrite compare_cases.
  destruct (compare_flags_spec self other) as [Hs Ho].
  destruct (compare_flags self other) as [sl ol]; simpl in *.
  split.
  - intros H. destruct sl, ol; try discriminate.
    split; [|now apply Hs].
    intros c. destruct (Z_lt_le_dec (get self c) (get other c)) as [Hlt|]; [|lia].
    assert (false = true) by (apply Ho; eauto). discriminate.
  - intros [Hall Hex].
    assert (sl = true) as -> by (now apply Hs).
    destruct ol; [|reflexivity].
    destruct Ho as [Ho _]. destruct (Ho eq_refl) as [c Hc].
    specialize (Hall c). lia.
Qed.

Lemma compare_after_iff self other :
  compare self other = "after" <->
  (forall c, get self c <= get other c) /\ (exists c, get self c < get other c).
Proof.
  rewrite compare_cases.
  destruct (compare_flags_spec self other) as [Hs Ho].
  destruct (compare_flags self other) as [sl ol]; simpl in *.
  split.
  - intros H. destruct sl, ol; try discriminate.
    split; [|now apply Ho].
    intros c. destruct (Z_lt_le_dec (get other c) (get self c)) as [Hlt|]; [|lia].
    assert (false = true) by (apply Hs; eauto). discriminate.
  - intros [Hall Hex].
    assert (ol = true) as -> by (now apply Ho).
    destruct sl; [|reflexivity].
    destruct Hs as [Hs _]. destruct (Hs eq_refl) as [c Hc].
    specialize (Hall c). lia.
Qed.

Lemma get_increment vc c c' :
  get (increment vc c) c' = if decide (c = c') then get vc c + 1 else get vc c'.
Proof.
  unfold get at 1, increment; simpl. rewrite lookup_insert.
  destruct (decide (c = c')); reflexivity.
Qed.

(** C2 (the code departs from the claim). [compare] returns ['before']
    exactly when every component of [self] is at least the corresponding
    component of [other] and one is strictly greater, the mirror image of
    the order the claim states; and the clock obtained by [increment]
    compares as ['before'], never as ['after'], against the clock it was
    obtained from. *)
Theorem compare_before_is_dominance :
  (forall self other,
      compare self other = "before" <->
      (forall c, get other c <= get self c) /\ (exists c, get other c < get self c))
  /\ (forall vc c, compare (increment vc c) vc = "before")
  /\ compare (increment empty "a") empty <> "after".
Proof.
  split; [exact compare_before_iff|].
  assert (forall vc c, compare (increment vc c) vc = "before") as Hinc.
  { intros vc c. apply compare_before_iff. split.
    - intros c'. rewrite get_increment. destruct (decide (c = c')); subst; lia.
    - exists c. rewrite get_increment. destruct (decide (c = c)); [lia|congruence]. }
  split; [exact Hinc|].
  rewrite Hinc. discriminate.
Qed.

End VectorClockFacts.

(* ===================================================================== *)
(** * Stand-ins for running the definitions *)
(* ===================================================================== *)

(** A digest and a float printer to evaluate the definitions on concrete
    inputs. The theorems hold for every [Hashlib]. *)
Definition example_hashlib : Hashlib :=
  {| sha256_hex := fun s => "#" +:+ s;
     md5_hex := fun s => "%" +:+ s;
     str_of_float := fun q =>
       Text.str_of_Z (Qnum q) +:+ "/" +:+ Text.str_of_Z (Zpos (Qden q));
     str_of_sorted_items := fun _ => "[]" |}.

(* ===================================================================== *)
(** * Construction of operations *)
(* ===================================================================== *)

(** The invariants of an operation as the specification lists them. *)
Definition section3_invariants (type : OperationType) (text : string)
    (length : Z) : Prop :=
  match type with
  | INSERT => text <> "" /\ length = 0
  | DELETE => text = "" /\ length > 0
  | RETAIN => text = "" /\ length = 0
  end.

Section EngineFacts.

Context {hashlib : Hashlib}.

Lemma OperationType_eqb_eq a b : OperationType_eqb a b = true <-> a = b.
Proof. destruct a, b; simpl; split; congruence. Qed.

(** The guards of [__post_init__]. *)
Definition passes_guards (self : Operation) : Prop :=
  ~ (op_type self = INSERT /\ op_text self = "")
  /\ ~ (op_type self = DELETE /\ op_length self <= 0).

Lemma post_init_ok_iff self :
  is_ok (__post_init__ self) = true <-> passes_guards self.
Proof.
  unfold __post_init__, passes_guards.
  destruct (OperationType_eqb (op_type self) INSERT && Text.is_empty (op_text self))
    eqn:E1.
  - apply andb_true_iff in E1 as [Ht Hx].
    apply OperationType_eqb_eq in Ht. apply TextFacts.is_empty_true in Hx.
    simpl. split; [discriminate | intros [H _]; exfalso; apply H; auto].
  - destruct (OperationType_eqb (op_type self) DELETE && (op_length self <=? 0))
      eqn:E2.
    + apply andb_true_iff in E2 as [Ht Hl].
      apply OperationType_eqb_eq in Ht. apply Z.leb_le in Hl.
      simpl. split; [discriminate | intros [_ H]; exfalso; apply H; auto].
    + simpl. split; [intros _ | reflexivity].
      apply andb_false_iff in E1. apply andb_false_iff in E2.
      split; intros [Ht Hx].
      * destruct E1 as [E|E].
        -- rewrite Ht in E. discriminate.
        -- apply TextFacts.is_empty_false in E. contradiction.
      * destruct E2 as [E|E].
        -- rewrite Ht in E. discriminate.
        -- apply Z.leb_gt in E. lia.
Qed.

(** What a successful construction returns. *)
Lemma post_init_value self op :
  __post_init__ self = Ok op ->
  op_type op = op_type self /\ op_position op = op_position self
  /\ op_text op = op_text self /\ op_length op = op_length self
  /\ op_client_id op = op_client_id self
  /\ op_vector_clock op = op_vector_clock self
  /\ op_timestamp op = op_timestamp self
  /\ op_operation_id op =
       (if Text.is_empty (op_operation_id self)
        then _generate_operation_id self else op_operation_id self)
  /\ op_checksum op =
       (if Text.is_empty (op_checksum self)
        then _generate_checksum self else op_checksum self).
Proof.
  unfold __post_init__.
  destruct (OperationType_eqb (op_type self) INSERT && Text.is_empty (op_text self));
    [discriminate|].
  destruct (OperationType_eqb (op_type self) DELETE && (op_length self <=? 0));
    [discriminate|].
  intros H. injection H as <-.
  destruct (Text.is_empty (op_operation_id self)); simpl;
    destruct (Text.is_empty (op_checksum self)); simpl;
    repeat split; reflexivity.
Qed.

Lemma checksum_depends_on_content (x y : Operation) :
  op_type x = op_type y -> op_position x = op_position y ->
  op_text x = op_text y -> op_length x = op_length y ->
  _generate_checksum x = _generate_checksum y.
Proof.
  intros H1 H2 H3 H4. unfold _generate_checksum.
  now rewrite H1, H2, H3, H4.
Qed.

Lemma verify_integrity_iff (op : Operation) :
  verify_integrity op = true <-> op_checksum op = _generate_checksum op.
Proof. unfold verify_integrity. apply String.eqb_eq. Qed.

(** An operation built without a checksum verifies. *)
Lemma post_init_verifies self op :
  __post_init__ self = Ok op -> op_checksum self = "" ->
  verify_integrity op = true.
Proof.
  intros H Hc. apply post_init_value in H.
  destruct H as (Ht & Hp & Hx & Hl & _ & _ & _ & _ & Hk).
  apply verify_integrity_iff. rewrite Hk, Hc. simpl.
  apply checksum_depends_on_content; congruence.
Qed.

(** C6 (amended). Construction succeeds exactly when the operation is
    neither an Insert with empty text nor a Delete with a length of zero
    or less; nothing else is checked. On success an absent id and an absent
    checksum are filled with the generated ones, a given id and a given
    checksum are kept, and an operation built without a checksum passes
    [verify_integrity]. *)
Theorem construction_checks_two_guards :
  forall type position text length client_id operation_id vector_clock
         timestamp checksum,
    let fields :=
      {| op_type := type; op_position := position; op_text := text;
         op_length := length; op_client_id := client_id;
         op_operation_id := operation_id; op_vector_clock := vector_clock;
         op_timestamp := timestamp; op_checksum := checksum |} in
    let built :=
      Operation_new type position text length client_id operation_id
                    vector_clock timestamp checksum in
    (is_ok built = true <->
       ~ (type = INSERT /\ text = "") /\ ~ (type = DELETE /\ length <= 0))
    /\ (forall op, built = Ok op ->
          op_operation_id op =
            (if Text.is_empty operation_id
             then _generate_operation_id fields else operation_id)
          /\ op_checksum op =
            (if Text.is_empty checksum
             then _generate_checksum fields else checksum)
          /\ (checksum = "" -> verify_integrity op = true)).
Proof.
  intros. split.
  - apply (post_init_ok_iff fields).
  - intros op H. pose proof (post_init_value fields op H) as Hv.
    destruct Hv as (_ & _ & _ & _ & _ & _ & _ & Hid & Hk).
    repeat split; [exact Hid | exact Hk |].
    intros ->. now apply (post_init_verifies fields).
Qed.

(** ** Applying a verified operation *)

(** The text [apply_operation] returns once the integrity check has
    passed, as a function of the four content fields. *)
Definition edit (text : string) (type : OperationType) (position : Z)
    (inserted : string) (length : Z) : string :=
  let text_len := Text.len text in
  match type with
  | INSERT =>
      let pos := Z.max 0 (Z.min position text_len) in
      Text.slice_to text pos +:+ inserted +:+ Text.slice_from text pos
  | DELETE =>
      let start_pos := Z.max 0 (Z.min position text_len) in
      let end_pos := Z.max start_pos (Z.min (position + length) text_len) in
      Text.slice_to text start_pos +:+ Text.slice_from text end_pos
  | RETAIN => text
  end.

Arguments edit : simpl never.

Lemma apply_operation_verified text op :
  verify_integrity op = true ->
  apply_operation text op =
  Ok (edit text (op_type op) (op_position op) (op_text op) (op_length op)).
Proof.
  intros H. unfold apply_operation, edit. rewrite H. simpl.
  destruct (op_type op); reflexivity.
Qed.

Lemma apply_operation_unverified text op :
  verify_integrity op = false ->
  apply_operation text op =
  Raise (ValueError ("Operation integrity check failed: " +:+ op_operation_id op)).
Proof. intros H. unfold apply_operation. now rewrite H. Qed.

(** [apply(apply(T, x), y)] *)
Definition apply_two (T : string) (x y : Operation) : Result string :=
  try! t <- apply_operation T x in apply_operation t y.

(** The operation a client authors: what the constructor returns when it
    is given neither an id nor a checksum. *)
Definition authored (type : OperationType) (position : Z) (text : string)
    (length : Z) (client_id : string) (vc : VectorClock.t) (ts : Q)
  : Operation :=
  let fields :=
    {| op_type := type; op_position := position; op_text := text;
       op_length := length; op_client_id := client_id;
       op_operation_id := ""; op_vector_clock := vc;
       op_timestamp := ts; op_checksum := "" |} in
  {| op_type := type; op_position := position; op_text := text;
     op_length := length; op_client_id := client_id;
     op_operation_id := _generate_operation_id fields;
     op_vector_clock := vc; op_timestamp := ts;
     op_checksum := _generate_checksum fields |}.

Lemma Operation_new_authored type position text length client_id vc ts :
  ~ (type = INSERT /\ text = "") -> ~ (type = DELETE /\ length <= 0) ->
  Operation_new type position text length client_id "" vc ts ""
  = Ok (authored type position text length client_id vc ts).
Proof.
  intros H1 H2. unfold Operation_new.
  set (fields := {| op_type := type; op_position := position; op_text := text;
       op_length := length; op_client_id := client_id;
       op_operation_id := ""; op_vector_clock := vc;
       op_timestamp := ts; op_checksum := "" |}).
  assert (is_ok (__post_init__ fields) = true) as Hok
    by (apply post_init_ok_iff; split; assumption).
  destruct (__post_init__ fields) as [op|e] eqn:E; [|discriminate].
  pose proof (post_init_value _ _ E) as Hv. simpl in Hv.
  destruct Hv as (? & ? & ? & ? & ? & ? & ? & ? & ?).
  destruct op; simpl in *; subst. reflexivity.
Qed.

Lemma verify_integrity_authored type position text length client_id vc ts :
  verify_integrity (authored type position text length client_id vc ts) = true.
Proof. apply verify_integrity_iff. reflexivity. Qed.

Lemma apply_operation_authored T type position text length client_id vc ts :
  apply_operation T (authored type position text length client_id vc ts)
  = Ok (edit T type position text length).
Proof.
  rewrite apply_operation_verified by apply verify_integrity_authored.
  reflexivity.
Qed.

(** The copies the transformation functions build. *)
Lemma moved_insert_ok op p :
  op_type op = INSERT -> op_text op <> "" ->
  exists op', moved_insert op p = Ok op'
    /\ op_type op' = INSERT /\ op_position op' = p
    /\ op_text op' = op_text op /\ op_length op' = 0
    /\ op_client_id op' = op_client_id op
    /\ verify_integrity op' = true.
Proof.
  intros Ht Hx. unfold moved_insert, Operation_new.
  match goal with |- context [__post_init__ ?f] => set (fields := f) end.
  assert (is_ok (__post_init__ fields) = true) as Hok.
  { apply post_init_ok_iff. split; simpl; intros [H1 H2].
    - contradiction.
    - rewrite Ht in H1. discriminate. }
  destruct (__post_init__ fields) as [op'|e] eqn:E; [|discriminate].
  exists op'. pose proof (post_init_verifies _ _ E eq_refl) as Hver.
  apply post_init_value in E. simpl in E.
  destruct E as (? & ? & ? & ? & ? & _).
  repeat split; congruence.
Qed.

Lemma moved_delete_ok type op p n :
  ~ (type = DELETE /\ n <= 0) -> type <> INSERT ->
  exists op', moved_delete type op p n = Ok op'
    /\ op_type op' = type /\ op_position op' = p
    /\ op_text op' = "" /\ op_length op' = n
    /\ op_client_id op' = op_client_id op
    /\ verify_integrity op' = true.
Proof.
  intros Hn Ht. unfold moved_delete, Operation_new.
  match goal with |- context [__post_init__ ?f] => set (fields := f) end.
  assert (is_ok (__post_init__ fields) = true) as Hok.
  { apply post_init_ok_iff. split; simpl; intros [H1 H2].
    - contradiction.
    - apply Hn. auto. }
  destruct (__post_init__ fields) as [op'|e] eqn:E; [|discriminate].
  exists op'. pose proof (post_init_verifies _ _ E eq_refl) as Hver.
  apply post_init_value in E. simpl in E.
  destruct E as (? & ? & ? & ? & ? & _).
  repeat split; congruence.
Qed.

(** ** When the pair is returned as it came *)

(** The range an operation affects: empty at its position for an Insert
    (and a Retain), [[position, position + length)] for a Delete. *)
Definition affected_range (op : Operation) : Z * Z :=
  (op_position op,
   op_position op
   + (if OperationType_eqb (op_type op) DELETE then op_length op else 0)).

(** Two ranges do not overlap when one ends at or before the start of
    the other. *)
Definition ranges_disjoint (a b : Operation) : Prop :=
  snd (affected_range a) <= fst (affected_range b)
  \/ snd (affected_range b) <= fst (affected_range a).

Lemma operations_conflict_false_of_disjoint a b :
  ranges_disjoint a b -> _operations_conflict a b = false.
Proof.
  unfold ranges_disjoint, affected_range, _operations_conflict. simpl.
  intros H.
  destruct (OperationType_eqb (op_type a) RETAIN
            || OperationType_eqb (op_type b) RETAIN); [reflexivity|].
  apply negb_false_iff, orb_true_iff.
  destruct H as [H|H]; [left | right]; now apply Z.leb_le.
Qed.

(** C5. When the two operations come from the same client, or their
    affected ranges do not overlap, [_transform_operation_pair] returns
    the pair as it came. *)
Theorem transform_pair_unchanged (a b : Operation) :
  op_client_id a = op_client_id b \/ ranges_disjoint a b ->
  _transform_operation_pair a b = Ok (a, b).
Proof.
  intros H. unfold _transform_operation_pair.
  destruct (String.eqb (op_client_id a) (op_client_id b)) eqn:E;
    [reflexivity|].
  destruct H as [H|H].
  - apply String.eqb_eq in H. congruence.
  - rewrite (operations_conflict_false_of_disjoint _ _ H). reflexivity.
Qed.

(** ** Pairs of inserts *)

Lemma inserts_never_conflict a b :
  op_type a = INSERT -> op_type b = INSERT -> _operations_conflict a b = false.
Proof.
  intros Ha Hb. apply operations_conflict_false_of_disjoint.
  unfold ranges_disjoint, affected_range. rewrite Ha, Hb. simpl. lia.
Qed.

Lemma insert_pair_unchanged a b :
  op_type a = INSERT -> op_type b = INSERT ->
  _transform_operation_pair a b = Ok (a, b).
Proof.
  intros Ha Hb. unfold _transform_operation_pair.
  rewrite (inserts_never_conflict _ _ Ha Hb). simpl.
  now rewrite orb_true_r.
Qed.

(** The clocks of two clients that have each made one edit. *)
Definition clock_of (client_id : string) : VectorClock.t :=
  VectorClock.increment VectorClock.empty client_id.

(** Scenario S2: the inserts of ["A"] by client ["a"] and of ["B"] by
    client ["b"], both at position 0. *)
Definition s2_a : Operation := authored INSERT 0 "A" 0 "a" (clock_of "a") 0.
Definition s2_b : Operation := authored INSERT 0 "B" 0 "b" (clock_of "b") 0.

Lemma apply_two_authored_inserts T p1 x1 c1 v1 t1 p2 x2 c2 v2 t2 :
  apply_two T (authored INSERT p1 x1 0 c1 v1 t1) (authored INSERT p2 x2 0 c2 v2 t2)
  = Ok (edit (edit T INSERT p1 x1 0) INSERT p2 x2 0).
Proof.
  unfold apply_two.
  rewrite apply_operation_verified by apply verify_integrity_authored.
  simpl bind.
  rewrite apply_operation_verified by apply verify_integrity_authored.
  reflexivity.
Qed.

(** C3 (the code departs from the claim). [_transform_operation_pair]
    returns every pair of Inserts as it came, whatever their positions and
    priorities: no Insert is shifted. In scenario S2 the constructor builds
    both operations, their clocks are concurrent, the pair comes back
    unchanged, and the replica that applies ["a"]'s insert first ends with
    ["BA"] while the other ends with ["AB"]. *)
Theorem insert_pairs_are_not_transformed :
  (forall a b, op_type a = INSERT -> op_type b = INSERT ->
               _transform_operation_pair a b = Ok (a, b))
  /\ Operation_new INSERT 0 "A" 0 "a" "" (clock_of "a") 0 "" = Ok s2_a
  /\ Operation_new INSERT 0 "B" 0 "b" "" (clock_of "b") 0 "" = Ok s2_b
  /\ VectorClock.compare (op_vector_clock s2_a) (op_vector_clock s2_b)
     = "concurrent"
  /\ _transform_operation_pair s2_a s2_b = Ok (s2_a, s2_b)
  /\ apply_two "" s2_a s2_b = Ok "BA"
  /\ apply_two "" s2_b s2_a = Ok "AB".
Proof.
  split; [exact insert_pair_unchanged|].
  split; [apply Operation_new_authored; intros [? ?]; discriminate|].
  split; [apply Operation_new_authored; intros [? ?]; discriminate|].
  split; [vm_compute; reflexivity|].
  split; [apply insert_pair_unchanged; reflexivity|].
  unfold s2_a, s2_b. rewrite !apply_two_authored_inserts.
  split; vm_compute; reflexivity.
Qed.

(** ** Convergence of a transformed pair (TP1) *)

Definition concurrent (a b : Operation) : Prop :=
  op_client_id a <> op_client_id b
  /\ VectorClock.compare (op_vector_clock a) (op_vector_clock b) = "concurrent".

(** An operation is applicable to a text when it passes the integrity
    check and its range lies inside the text. *)
Definition applicable (T : string) (op : Operation) : Prop :=
  verify_integrity op = true
  /\ 0 <= fst (affected_range op)
  /\ snd (affected_range op) <= Text.len T.

(** [apply(apply(T, a), b') == apply(apply(T, b), a')] for
    [(a', b') = _transform_operation_pair(a, b)]. *)
Definition tp1 (T : string) (a b : Operation) : Prop :=
  exists a' b' r,
    _transform_operation_pair a b = Ok (a', b')
    /\ apply_two T a b' = Ok r /\ apply_two T b a' = Ok r.

Lemma pair_insert_inside_delete i d :
  op_type i = INSERT -> op_text i <> "" -> op_type d = DELETE ->
  op_client_id i <> op_client_id d ->
  op_position d < op_position i < op_position d + op_length d ->
  exists i' d',
    _transform_operation_pair i d = Ok (i', d')
    /\ op_type i' = INSERT /\ op_position i' = op_position d
    /\ op_text i' = op_text i /\ op_length i' = 0
    /\ verify_integrity i' = true
    /\ op_type d' = DELETE
    /\ op_position d' = op_position d + Text.len (op_text i)
    /\ op_text d' = "" /\ op_length d' = op_length d
    /\ verify_integrity d' = true.
Proof.
  intros Hi Hx Hd Hc Hr.
  destruct (moved_insert_ok i (op_position d) Hi Hx)
    as (i' & Ei & ? & ? & ? & ? & ? & ?).
  destruct (moved_delete_ok DELETE d
              (op_position d + Text.len (op_text i)) (op_length d))
    as (d' & Ed & ? & ? & ? & ? & ? & ?); [lia | discriminate |].
  exists i', d'. split; [|repeat split; assumption].
  unfold _transform_operation_pair.
  apply String.eqb_neq in Hc. rewrite Hc.
  assert (_operations_conflict i d = true) as ->.
  { unfold _operations_conflict. rewrite Hi, Hd. simpl.
    apply negb_true_iff, orb_false_iff. split; apply Z.leb_gt; lia. }
  simpl. rewrite Hi, Hd. unfold _transform_insert_delete.
  assert ((op_position i <=? op_position d) = false) as ->
    by (apply Z.leb_gt; lia).
  assert ((op_position i >=? op_position d + op_length d) = false) as ->
    by (rewrite Z.geb_leb; apply Z.leb_gt; lia).
  rewrite Hd in *. rewrite Ei. simpl. rewrite Ed. reflexivity.
Qed.

(** Scenario S4: client ["X"] inserts ["xx"] at 2 and client ["Y"]
    deletes [[1,4)], both against ["HELLO"]. *)
Definition s4_x : Operation := authored INSERT 2 "xx" 0 "X" (clock_of "X") 0.
Definition s4_y : Operation := authored DELETE 1 "" 3 "Y" (clock_of "Y") 0.

(** C1 (the code departs from the claim). Two concurrent operations of
    distinct clients, both applicable to the text, on which the two orders
    of application end in different texts: the inserts of scenario S2 on
    the empty text (["BA"] against ["AB"]: the pair is not transformed at
    all), and the insert inside a delete of scenario S4 on ["HELLO"]
    (["HExO"] against ["HxxO"]: the shifted delete removes part of the
    inserted text). *)
Theorem transformed_pair_does_not_converge :
  (concurrent s2_a s2_b /\ applicable "" s2_a /\ applicable "" s2_b
   /\ ~ tp1 "" s2_a s2_b)
  /\ (concurrent s4_x s4_y /\ applicable "HELLO" s4_x
      /\ applicable "HELLO" s4_y /\ ~ tp1 "HELLO" s4_x s4_y
      /\ exists x' y', _transform_operation_pair s4_x s4_y = Ok (x', y')
           /\ apply_two "HELLO" s4_x y' = Ok "HExO"
           /\ apply_two "HELLO" s4_y x' = Ok "HxxO").
Proof.
  split.
  - split; [split; [discriminate | vm_compute; reflexivity]|].
    split; [split; [apply verify_integrity_authored | vm_compute; split; discriminate]|].
    split; [split; [apply verify_integrity_authored | vm_compute; split; discriminate]|].
    intros (a' & b' & r & Hp & H1 & H2).
    rewrite insert_pair_unchanged in Hp by reflexivity.
    injection Hp as <- <-.
    unfold s2_a, s2_b in H1, H2. rewrite apply_two_authored_inserts in H1, H2.
    vm_compute in H1, H2. congruence.
  - split; [split; [discriminate | vm_compute; reflexivity]|].
    split; [split; [apply verify_integrity_authored | vm_compute; split; discriminate]|].
    split; [split; [apply verify_integrity_authored | vm_compute; split; discriminate]|].
    destruct (pair_insert_inside_delete s4_x s4_y)
      as (x' & y' & Hp & Hx1 & Hx2 & Hx3 & Hx4 & Hx5 & Hy1 & Hy2 & Hy3 & Hy4 & Hy5);
      [reflexivity | discriminate | reflexivity | discriminate
       | simpl; lia |].
    assert (apply_two "HELLO" s4_x y' = Ok "HExO") as E1.
    { unfold apply_two.
      rewrite apply_operation_verified by apply verify_integrity_authored.
      simpl bind. rewrite apply_operation_verified by assumption.
      rewrite Hy1, Hy2, Hy3, Hy4. vm_compute. reflexivity. }
    assert (apply_two "HELLO" s4_y x' = Ok "HxxO") as E2.
    { unfold apply_two.
      rewrite apply_operation_verified by apply verify_integrity_authored.
      simpl bind. rewrite apply_operation_verified by assumption.
      rewrite Hx1, Hx2, Hx3, Hx4. vm_compute. reflexivity. }
    split.
    + intros (a' & b' & r & Hp' & H1 & H2).
      rewrite Hp in Hp'. injection Hp' as <- <-. congruence.
    + exists x', y'. auto.
Qed.

(** ** The order of a batch *)

(** [sorted] is a stable sort by [sort_key]: it permutes its argument, no
    operation is followed by one with a strictly smaller key, and
    operations with the same key keep their order (by construction of
    [sorted_insert]). *)
Lemma sorted_insert_perm op l : sorted_insert op l ≡ₚ op :: l.
Proof.
  induction l as [|y ys IH]; simpl; [reflexivity|].
  destruct (key_lt (sort_key y) (sort_key op)); [|reflexivity].
  rewrite IH. apply perm_swap.
Qed.

Lemma sorted_perm l : sorted l ≡ₚ l.
Proof.
  induction l as [|op l IH]; simpl; [reflexivity|].
  rewrite sorted_insert_perm. now rewrite IH.
Qed.

Lemma key_lt_asym a b : key_lt a b = true -> key_lt b a = false.
Proof.
  unfold key_lt. rewrite <- (Qcompare_antisym (fst a) (fst b)).
  destruct (Qcompare (fst a) (fst b)); simpl; try discriminate;
    try reflexivity.
  unfold String.ltb. rewrite (String.compare_antisym (snd b) (snd a)).
  destruct (String.compare (snd a) (snd b)); simpl; congruence.
Qed.

Fixpoint ordered (l : list Operation) : Prop :=
  match l with
  | x :: (y :: _) as rest =>
      key_lt (sort_key y) (sort_key x) = false /\ ordered rest
  | _ => True
  end.

Lemma ordered_sorted_insert op l : ordered l -> ordered (sorted_insert op l).
Proof.
  induction l as [|y ys IH]; intros H; simpl; [exact I|].
  destruct (key_lt (sort_key y) (sort_key op)) eqn:E.
  - destruct ys as [|z zs].
    + simpl. split; [now apply key_lt_asym | exact I].
    + destruct H as [Hzy Hrest]. specialize (IH Hrest). simpl in IH |- *.
      destruct (key_lt (sort_key z) (sort_key op)) eqn:E2.
      * split; [exact Hzy | exact IH].
      * split; [now apply key_lt_asym | exact IH].
  - split; [exact E | exact H].
Qed.

Lemma sorted_ordered l : ordered (sorted l).
Proof.
  induction l as [|op l IH]; simpl; [exact I|].
  now apply ordered_sorted_insert.
Qed.

Lemma key_lt_same_time (a b : Operation) :
  op_timestamp a == op_timestamp b ->
  key_lt (sort_key a) (sort_key b)
  = String.ltb (value (op_type a)) (value (op_type b)).
Proof.
  intros H. unfold key_lt, sort_key. simpl.
  apply Qeq_alt in H. now rewrite H.
Qed.

(** C4 (the code departs from the claim). Among operations with the same
    timestamp the sort key compares the names ["delete"], ["insert"] and
    ["retain"] as strings, so a batch given as Retain, Insert, Delete is
    applied as Delete, Insert, Retain: the reverse of the priority
    Retain < Insert < Delete. *)
Theorem batch_sort_is_alphabetical (r i d : Operation) :
  op_type r = RETAIN -> op_type i = INSERT -> op_type d = DELETE ->
  op_timestamp r == op_timestamp i -> op_timestamp i == op_timestamp d ->
  sorted [r; i; d] = [d; i; r].
Proof.
  intros Hr Hi Hd Eri Eid.
  assert (op_timestamp d == op_timestamp i) as Edi by (symmetry; exact Eid).
  assert (op_timestamp d == op_timestamp r) as Edr
    by (rewrite Edi; symmetry; exact Eri).
  assert (op_timestamp i == op_timestamp r) as Eir by (symmetry; exact Eri).
  simpl.
  rewrite (key_lt_same_time d i Edi), Hd, Hi. simpl.
  rewrite (key_lt_same_time d r Edr), Hd, Hr. simpl.
  rewrite (key_lt_same_time i r Eir), Hi, Hr. reflexivity.
Qed.

(** ** From a pair of texts to operations *)

(** The length of the longest common prefix of two strings. *)
Fixpoint lcp_len (a b : string) : nat :=
  match a, b with
  | String x a', String y b' =>
      if Ascii.eqb x y then S (lcp_len a' b') else O
  | _, _ => O
  end.

(** Applying operations one after the other. *)
Fixpoint apply_in_order (text : string) (ops : list Operation)
  : Result string :=
  match ops with
  | [] => Ok text
  | op :: rest =>
      try! text' <- apply_operation text op in apply_in_order text' rest
  end.

Definition is_delete_at (p : Z) (op : Operation) : Prop :=
  op_type op = DELETE /\ op_position op = p.

Definition is_insert_at (p : Z) (op : Operation) : Prop :=
  op_type op = INSERT /\ op_position op = p.

(** At most one Delete followed by at most one Insert, both at [p]. *)
Definition delete_then_insert_at (p : Z) (ops : list Operation) : Prop :=
  match ops with
  | [] => True
  | [op] => is_delete_at p op \/ is_insert_at p op
  | [d; i] => is_delete_at p d /\ is_insert_at p i
  | _ => False
  end.

Lemma same_char_true a b i j :
  same_char a b i j = true <->
  exists c, String.get i a = Some c /\ String.get j b = Some c.
Proof.
  unfold same_char.
  destruct (String.get i a) as [x|], (String.get j b) as [y|]; split;
    try discriminate; try (intros (c & H1 & H2); discriminate).
  - intros H. apply Ascii.eqb_eq in H. subst. eauto.
  - intros (c & H1 & H2). apply Ascii.eqb_eq. congruence.
Qed.

Lemma same_char_cons x a y b i j :
  same_char (String x a) (String y b) (S i) (S j) = same_char a b i j.
Proof. reflexivity. Qed.

Lemma get_in_range (a : string) (i : nat) :
  (i < String.length a)%nat -> exists c, String.get i a = Some c.
Proof.
  revert i; induction a as [|x a IH]; intros i H; simpl in H; [lia|].
  destruct i as [|i]; simpl; [eauto | apply IH; lia].
Qed.

Lemma get_some_lt (a : string) (i : nat) c :
  String.get i a = Some c -> (i < String.length a)%nat.
Proof.
  revert i; induction a as [|x a IH]; intros i H; simpl in *; [discriminate|].
  destruct i as [|i]; [lia|]. apply IH in H. lia.
Qed.

(** The prefix loop stops at the first index where the texts differ. *)
Lemma prefix_loop_spec fuel old_text new_text min_len k :
  (k <= min_len)%nat -> (min_len - k <= fuel)%nat ->
  (forall i, (i < k)%nat -> same_char old_text new_text i i = true) ->
  let p := prefix_loop fuel old_text new_text min_len k in
  (k <= p <= min_len)%nat
  /\ (forall i, (i < p)%nat -> same_char old_text new_text i i = true)
  /\ (p = min_len \/ same_char old_text new_text p p = false).
Proof.
  revert k; induction fuel as [|fuel IH]; intros k Hk Hf Hpre; simpl.
  - assert (k = min_len) by lia. subst. repeat split; auto.
  - destruct (k <? min_len)%nat eqn:E; simpl.
    + apply Nat.ltb_lt in E.
      destruct (same_char old_text new_text k k) eqn:Ec.
      * destruct (IH (S k)) as (H1 & H2 & H3); [lia | lia | |].
        { intros i Hi. destruct (Nat.eq_dec i k); [subst; exact Ec|].
          apply Hpre. lia. }
        repeat split; [lia | lia | exact H2 | exact H3].
      * repeat split; [lia | lia | exact Hpre | right; exact Ec].
    + apply Nat.ltb_ge in E. repeat split; [lia | lia | exact Hpre | left; lia].
Qed.

Lemma lcp_len_unique a b n :
  (n <= Nat.min (String.length a) (String.length b))%nat ->
  (forall i, (i < n)%nat -> same_char a b i i = true) ->
  (n = Nat.min (String.length a) (String.length b)
   \/ same_char a b n n = false) ->
  n = lcp_len a b.
Proof.
  revert b n; induction a as [|x a IH]; intros b n Hn Hall Hmax.
  - simpl in Hn. destruct b; simpl; lia.
  - destruct b as [|y b]; [simpl in Hn; simpl; lia|].
    simpl in Hn. simpl lcp_len.
    destruct n as [|n].
    + destruct Hmax as [Hmax|Hmax]; [simpl in Hmax; lia|].
      unfold same_char in Hmax. simpl in Hmax. now rewrite Hmax.
    + pose proof (Hall 0%nat ltac:(lia)) as H0.
      unfold same_char in H0. simpl in H0. rewrite H0. f_equal.
      apply IH.
      * lia.
      * intros i Hi. rewrite <- same_char_cons with (x := x) (y := y).
        apply Hall. lia.
      * destruct Hmax as [Hmax|Hmax].
        -- left. simpl in Hmax. lia.
        -- right. rewrite same_char_cons in Hmax. exact Hmax.
Qed.

Lemma prefix_loop_is_lcp old_text new_text :
  let min_len := Nat.min (String.length old_text) (String.length new_text) in
  prefix_loop min_len old_text new_text min_len 0 = lcp_len old_text new_text.
Proof.
  intros min_len.
  destruct (prefix_loop_spec min_len old_text new_text min_len 0)
    as (H1 & H2 & H3); [lia | lia | intros i Hi; lia |].
  apply lcp_len_unique; [lia | exact H2 | exact H3].
Qed.

(** The suffix loop counts equal characters from the two ends, without
    reaching back into the common prefix. *)
Lemma suffix_loop_spec fuel old_text new_text min_len prefix_len lo ln k :
  (k <= min_len - prefix_len)%nat ->
  (forall j, (j < k)%nat ->
             same_char old_text new_text (lo - 1 - j) (ln - 1 - j) = true) ->
  let s := suffix_loop fuel old_text new_text min_len prefix_len lo ln k in
  (k <= s <= min_len - prefix_len)%nat
  /\ (forall j, (j < s)%nat ->
                same_char old_text new_text (lo - 1 - j) (ln - 1 - j) = true).
Proof.
  revert k; induction fuel as [|fuel IH]; intros k Hk Hpre; simpl.
  - split; [lia | exact Hpre].
  - destruct (k <? min_len - prefix_len)%nat eqn:E; simpl.
    + apply Nat.ltb_lt in E.
      destruct (same_char old_text new_text (lo - 1 - k) (ln - 1 - k)) eqn:Ec.
      * destruct (IH (S k)) as (H1 & H2); [lia | |].
        { intros j Hj. destruct (Nat.eq_dec j k); [subst; exact Ec|].
          apply Hpre. lia. }
        split; [lia | exact H2].
      * split; [lia | exact Hpre].
    + split; [apply Nat.ltb_ge in E; lia | exact Hpre].
Qed.

Lemma take_eq_of_same_char a b n :
  (forall i, (i < n)%nat -> same_char a b i i = true) ->
  Text.str_take n a = Text.str_take n b.
Proof.
  revert a b; induction n as [|n IH]; intros a b H.
  - now rewrite !TextFacts.str_take_0.
  - pose proof (H 0%nat ltac:(lia)) as H0.
    apply same_char_true in H0 as (c & Ha & Hb).
    destruct a as [|x a]; [discriminate|]. destruct b as [|y b]; [discriminate|].
    simpl in Ha, Hb. injection Ha as ->. injection Hb as ->.
    simpl. f_equal. apply IH. intros i Hi.
    rewrite <- same_char_cons with (x := c) (y := c). apply H. lia.
Qed.

Lemma str_drop_get n a c :
  String.get n a = Some c ->
  Text.str_drop n a = String c (Text.str_drop (S n) a).
Proof.
  revert a; induction n as [|n IH]; intros a H.
  - destruct a as [|x a]; simpl in *; [discriminate|].
    injection H as ->. reflexivity.
  - destruct a as [|x a]; simpl in *; [discriminate|]. now apply IH.
Qed.

Lemma drop_eq_of_same_char a b s :
  (s <= String.length a)%nat -> (s <= String.length b)%nat ->
  (forall j, (j < s)%nat ->
     same_char a b (String.length a - 1 - j) (String.length b - 1 - j) = true) ->
  Text.str_drop (String.length a - s) a = Text.str_drop (String.length b - s) b.
Proof.
  induction s as [|s IH]; intros Ha Hb H.
  - rewrite !Nat.sub_0_r. rewrite !TextFacts.str_drop_all by lia. reflexivity.
  - pose proof (H s ltac:(lia)) as Hs.
    apply same_char_true in Hs as (c & Hca & Hcb).
    replace (String.length a - S s)%nat with (String.length a - 1 - s)%nat by lia.
    replace (String.length b - S s)%nat with (String.length b - 1 - s)%nat by lia.
    rewrite (str_drop_get _ _ _ Hca), (str_drop_get _ _ _ Hcb).
    replace (S (String.length a - 1 - s)) with (String.length a - s)%nat by lia.
    replace (S (String.length b - 1 - s)) with (String.length b - s)%nat by lia.
    f_equal. apply IH; [lia | lia |]. intros j Hj. apply H. lia.
Qed.

Lemma edit_delete_in_range T (p n : nat) x :
  (p + n <= String.length T)%nat ->
  edit T DELETE (Z.of_nat p) x (Z.of_nat n)
  = Text.str_take p T +:+ Text.str_drop (p + n) T.
Proof.
  intros H. unfold edit, Text.len.
  rewrite (Z.min_l (Z.of_nat p)) by lia.
  rewrite (Z.max_r 0) by lia.
  rewrite (Z.min_l (Z.of_nat p + Z.of_nat n)) by lia.
  rewrite Z.max_r by lia.
  rewrite <- Nat2Z.inj_add.
  rewrite TextFacts.slice_to_in_range, TextFacts.slice_from_in_range by lia.
  reflexivity.
Qed.

Lemma edit_insert_in_range T (p : nat) x n :
  (p <= String.length T)%nat ->
  edit T INSERT (Z.of_nat p) x n
  = Text.str_take p T +:+ x +:+ Text.str_drop p T.
Proof.
  intros H. unfold edit, Text.len.
  rewrite (Z.min_l (Z.of_nat p)) by lia.
  rewrite (Z.max_r 0) by lia.
  rewrite TextFacts.slice_to_in_range, TextFacts.slice_from_in_range by lia.
  reflexivity.
Qed.

Lemma is_empty_length s : Text.is_empty s = (String.length s =? 0)%nat.
Proof. destruct s; reflexivity. Qed.

Lemma split_three (T : string) (p q : nat) :
  (p <= q)%nat ->
  T = Text.str_take p T
      +:+ Text.str_take (q - p) (Text.str_drop p T) +:+ Text.str_drop q T.
Proof.
  intros H.
  rewrite <- (TextFacts.str_take_drop p T) at 1. f_equal.
  rewrite <- (TextFacts.str_take_drop (q - p) (Text.str_drop p T)) at 1. f_equal.
  rewrite TextFacts.str_drop_drop. f_equal. lia.
Qed.

(** The common prefix and suffix found by the two loops. *)
Lemma diff_decomposition old_text new_text :
  let lo := String.length old_text in
  let ln := String.length new_text in
  let min_len := Nat.min lo ln in
  let p := prefix_loop min_len old_text new_text min_len 0 in
  let s := suffix_loop (min_len - p) old_text new_text min_len p lo ln 0 in
  p = lcp_len old_text new_text
  /\ (p + s <= lo)%nat /\ (p + s <= ln)%nat
  /\ Text.str_take p old_text = Text.str_take p new_text
  /\ Text.str_drop (lo - s) old_text = Text.str_drop (ln - s) new_text.
Proof.
  intros lo ln min_len p s.
  destruct (prefix_loop_spec min_len old_text new_text min_len 0)
    as (H1 & H2 & _); [lia | lia | intros i Hi; lia |].
  destruct (suffix_loop_spec (min_len - p) old_text new_text min_len p lo ln 0)
    as (H3 & H4); [lia | intros j Hj; lia |].
  fold p in H1, H2. fold s in H3, H4.
  split; [apply prefix_loop_is_lcp|].
  split; [lia|]. split; [lia|].
  split; [apply take_eq_of_same_char; exact H2|].
  apply drop_eq_of_same_char; [lia | lia | exact H4].
Qed.

(** C7. [parse_edit_to_operations] returns without an error; the list is
    empty when the texts are equal, and otherwise holds a Delete, an
    Insert, or a Delete followed by an Insert, each positioned at the end
    of the longest common prefix; applying the list in order to the old
    text gives the new text. For ["foo bar baz"] and ["foo QUUX baz"] it
    is the Delete of 3 characters at 4 followed by the Insert of ["QUUX"]
    at 4. *)
Theorem diff_to_ops_correct :
  (forall (clock : nat -> Q) (old_text new_text client_id : string),
     exists ops,
       parse_edit_to_operations clock old_text new_text client_id = Ok ops
       /\ (old_text = new_text -> ops = [])
       /\ (old_text <> new_text -> ops <> [])
       /\ delete_then_insert_at (Z.of_nat (lcp_len old_text new_text)) ops
       /\ apply_in_order old_text ops = Ok new_text)
  /\ (forall (clock : nat -> Q) (client_id : string),
        parse_edit_to_operations clock "foo bar baz" "foo QUUX baz" client_id
        = Ok [authored DELETE 4 "" 3 client_id VectorClock.empty (clock 0%nat);
              authored INSERT 4 "QUUX" 0 client_id VectorClock.empty
                       (clock 1%nat)]).
Proof.
  split.
  2:{ intros clock client_id. unfold parse_edit_to_operations.
      simpl String.eqb. cbv iota.
      unfold create_delete_operation, create_insert_operation.
      vm_compute. reflexivity. }
  intros clock old_text new_text client_id.
  unfold parse_edit_to_operations.
  destruct (String.eqb old_text new_text) eqn:Eeq.
  { apply String.eqb_eq in Eeq. subst. exists []. simpl.
    repeat split; auto; intros H; contradiction. }
  apply String.eqb_neq in Eeq.
  pose proof (diff_decomposition old_text new_text) as Hd. cbv zeta in Hd.
  set (lo := String.length old_text) in *.
  set (ln := String.length new_text) in *.
  set (min_len := Nat.min lo ln) in *.
  set (p := prefix_loop min_len old_text new_text min_len 0) in *.
  set (s := suffix_loop (min_len - p) old_text new_text min_len p lo ln 0) in *.
  destruct Hd as (Hp & Hlo & Hln & Htake & Hdrop).
  rewrite <- Hp.
  rewrite !TextFacts.slice_in_range by (fold lo ln; lia).
  fold lo ln.
  set (om := Text.str_take (lo - s - p) (Text.str_drop p old_text)).
  set (nm := Text.str_take (ln - s - p) (Text.str_drop p new_text)).
  assert (String.length om = (lo - s - p)%nat) as Hlom.
  { unfold om. rewrite TextFacts.length_str_take, TextFacts.length_str_drop. fold lo. lia. }
  assert (String.length nm = (ln - s - p)%nat) as Hlnm.
  { unfold nm. rewrite TextFacts.length_str_take, TextFacts.length_str_drop. fold ln. lia. }
  assert (new_text = Text.str_take p old_text +:+ nm
                     +:+ Text.str_drop (lo - s) old_text) as Hnew.
  { rewrite Htake, Hdrop. unfold nm. apply split_three. lia. }
  assert (old_text = Text.str_take p old_text +:+ om
                     +:+ Text.str_drop (lo - s) old_text) as Hold.
  { unfold om. apply split_three. lia. }
  unfold create_delete_operation, create_insert_operation, Text.len.
  rewrite !is_empty_length, Hlom, Hlnm.
  destruct (lo - s - p =? 0)%nat eqn:Eo; destruct (ln - s - p =? 0)%nat eqn:En;
    simpl negb; cbv iota; simpl andb; cbv iota.
  - (* both middles empty: the texts would be equal *)
    exfalso. apply Eeq. apply Nat.eqb_eq in Eo, En.
    rewrite Hold, Hnew.
    assert (om = "") as ->
      by (apply TextFacts.is_empty_true; rewrite is_empty_length, Hlom;
          now apply Nat.eqb_eq).
    assert (nm = "") as ->
      by (apply TextFacts.is_empty_true; rewrite is_empty_length, Hlnm;
          now apply Nat.eqb_eq).
    reflexivity.
  - (* pure insertion *)
    apply Nat.eqb_eq in Eo. apply Nat.eqb_neq in En.
    rewrite Operation_new_authored.
    2:{ intros [_ H]. apply TextFacts.is_empty_true in H.
        rewrite is_empty_length, Hlnm in H. apply Nat.eqb_eq in H. lia. }
    2:{ intros [H _]. discriminate. }
    simpl bind. eexists. split; [reflexivity|].
    split; [intros; contradiction|]. split; [discriminate|].
    split; [right; split; reflexivity|].
    simpl apply_in_order.
    rewrite apply_operation_authored. simpl bind.
    rewrite edit_insert_in_range by (fold lo; lia).
    f_equal. symmetry. etransitivity; [exact Hnew|].
    do 2 f_equal. f_equal. lia.
  - (* pure deletion *)
    apply Nat.eqb_neq in Eo. apply Nat.eqb_eq in En.
    rewrite Operation_new_authored.
    2:{ intros [H _]. discriminate. }
    2:{ intros [_ H]. lia. }
    simpl bind. eexists. split; [reflexivity|].
    split; [intros; contradiction|]. split; [discriminate|].
    split; [left; split; reflexivity|].
    simpl apply_in_order.
    rewrite apply_operation_authored. simpl bind.
    rewrite edit_delete_in_range by (fold lo; lia).
    f_equal. symmetry. etransitivity; [exact Hnew|].
    assert (nm = "") as ->
      by (apply TextFacts.is_empty_true; rewrite is_empty_length, Hlnm;
          now apply Nat.eqb_eq).
    rewrite TextFacts.app_nil. do 2 f_equal. lia.
  - (* replacement *)
    apply Nat.eqb_neq in Eo. apply Nat.eqb_neq in En.
    rewrite Operation_new_authored.
    2:{ intros [H _]. discriminate. }
    2:{ intros [_ H]. lia. }
    simpl bind. rewrite Operation_new_authored.
    2:{ intros [_ H]. apply TextFacts.is_empty_true in H.
        rewrite is_empty_length, Hlnm in H. apply Nat.eqb_eq in H. lia. }
    2:{ intros [H _]. discriminate. }
    simpl bind. eexists. split; [reflexivity|].
    split; [intros; contradiction|]. split; [discriminate|].
    split; [split; split; reflexivity|].
    simpl apply_in_order.
    rewrite apply_operation_authored. simpl bind.
    rewrite apply_operation_authored.
    rewrite edit_delete_in_range by (fold lo; lia).
    replace (p + (lo - s - p))%nat with (lo - s)%nat by lia.
    rewrite edit_insert_in_range.
    2:{ rewrite TextFacts.length_app, TextFacts.length_str_take. fold lo. lia. }
    simpl bind. f_equal. symmetry. etransitivity; [exact Hnew|].
    assert (String.length (Text.str_take p old_text) = p) as Hlp
      by (rewrite TextFacts.length_str_take; fold lo; lia).
    set (pre := Text.str_take p old_text) in *.
    set (suf := Text.str_drop (lo - s) old_text) in *.
    rewrite <- Hlp at 1 2.
    rewrite TextFacts.str_take_app_length, TextFacts.str_drop_app_length. reflexivity.
Qed.

(** ** The operation buffer *)

(** The states a buffer can be in: the one [__init__] builds, and those
    its two methods leave behind, whether they return or raise. *)
Inductive reachable : OperationBuffer -> Prop :=
| reachable_init initial_content client_id :
    reachable (OperationBuffer_init initial_content client_id)
| reachable_local self operation :
    reachable self -> reachable (fst (apply_local_operation self operation))
| reachable_remote self operation :
    reachable self -> reachable (fst (apply_remote_operation self operation)).

Lemma apply_local_operation_pending self operation :
  pending_operations (fst (apply_local_operation self operation))
  = pending_operations self.
Proof.
  unfold apply_local_operation.
  match goal with |- context [apply_operation ?t ?o] =>
    destruct (apply_operation t o) end; reflexivity.
Qed.

Lemma apply_remote_operation_no_pending self operation :
  pending_operations self = [] ->
  apply_remote_operation self operation =
  if negb (verify_integrity operation)
  then (self, Raise (ValueError ("Remote operation integrity check failed: "
                                   +:+ op_operation_id operation)))
  else
    let vector_clock1 :=
      VectorClock.update (vector_clock self) (op_vector_clock operation) in
    let content' :=
      edit (content self) (op_type operation) (op_position operation)
           (op_text operation) (op_length operation) in
    ({| content := content';
        client_id := client_id self;
        operation_history := operation_history self ++ [operation];
        pending_operations := [];
        vector_clock := vector_clock1;
        state_hash := _calculate_state_hash content' vector_clock1;
        operations_processed := operations_processed self + 1 |},
     Ok content').
Proof.
  intros Hp. unfold apply_remote_operation.
  destruct (verify_integrity operation) eqn:Ev; simpl negb; cbv iota;
    [|reflexivity].
  cbn [pending_operations content client_id operation_history vector_clock
       state_hash operations_processed].
  rewrite Hp. cbn [is_nil negb].
  rewrite (apply_operation_verified _ _ Ev). reflexivity.
Qed.

Lemma reachable_pending_empty self :
  reachable self -> pending_operations self = [].
Proof.
  induction 1 as [c i | self op _ IH | self op _ IH].
  - reflexivity.
  - now rewrite apply_local_operation_pending.
  - rewrite (apply_remote_operation_no_pending _ _ IH).
    destruct (negb (verify_integrity op)); [exact IH | reflexivity].
Qed.

(** C9. In every reachable state of a buffer [pending_operations] is
    empty. Hence [apply_remote_operation] never enters its transformation
    branch: an operation that fails the integrity check is refused and
    the buffer stays as it was, and any other operation is applied to the
    content as it was received and is the operation appended to the
    history. *)
Theorem pending_operations_always_empty (self : OperationBuffer) :
  reachable self ->
  pending_operations self = []
  /\ forall operation,
       let after := fst (apply_remote_operation self operation) in
       let outcome := snd (apply_remote_operation self operation) in
       (verify_integrity operation = false ->
          after = self /\ is_ok outcome = false)
       /\ (verify_integrity operation = true ->
             outcome = apply_operation (content self) operation
             /\ outcome = Ok (content after)
             /\ operation_history after
                = operation_history self ++ [operation]
             /\ pending_operations after = []).
Proof.
  intros Hr. pose proof (reachable_pending_empty self Hr) as Hp.
  split; [exact Hp|].
  intros operation. cbv zeta.
  rewrite (apply_remote_operation_no_pending _ _ Hp).
  split; intros Ev; rewrite Ev; simpl.
  - split; reflexivity.
  - rewrite (apply_operation_verified _ _ Ev). repeat split.
Qed.

End EngineFacts.

(** C6 (counterexample). An Insert with the text ["x"] and the length 5 is
    constructed without an error, although the invariants of the
    specification ask for an Insert of length 0. *)
Lemma construction_accepts_insert_with_length :
  ~ (is_ok (@Operation_new example_hashlib
                           INSERT 0 "x" 5 "" "" VectorClock.empty 0 "") = true
     <-> section3_invariants INSERT "x" 5).
Proof.
  intros [H _]. specialize (H eq_refl). destruct H as [_ H]. discriminate.
Qed.

(* ===================================================================== *)
(** * The checksum of a stored session *)
(* ===================================================================== *)

Module SessionProperties.
Import Sessions.

Section SessionFacts.

Context {hashlib : Hashlib} {datetimelib : DatetimeLib}.

(** ** The checksum of a session *)

Lemma verify_integrity_new session_id content users created_at last_activity
    version operation_count content_checksum metadata :
  verify_integrity
    (SessionState_new session_id content users created_at last_activity
                      version operation_count content_checksum metadata)
  = true.
Proof. unfold verify_integrity. simpl. apply String.eqb_refl. Qed.

Lemma from_dict_built data st :
  from_dict data = Ok st ->
  exists session_id content users created_at last_activity version
         operation_count content_checksum metadata,
    st = SessionState_new session_id content users created_at last_activity
                          version operation_count content_checksum metadata
    /\ data !! "content" = Some (VStr content).
Proof.
  unfold from_dict, item.
  destruct (data !! "session_id"); simpl; [|discriminate].
  destruct (data !! "content") as [cv|] eqn:Ec; simpl; [|discriminate].
  destruct (data !! "users") as [uv|]; simpl; [|discriminate].
  destruct (set_of uv); simpl; [|discriminate].
  destruct (data !! "created_at") as [c1|]; simpl; [|discriminate].
  destruct (parse_datetime c1); simpl; [|discriminate].
  destruct (data !! "last_activity") as [l1|]; simpl; [|discriminate].
  destruct (parse_datetime l1); simpl; [|discriminate].
  destruct cv; simpl; try discriminate.
  intros H. injection H as <-. do 9 eexists. split; reflexivity.
Qed.

(** The stored fields that [from_dict] needs, with what it reads them
    as. The stored checksum is not among them. *)
Definition readable (data : gmap string value) (sid : value) (c : string)
    (us : gset string) (ca la : datetime) : Prop :=
  data !! "session_id" = Some sid
  /\ data !! "content" = Some (VStr c)
  /\ (exists uv, data !! "users" = Some uv /\ set_of uv = Ok us)
  /\ (exists cv, data !! "created_at" = Some cv /\ parse_datetime cv = Ok ca)
  /\ (exists lv, data !! "last_activity" = Some lv
                 /\ parse_datetime lv = Ok la).

Lemma from_dict_readable data sid c us ca la :
  readable data sid c us ca la ->
  from_dict data
  = Ok (SessionState_new sid c us ca la
          (get data "version" (VInt 0))
          (get data "operation_count" (VInt 0))
          (checksum_argument (get data "content_checksum" (VStr "")))
          (Some (get data "metadata" (VDict [])))).
Proof.
  intros (Hs & Hc & (uv & Hu & Hus) & (cv & Hca & Hpc) & (lv & Hla & Hpl)).
  unfold from_dict, item.
  rewrite Hs, Hc, Hu. cbn [bind]. rewrite Hus. cbn [bind].
  rewrite Hca. cbn [bind]. rewrite Hpc. cbn [bind].
  rewrite Hla. cbn [bind]. rewrite Hpl. reflexivity.
Qed.

Lemma from_dict_ok_readable data st :
  from_dict data = Ok st ->
  exists sid c us ca la, readable data sid c us ca la.
Proof.
  unfold from_dict, item.
  destruct (data !! "session_id") as [sid|] eqn:Es; simpl; [|discriminate].
  destruct (data !! "content") as [cv|] eqn:Ec; simpl; [|discriminate].
  destruct (data !! "users") as [uv|] eqn:Eu; simpl; [|discriminate].
  destruct (set_of uv) as [us|] eqn:Eus; simpl; [|discriminate].
  destruct (data !! "created_at") as [c1|] eqn:E1; simpl; [|discriminate].
  destruct (parse_datetime c1) as [ca|] eqn:Ep1; simpl; [|discriminate].
  destruct (data !! "last_activity") as [l1|] eqn:E2; simpl; [|discriminate].
  destruct (parse_datetime l1) as [la|] eqn:Ep2; simpl; [|discriminate].
  destruct cv as [c| | |]; simpl; try discriminate.
  intros _. exists sid, c, us, ca, la.
  split; [exact Es|]. split; [exact Ec|].
  split; [exists uv; split; assumption|].
  split; [exists c1; split; assumption | exists l1; split; assumption].
Qed.

Lemma from_dict_ignores_checksum data v :
  from_dict (<["content_checksum" := v]> data) = from_dict data.
Proof.
  unfold from_dict, item, get.
  rewrite (lookup_insert_ne data "content_checksum" "session_id")
    by discriminate.
  rewrite (lookup_insert_ne data "content_checksum" "content")
    by discriminate.
  rewrite (lookup_insert_ne data "content_checksum" "users")
    by discriminate.
  rewrite (lookup_insert_ne data "content_checksum" "created_at")
    by discriminate.
  rewrite (lookup_insert_ne data "content_checksum" "last_activity")
    by discriminate.
  rewrite (lookup_insert_ne data "content_checksum" "version")
    by discriminate.
  rewrite (lookup_insert_ne data "content_checksum" "operation_count")
    by discriminate.
  rewrite (lookup_insert_ne data "content_checksum" "metadata")
    by discriminate.
  destruct (data !! "session_id"); simpl; [|reflexivity].
  destruct (data !! "content") as [cv|]; simpl; [|reflexivity].
  destruct (data !! "users") as [uv|]; simpl; [|reflexivity].
  destruct (set_of uv); simpl; [|reflexivity].
  destruct (data !! "created_at") as [c1|]; simpl; [|reflexivity].
  destruct (parse_datetime c1); simpl; [|reflexivity].
  destruct (data !! "last_activity") as [l1|]; simpl; [|reflexivity].
  destruct (parse_datetime l1); simpl; [|reflexivity].
  destruct (as_str cv); reflexivity.
Qed.

(** C10. The constructor overwrites the checksum it is given with the one
    computed from the content. So every session it builds passes
    [verify_integrity]; a session read by [from_dict] passes it whatever
    checksum was stored, and carries the checksum of the stored content
    instead; and [get_session], when the cache is not valid and the store
    returns such data, never leaves through its integrity-failure branch:
    it caches and returns the session, and counts no error.

    The stored checksum is repaired, not rejected: what [from_dict]
    returns or raises does not depend on the stored checksum at all; it
    returns a session exactly when the five fields it needs are stored
    and readable; for such data, whatever checksum is stored with them,
    it returns the session with the stored content and the checksum of
    that content, and [get_session] caches and returns that session. *)
Theorem stored_checksum_is_never_checked :
  (forall session_id content users created_at last_activity version
          operation_count content_checksum metadata,
     verify_integrity
       (SessionState_new session_id content users created_at last_activity
                         version operation_count content_checksum metadata)
     = true)
  /\ (forall data st,
        from_dict data = Ok st ->
        verify_integrity st = true
        /\ exists stored,
             data !! "content" = Some (VStr stored)
             /\ content_checksum st = checksum_of stored)
  /\ (forall self session_id now_check now_store redis,
        snd (get_session self session_id now_check now_store redis)
        <> IntegrityFailure)
  /\ (forall self session_id now_check now_store data st,
        _is_cache_valid self session_id now_check = false ->
        from_dict data = Ok st ->
        get_session self session_id now_check now_store (Returned data)
        = (store_in_cache (count_cache_miss self) session_id st now_store,
           Some st, Fetched))
  /\ (forall data v,
        from_dict (<["content_checksum" := v]> data) = from_dict data)
  /\ (forall data,
        is_ok (from_dict data) = true
        <-> exists sid c us ca la, readable data sid c us ca la)
  /\ (forall data sid c us ca la,
        readable data sid c us ca la ->
        exists st,
          from_dict data = Ok st
          /\ session_id st = sid /\ content st = c /\ users st = us
          /\ created_at st = ca /\ last_activity st = la
          /\ content_checksum st = checksum_of c
          /\ verify_integrity st = true)
  /\ (forall self session_id now_check now_store data sid c us ca la,
        _is_cache_valid self session_id now_check = false ->
        readable data sid c us ca la ->
        exists st,
          get_session self session_id now_check now_store (Returned data)
          = (store_in_cache (count_cache_miss self) session_id st now_store,
             Some st, Fetched)
          /\ content st = c
          /\ content_checksum st = checksum_of c).
Proof.
  assert (forall data st, from_dict data = Ok st -> verify_integrity st = true)
    as Hver.
  { intros data st H. apply from_dict_built in H.
    destruct H as (? & ? & ? & ? & ? & ? & ? & ? & ? & -> & _).
    apply verify_integrity_new. }
  assert (forall self session_id now_check now_store data st,
            _is_cache_valid self session_id now_check = false ->
            from_dict data = Ok st ->
            get_session self session_id now_check now_store (Returned data)
            = (store_in_cache (count_cache_miss self) session_id st now_store,
               Some st, Fetched)) as Hfetch.
  { intros self session_id now_check now_store data st Hc H.
    unfold get_session. rewrite Hc.
    destruct (decide (data = ∅)) as [->|_].
    - unfold from_dict, item in H. rewrite lookup_empty in H. discriminate.
    - rewrite H. simpl. rewrite (Hver _ _ H). reflexivity. }
  split; [intros; apply verify_integrity_new|].
  split; [|split; [|split; [exact Hfetch|]]].
  - intros data st H. split; [eapply Hver; eauto|].
    apply from_dict_built in H.
    destruct H as (? & c & ? & ? & ? & ? & ? & ? & ? & -> & Hc).
    exists c. split; [exact Hc | reflexivity].
  - intros self session_id now_check now_store redis.
    unfold get_session.
    destruct (_is_cache_valid self session_id now_check); [discriminate|].
    destruct redis as [data|e]; [|discriminate].
    destruct (decide (data = ∅)); [discriminate|].
    destruct (from_dict data) as [st|e] eqn:E; simpl; [|discriminate].
    rewrite (Hver _ _ E). discriminate.
  - split; [exact from_dict_ignores_checksum|].
    split; [|split].
    + intros data. split.
      * intros H. destruct (from_dict data) as [st|e] eqn:E; [|discriminate].
        eapply from_dict_ok_readable. exact E.
      * intros (sid & c & us & ca & la & H).
        now rewrite (from_dict_readable _ _ _ _ _ _ H).
    + intros data sid c us ca la H.
      eexists. split; [exact (from_dict_readable _ _ _ _ _ _ H)|].
      simpl. repeat split. apply verify_integrity_new.
    + intros self session_id now_check now_store data sid c us ca la Hc H.
      eexists.
      split;
        [exact (Hfetch _ _ _ _ _ _ Hc (from_dict_readable _ _ _ _ _ _ H))|].
      split; reflexivity.
Qed.

End SessionFacts.

End SessionProperties.


(* ===================================================================== *)
(** * Rate limiting of incoming messages *)
(* ===================================================================== *)

Module ManagerProperties.
Import Manager.

Local Open Scope Q_scope.

Section ManagerFacts.

(** ** The budget of a user *)

Lemma Qltb_lt a b : Qltb a b = true <-> a < b.
Proof.
  unfold Qltb. rewrite Qlt_alt.
  destruct (a ?= b); split; congruence.
Qed.

Lemma Qltb_ge a b : Qltb a b = false <-> b <= a.
Proof.
  split.
  - intros H. destruct (Qlt_le_dec a b) as [Hlt|Hle]; [|exact Hle].
    apply Qltb_lt in Hlt. congruence.
  - intros H. destruct (Qltb a b) eqn:E; [|reflexivity].
    apply Qltb_lt in E. lra.
Qed.

Lemma Qle_bool_false a b : Qle_bool a b = false <-> b < a.
Proof.
  split.
  - intros H. destruct (Qlt_le_dec b a) as [Hlt|Hle]; [exact Hlt|].
    apply Qle_bool_iff in Hle. congruence.
  - intros H. destruct (Qle_bool a b) eqn:E; [|reflexivity].
    apply Qle_bool_iff in E. lra.
Qed.

(** Pruning below [k] removes nothing that is at least [c >= k]. *)
Lemma filter_popleft c k D :
  k <= c ->
  List.filter (Qle_bool c) (popleft_while_older k D)
  = List.filter (Qle_bool c) D.
Proof.
  intros Hk. induction D as [|x D IH]; simpl; [reflexivity|].
  destruct (Qltb x k) eqn:E; [|reflexivity].
  apply Qltb_lt in E.
  assert (Qle_bool c x = false) as -> by (apply Qle_bool_false; lra).
  exact IH.
Qed.

Lemma length_filter_popleft c D :
  (length (List.filter (Qle_bool c) D) <= length (popleft_while_older c D))%nat.
Proof.
  induction D as [|x D IH]; simpl; [lia|].
  destruct (Qltb x c) eqn:E.
  - apply Qltb_lt in E.
    assert (Qle_bool c x = false) as -> by (apply Qle_bool_false; lra).
    exact IH.
  - pose proof (List.filter_length_le (Qle_bool c) (x :: D)) as H.
    simpl in H. exact H.
Qed.

Lemma filter_length_mono (P R : Q -> bool) (l : list Q) :
  (forall x, P x = true -> R x = true) ->
  (length (List.filter P l) <= length (List.filter R l))%nat.
Proof.
  intros H. induction l as [|x l IH]; simpl; [lia|].
  destruct (P x) eqn:E.
  - rewrite (H x E). simpl. lia.
  - destruct (R x); simpl; lia.
Qed.

Lemma requests_of_insert_eq rl u D : requests_of (<[u := D]> rl) u = D.
Proof. unfold requests_of. now rewrite lookup_insert_eq. Qed.

Lemma requests_of_insert_ne rl u u' D :
  u' <> u -> requests_of (<[u' := D]> rl) u = requests_of rl u.
Proof. intros H. unfold requests_of. now rewrite lookup_insert_ne. Qed.

Lemma requests_of_cleanup rl u t :
  requests_of (cleanup_rate_limits t rl) u
  = popleft_while_older (t - 300) (requests_of rl u).
Proof.
  unfold requests_of, cleanup_rate_limits.
  destruct (filter (fun kv : string * list Q => is_nil (snd kv) = false)
              (popleft_while_older (t - 300) <$> rl) !! u) as [D|] eqn:E.
  - apply map_lookup_filter_Some in E as [E _].
    rewrite lookup_fmap in E. destruct (rl !! u); simpl in *; congruence.
  - apply map_lookup_filter_None in E.
    rewrite lookup_fmap in E.
    destruct (rl !! u) as [D|]; simpl in *; [|reflexivity].
    destruct E as [E|E]; [discriminate|].
    specialize (E _ eq_refl). simpl in E.
    destruct (popleft_while_older (t - 300) D); [reflexivity|].
    exfalso. apply E. reflexivity.
Qed.

Lemma handle_message_rate_limits (handlers : Handlers) self websocket msg
    now_activity current_time info :
  keeps_rate_limits handlers ->
  connection_info self !! websocket = Some info ->
  rate_limits (handle_message self websocket msg now_activity current_time)
  = fst (_check_rate_limit (rate_limits self) (user_id info) current_time 100 60).
Proof.
  intros dispatch_keeps_rate_limits H. unfold handle_message. rewrite H.
  destruct (_check_rate_limit (rate_limits self) (user_id info) current_time
                              100 60) as [rl ok].
  destruct ok; simpl.
  - now rewrite dispatch_keeps_rate_limits.
  - unfold send_personal_message.
    destruct (send_text_ok websocket rate_limit_reply); reflexivity.
Qed.

(** The accepted requests [A] of a user and the deque [D] kept for the
    user hold the same entries from [last - 60] on. *)
Definition agrees (A D : list Q) (last : Q) : Prop :=
  forall c, last - 60 <= c ->
            List.filter (Qle_bool c) A = List.filter (Qle_bool c) D.

(** No window of 60 seconds holds more than 100 of the times [A]. *)
Definition within_budget (A : list Q) : Prop :=
  forall w, (length (List.filter (in_window w) A) <= 100)%nat.

Lemma agrees_later A D last last' :
  last <= last' -> agrees A D last -> agrees A D last'.
Proof. intros H HA c Hc. apply HA. lra. Qed.

Lemma check_rate_limit_cases rl u t :
  let D1 := popleft_while_older (t - 60) (requests_of rl u) in
  ((100 <= length D1)%nat
   /\ _check_rate_limit rl u t 100 60 = (<[u := D1]> rl, false))
  \/ ((length D1 < 100)%nat
      /\ _check_rate_limit rl u t 100 60 = (<[u := D1 ++ [t]]> rl, true)).
Proof.
  intros D1. unfold _check_rate_limit. fold D1.
  destruct (Nat.leb_spec 100 (length D1)) as [H|H].
  - left. split; [exact H | reflexivity].
  - right. split; [exact H|]. unfold deque_append.
    destruct (Nat.ltb_spec (length D1) 100) as [H'|H']; [reflexivity | lia].
Qed.

Lemma allowed_times_other user u t b :
  u <> user -> allowed_times user [Handled u t b] = [].
Proof.
  intros H. apply String.eqb_neq in H. destruct b; simpl; [|reflexivity].
  now rewrite H.
Qed.

Lemma allowed_times_same u t b :
  allowed_times u [Handled u t b] = if b then [t] else [].
Proof. destruct b; simpl; [|reflexivity]. now rewrite String.eqb_refl. Qed.

Lemma check_step A rl user u t last :
  last <= t ->
  agrees A (requests_of rl user) last -> within_budget A ->
  let r := _check_rate_limit rl u t 100 60 in
  let A' := A ++ allowed_times user [Handled u t (snd r)] in
  agrees A' (requests_of (fst r) user) t /\ within_budget A'.
Proof.
  intros Ht Hag Hb. cbv zeta.
  pose proof (check_rate_limit_cases rl u t) as Hc. cbv zeta in Hc.
  set (D1 := popleft_while_older (t - 60) (requests_of rl u)) in *.
  destruct (decide (u = user)) as [->|Hne].
  - assert (forall c, t - 60 <= c ->
              List.filter (Qle_bool c) A = List.filter (Qle_bool c) D1) as HD1.
    { intros c Hc'. unfold D1. rewrite filter_popleft by exact Hc'.
      apply Hag. lra. }
    rewrite allowed_times_same.
    destruct Hc as [[Hl ->]|[Hl ->]]; cbn [fst snd];
      rewrite requests_of_insert_eq.
    + rewrite app_nil_r. split; [exact HD1 | exact Hb].
    + split.
      * intros c Hc'. rewrite !List.filter_app. f_equal. now apply HD1.
      * intros w. rewrite List.filter_app, length_app.
        cbn [List.filter].
        destruct (in_window w t) eqn:Ew; cbn [length];
          [|specialize (Hb w); lia].
        apply andb_true_iff in Ew as [Hw1 Hw2].
        apply Qle_bool_iff in Hw1, Hw2.
        assert (length (List.filter (in_window w) A)
                <= length (List.filter (Qle_bool (t - 60)) A))%nat as H1.
        { apply filter_length_mono. intros x Hx.
          apply andb_true_iff in Hx as [Hx _].
          apply Qle_bool_iff in Hx. apply Qle_bool_iff. lra. }
        rewrite (Hag (t - 60)) in H1 by lra.
        pose proof (length_filter_popleft (t - 60) (requests_of rl user)) as H2.
        fold D1 in H2. lia.
  - rewrite allowed_times_other by exact Hne. rewrite app_nil_r.
    destruct Hc as [[Hl ->]|[Hl ->]]; cbn [fst snd];
      rewrite requests_of_insert_ne by exact Hne;
      (split; [eapply agrees_later; eauto | exact Hb]).
Qed.

Lemma allowed_times_cons user l trace :
  allowed_times user (l :: trace)
  = allowed_times user [l] ++ allowed_times user trace.
Proof.
  destruct l as [u t [|]| |t|]; simpl; try reflexivity.
  destruct (String.eqb u user); reflexivity.
Qed.

Lemma run_within_budget user self trace self' :
  run self trace self' ->
  forall A last,
    nondecreasing_from last (times trace) ->
    agrees A (requests_of (rate_limits self) user) last ->
    within_budget A ->
    within_budget (A ++ allowed_times user trace).
Proof.
  induction 1 as [self | self l self' trace self'' Hstep Hrun IH];
    intros A last Hnd Hag Hb.
  - simpl. now rewrite app_nil_r.
  - rewrite allowed_times_cons, app_assoc.
    destruct Hstep as [handlers self ws msg t1 t info Hkeeps Hinfo
                      | handlers self ws msg t1 t Hnone
                      | self self' t Hrl
                      | self self' Hrl].
    + simpl in Hnd. destruct Hnd as [Hle Hnd].
      destruct (check_step A (rate_limits self) user (user_id info) t last
                           Hle Hag Hb) as [Hag' Hb'].
      apply (IH _ t); [exact Hnd | | exact Hb'].
      rewrite (handle_message_rate_limits _ _ _ _ _ _ _ Hkeeps Hinfo).
      exact Hag'.
    + simpl. rewrite app_nil_r. apply (IH _ last); [exact Hnd | | exact Hb].
      unfold handle_message. rewrite Hnone. exact Hag.
    + simpl in Hnd. destruct Hnd as [Hle Hnd].
      simpl. rewrite app_nil_r. apply (IH _ t); [exact Hnd | | exact Hb].
      rewrite Hrl, requests_of_cleanup.
      intros c Hc. rewrite filter_popleft by lra. apply Hag. lra.
    + simpl. rewrite app_nil_r. apply (IH _ last); [exact Hnd | | exact Hb].
      rewrite Hrl. exact Hag.
Qed.

Lemma counter_after_record_error self error_type key :
  default 0%Z (error_count (record_error self error_type) !! key)
  = if decide (error_type = key)
    then (default 0%Z (error_count self !! key) + 1)%Z
    else default 0%Z (error_count self !! key).
Proof.
  unfold record_error. simpl. rewrite lookup_insert.
  destruct (decide (error_type = key)); subst; reflexivity.
Qed.

(** C8. From a manager with no rate-limit entries, along any run whose
    clock readings do not decrease, no window of 60 seconds holds more
    than 100 messages of one user that passed the check. And a message
    that does not pass is answered by the one error reply (when the
    channel accepts it), raises the counter of rate-limit errors by one,
    reaches no handler (the buffers and the handlers' state are as before:
    the result does not depend on the message), and leaves the channel
    among the connections. *)
Theorem rate_limit_tight self0 trace self user w :
  rate_limits self0 = ∅ ->
  run self0 trace self ->
  nondecreasing (times trace) ->
  (length (List.filter (in_window w) (allowed_times user trace)) <= 100)%nat
  /\ forall (handlers : Handlers) m websocket msg now_activity current_time
            info,
       connection_info m !! websocket = Some info ->
       snd (_check_rate_limit (rate_limits m) (user_id info) current_time
                              100 60) = false ->
       let m' := handle_message m websocket msg now_activity current_time in
       sent m' =
         (if send_text_ok websocket rate_limit_reply
          then sent m ++ [(websocket, rate_limit_reply)] else sent m)
       /\ default 0%Z (error_count m' !! "rate_limit_exceeded")
          = (default 0%Z (error_count m !! "rate_limit_exceeded") + 1)%Z
       /\ session_buffers m' = session_buffers m
       /\ dom (connection_info m') = dom (connection_info m)
       /\ m' = handle_message m websocket [] now_activity current_time.
Proof.
  intros Hempty Hrun Hnd. split.
  - assert (within_budget ([] ++ allowed_times user trace)) as H.
    { destruct trace as [|l trace]; [intros w'; simpl; lia|].
      assert (exists last, nondecreasing_from last (times (l :: trace)))
        as [last Hlast].
      { unfold nondecreasing in Hnd.
        destruct (times (l :: trace)) as [|t ts] eqn:E.
        - exists 0. exact I.
        - exists t. split; [lra | exact Hnd]. }
      apply (run_within_budget user _ _ _ Hrun [] last Hlast).
      - intros c _. rewrite Hempty. reflexivity.
      - intros w'. simpl. lia. }
    apply H.
  - clear.
    intros handlers m websocket msg now_activity current_time info Hinfo Hno.
    cbv zeta. unfold handle_message. rewrite Hinfo.
    destruct (_check_rate_limit (rate_limits m) (user_id info) current_time
                                100 60) as [rl ok].
    simpl in Hno. subst ok. simpl negb. cbv iota.
    unfold send_personal_message.
    destruct (send_text_ok websocket rate_limit_reply); simpl.
    + repeat split.
      * rewrite lookup_insert_eq. reflexivity.
      * apply dom_insert_lookup_L. eauto.
    + repeat split.
      * rewrite lookup_insert_eq, lookup_insert_ne by discriminate. reflexivity.
      * apply dom_insert_lookup_L. eauto.
Qed.

Lemma run_handle_all (handlers : Handlers) self calls :
  keeps_rate_limits handlers ->
  run self (labels self calls) (handle_all self calls).
Proof.
  intros Hkeeps.
  revert self; induction calls as [|c calls IH]; intros self; simpl.
  - constructor.
  - econstructor; [|apply IH].
    destruct c as [[[websocket msg] now_activity] current_time].
    unfold label_of, handle_call.
    destruct (connection_info self !! websocket) as [info|] eqn:E.
    + now apply step_handled.
    + now apply step_ignored.
Qed.

End ManagerFacts.

End ManagerProperties.


(* ===================================================================== *)
(** * Merging and comparing vector clocks *)
(* ===================================================================== *)

Module VectorClockMerge.
Import VectorClock VectorClockFacts.

Definition update_step (m : gmap string Z) (kv : string * Z) : gmap string Z :=
  <[kv.1 := Z.max (default 0 (m !! kv.1)) kv.2]> m.

Lemma update_unfold vc other :
  clocks (update vc other)
  = foldl update_step (clocks vc) (map_to_list (clocks other)).
Proof.
  unfold update. simpl. generalize (clocks vc).
  induction (map_to_list (clocks other)) as [|[k v] l IH]; intros m; simpl;
    [reflexivity | apply IH].
Qed.

Lemma foldl_update_lookup (l : list (string * Z)) (m : gmap string Z) c :
  NoDup (l.*1) ->
  default 0 (foldl update_step m l !! c)
  = match (list_to_map l : gmap string Z) !! c with
    | Some v => Z.max (default 0 (m !! c)) v
    | None => default 0 (m !! c)
    end.
Proof.
  revert m; induction l as [|[k v] l IH]; intros m Hnd.
  - simpl. now rewrite lookup_empty.
  - rewrite fmap_cons in Hnd. apply NoDup_cons in Hnd as [Hk Hnd].
    cbn [foldl]. rewrite IH by exact Hnd.
    change (list_to_map ((k, v) :: l) : gmap string Z)
      with (<[k := v]> (list_to_map l : gmap string Z)).
    unfold update_step. cbn [fst snd] in *.
    destruct (decide (k = c)) as [->|Hne].
    + rewrite lookup_insert_eq.
      rewrite (not_elem_of_list_to_map_1 l c Hk). simpl.
      now rewrite lookup_insert_eq.
    + rewrite (lookup_insert_ne _ k c) by exact Hne.
      rewrite (lookup_insert_ne _ k c) by exact Hne.
      reflexivity.
Qed.

Lemma get_update vc other c :
  get (update vc other) c
  = match clocks other !! c with
    | Some v => Z.max (get vc c) v
    | None => get vc c
    end.
Proof.
  unfold get at 1. rewrite update_unfold.
  rewrite foldl_update_lookup by apply NoDup_fst_map_to_list.
  rewrite list_to_map_to_list. reflexivity.
Qed.

Lemma get_update_ge vc other c : get vc c <= get (update vc other) c.
Proof. rewrite get_update. destruct (clocks other !! c); lia. Qed.

(** X1. After [vc.update(other)] the counter of every client that
    [other] lists is the larger of the two counters, and every other
    counter is as it was; so no counter is ever lowered. *)
Theorem update_is_pointwise_max (vc other : t) (c : string) :
  get (update vc other) c
  = match clocks other !! c with
    | Some v => Z.max (get vc c) v
    | None => get vc c
    end
  /\ get vc c <= get (update vc other) c.
Proof.
  assert (get (update vc other) c
          = match clocks other !! c with
            | Some v => Z.max (get vc c) v
            | None => get vc c
            end) as H.
  { unfold get at 1. rewrite update_unfold.
    rewrite foldl_update_lookup by apply NoDup_fst_map_to_list.
    rewrite list_to_map_to_list. reflexivity. }
  split; [exact H|]. rewrite H. destruct (clocks other !! c); lia.
Qed.

Lemma compare_not_behind_iff self other :
  (compare self other = "before" \/ compare self other = "equal") <->
  forall c, get other c <= get self c.
Proof.
  rewrite compare_cases.
  destruct (compare_flags_spec self other) as [Hs Ho].
  destruct (compare_flags self other) as [sl ol]; simpl in *.
  split.
  - intros H c.
    destruct (Z_lt_le_dec (get self c) (get other c)) as [Hlt|]; [|lia].
    assert (ol = true) as -> by (apply Ho; eauto).
    destruct sl; destruct H; discriminate.
  - intros H. destruct ol.
    + destruct Ho as [Ho _]. destruct (Ho eq_refl) as [c Hc].
      specialize (H c). lia.
    + destruct sl; auto.
Qed.

(** X2. The merged clock is never 'after' or 'concurrent' against the
    clock it was merged into; and when that clock has no negative counter
    the same holds against the clock merged in. ([compare] names
    'before' the clock that is componentwise at least the other.) *)
Theorem update_dominates (vc other : t) :
  (compare (update vc other) vc = "before"
   \/ compare (update vc other) vc = "equal")
  /\ ((forall c, 0 <= get vc c) ->
      compare (update vc other) other = "before"
      \/ compare (update vc other) other = "equal").
Proof.
  split.
  - apply compare_not_behind_iff. intros c. apply get_update_ge.
  - intros Hpos. apply compare_not_behind_iff. intros c.
    rewrite get_update.
    unfold get at 1. destruct (clocks other !! c); simpl; [lia | apply Hpos].
Qed.

Lemma compare_flags_swap self other :
  compare_flags other self
  = (snd (compare_flags self other), fst (compare_flags self other)).
Proof.
  destruct (compare_flags_spec self other) as [Hs Ho].
  destruct (compare_flags_spec other self) as [Hs' Ho'].
  destruct (compare_flags self other) as [sl ol],
           (compare_flags other self) as [sl' ol']; simpl in *.
  f_equal.
  - destruct sl', ol; try reflexivity.
    + symmetry. apply Ho, Hs'. reflexivity.
    + apply Hs', Ho. reflexivity.
  - destruct ol', sl; try reflexivity.
    + symmetry. apply Hs, Ho'. reflexivity.
    + apply Ho', Hs. reflexivity.
Qed.

(** X3. Exchanging the two clocks exchanges 'before' and 'after' and
    keeps 'concurrent' and 'equal'; and two clocks compare 'equal' exactly
    when every client has the same counter in both, a missing entry
    counting as 0. *)
Theorem compare_exchange (self other : t) :
  (compare self other = "before" <-> compare other self = "after")
  /\ (compare self other = "after" <-> compare other self = "before")
  /\ (compare self other = "concurrent" <-> compare other self = "concurrent")
  /\ (compare self other = "equal" <-> compare other self = "equal")
  /\ (compare self other = "equal" <-> forall c, get self c = get other c).
Proof.
  rewrite (compare_cases self other), (compare_cases other self).
  rewrite (compare_flags_swap self other).
  destruct (compare_flags_spec self other) as [Hs Ho].
  destruct (compare_flags self other) as [sl ol]; simpl in *.
  do 4 (split; [split; intros H; destruct sl, ol; simpl in *; congruence|]).
  split.
  - intros H c. destruct sl, ol; try discriminate.
    destruct (Z.lt_trichotomy (get self c) (get other c)) as [Hlt|[Heq|Hgt]].
    + assert (false = true) by (apply Ho; eauto). discriminate.
    + exact Heq.
    + assert (false = true) by (apply Hs; eauto). discriminate.
  - intros H.
    assert (sl = false) as ->.
    { destruct sl; [|reflexivity]. destruct Hs as [Hs _].
      destruct (Hs eq_refl) as [c Hc]. specialize (H c). lia. }
    assert (ol = false) as ->.
    { destruct ol; [|reflexivity]. destruct Ho as [Ho _].
      destruct (Ho eq_refl) as [c Hc]. specialize (H c). lia. }
    reflexivity.
Qed.

End VectorClockMerge.

(* ===================================================================== *)
(** * The wire format of operations *)
(* ===================================================================== *)

Module WireFacts.
Import Wire.

Section WireRoundTrip.

Context {hashlib : Hashlib}.

Lemma OperationType_of_value_value type :
  OperationType_of_value (value type) = Ok type.
Proof. destruct type; reflexivity. Qed.

Lemma OperationType_of_value_ok s type :
  OperationType_of_value s = Ok type -> s = value type.
Proof.
  unfold OperationType_of_value.
  destruct (String.eqb s "retain") eqn:E1;
    [apply String.eqb_eq in E1; intros H; injection H as <-; exact E1|].
  destruct (String.eqb s "insert") eqn:E2;
    [apply String.eqb_eq in E2; intros H; injection H as <-; exact E2|].
  destruct (String.eqb s "delete") eqn:E3;
    [apply String.eqb_eq in E3; intros H; injection H as <-; exact E3|].
  discriminate.
Qed.

(** Decoding what [to_dict] wrote runs [__post_init__] on the same
    fields. *)
Lemma from_dict_to_dict now op :
  from_dict now (to_dict op) = __post_init__ op.
Proof.
  unfold from_dict, to_dict, Operation_new. simpl.
  rewrite OperationType_of_value_value. simpl.
  destruct op as [? ? ? ? ? ? [?] ? ?]. reflexivity.
Qed.

Lemma post_init_fixed op :
  passes_guards op -> op_operation_id op <> "" -> op_checksum op <> "" ->
  __post_init__ op = Ok op.
Proof.
  intros Hg Hid Hck.
  apply post_init_ok_iff in Hg.
  destruct (__post_init__ op) as [op'|e] eqn:E; [|discriminate].
  apply post_init_value in E.
  apply TextFacts.is_empty_false in Hid, Hck. rewrite Hid, Hck in E.
  destruct E as (? & ? & ? & ? & ? & ? & ? & ? & ?).
  destruct op, op'; simpl in *; subst. reflexivity.
Qed.

(** X4. An operation that passes the two guards of the constructor and
    carries an id and a checksum comes back unchanged from
    [from_dict(op.to_dict())], so it passes [verify_integrity] after the
    round trip exactly when it did before. *)
Theorem wire_round_trip (now : Q) (op : Operation) :
  passes_guards op -> op_operation_id op <> "" -> op_checksum op <> "" ->
  from_dict now (to_dict op) = Ok op.
Proof.
  intros Hg Hid Hck. rewrite from_dict_to_dict.
  now apply post_init_fixed.
Qed.

(** X5. [from_dict] raises [KeyError] when the key ["type"] or (with a
    valid type) the key ["position"] is missing, and [ValueError] when the
    type is none of the three names; every other key has a default. It
    returns an operation exactly when type and position are present and
    the operation is neither an Insert whose text is missing or empty nor
    a Delete whose length is missing or not positive. *)
Theorem from_dict_errors (now : Q) (data : OperationDict) :
  (d_type data = None -> from_dict now data = Raise (KeyError "type"))
  /\ (forall s,
        d_type data = Some s ->
        s <> "retain" -> s <> "insert" -> s <> "delete" ->
        from_dict now data
        = Raise (ValueError ("'" +:+ s +:+ "' is not a valid OperationType")))
  /\ (forall type,
        d_type data = Some (value type) -> d_position data = None ->
        from_dict now data = Raise (KeyError "position"))
  /\ (is_ok (from_dict now data) = true <->
      exists type position,
        d_type data = Some (value type)
        /\ d_position data = Some position
        /\ ~ (type = INSERT /\ default "" (d_text data) = "")
        /\ ~ (type = DELETE /\ default 0 (d_length data) <= 0)).
Proof.
  unfold from_dict. repeat split.
  - intros ->. reflexivity.
  - intros s -> H1 H2 H3. simpl. unfold OperationType_of_value.
    apply String.eqb_neq in H1, H2, H3. now rewrite H1, H2, H3.
  - intros type -> ->. simpl. now rewrite OperationType_of_value_value.
  - intros H.
    destruct (d_type data) as [s|]; simpl in H; [|discriminate].
    destruct (OperationType_of_value s) as [type|e] eqn:Et; simpl in H;
      [|discriminate].
    apply OperationType_of_value_ok in Et. subst s.
    destruct (d_position data) as [position|]; simpl in H; [|discriminate].
    exists type, position. split; [reflexivity|]. split; [reflexivity|].
    unfold Operation_new in H. apply post_init_ok_iff in H. exact H.
  - intros (type & position & -> & -> & H1 & H2). simpl.
    rewrite OperationType_of_value_value. simpl.
    unfold Operation_new. apply post_init_ok_iff. split; assumption.
Qed.

End WireRoundTrip.

End WireFacts.

(* ===================================================================== *)
(** * Applying operations: bounds, lengths and batches *)
(* ===================================================================== *)

Section ApplyFacts.

Context {hashlib : Hashlib}.

Lemma clamp_range (p n : Z) : 0 <= n -> 0 <= Z.max 0 (Z.min p n) <= n.
Proof. lia. Qed.

(** [edit] for an Insert and a Delete at any position, with the clamped
    positions as numbers of characters. *)
Lemma edit_insert T p x l :
  let n := Z.to_nat (Z.max 0 (Z.min p (Text.len T))) in
  (n <= String.length T)%nat
  /\ edit T INSERT p x l = Text.str_take n T +:+ x +:+ Text.str_drop n T.
Proof.
  intros n. assert (n <= String.length T)%nat as Hn
    by (unfold n, Text.len; lia).
  split; [exact Hn|]. unfold edit.
  replace (Z.max 0 (Z.min p (Text.len T))) with (Z.of_nat n)
    by (unfold n, Text.len; lia).
  now rewrite TextFacts.slice_to_in_range, TextFacts.slice_from_in_range.
Qed.

Lemma edit_delete T p x l :
  let n := Z.to_nat (Z.max 0 (Z.min p (Text.len T))) in
  let m := Z.to_nat (Z.max (Z.max 0 (Z.min p (Text.len T)))
                           (Z.min (p + l) (Text.len T))) in
  (n <= m <= String.length T)%nat
  /\ edit T DELETE p x l = Text.str_take n T +:+ Text.str_drop m T.
Proof.
  intros n m. assert (n <= m <= String.length T)%nat as Hnm
    by (unfold n, m, Text.len; lia).
  split; [exact Hnm|]. unfold edit.
  replace (Z.max (Z.max 0 (Z.min p (Text.len T)))
                 (Z.min (p + l) (Text.len T))) with (Z.of_nat m)
    by (unfold m, Text.len; lia).
  replace (Z.max 0 (Z.min p (Text.len T))) with (Z.of_nat n)
    by (unfold n, Text.len; lia).
  now rewrite TextFacts.slice_to_in_range, TextFacts.slice_from_in_range by lia.
Qed.

Lemma len_app a b : Text.len (a +:+ b) = Text.len a + Text.len b.
Proof. unfold Text.len. rewrite TextFacts.length_app. lia. Qed.

Lemma len_take n T :
  (n <= String.length T)%nat -> Text.len (Text.str_take n T) = Z.of_nat n.
Proof. intros H. unfold Text.len. rewrite TextFacts.length_str_take. lia. Qed.

Lemma len_drop n T :
  (n <= String.length T)%nat ->
  Text.len (Text.str_drop n T) = Text.len T - Z.of_nat n.
Proof. intros H. unfold Text.len. rewrite TextFacts.length_str_drop. lia. Qed.

Lemma apply_ok_verified T op r :
  apply_operation T op = Ok r -> verify_integrity op = true.
Proof.
  intros H. destruct (verify_integrity op) eqn:E; [reflexivity|].
  rewrite (apply_operation_unverified _ _ E) in H. discriminate.
Qed.

(** X6. [apply_operation] raises exactly when the integrity check
    fails. When it returns, an Insert has lengthened the text by the
    length of its text wherever it was placed, a Delete has shortened the
    text by at most its length and never lengthened it, and a Retain has
    left it as it was. *)
Theorem apply_operation_outcome (T : string) (op : Operation) :
  is_ok (apply_operation T op) = verify_integrity op
  /\ forall T',
       apply_operation T op = Ok T' ->
       match op_type op with
       | INSERT => Text.len T' = Text.len T + Text.len (op_text op)
       | DELETE =>
           Text.len T' <= Text.len T
           /\ Text.len T - Text.len T' <= Z.max 0 (op_length op)
       | RETAIN => T' = T
       end.
Proof.
  destruct (verify_integrity op) eqn:Ev.
  - rewrite (apply_operation_verified _ _ Ev). split; [reflexivity|].
    intros T' H. injection H as <-.
    destruct (op_type op).
    + reflexivity.
    + destruct (edit_insert T (op_position op) (op_text op) (op_length op))
        as [Hn ->].
      rewrite !len_app, len_take, len_drop by exact Hn. lia.
    + destruct (edit_delete T (op_position op) (op_text op) (op_length op))
        as [Hnm ->].
      rewrite !len_app, len_take, len_drop by lia.
      unfold Text.len in *. lia.
  - rewrite (apply_operation_unverified _ _ Ev). split; [reflexivity|].
    discriminate.
Qed.

(** X7. Deleting, at the position of an Insert inside the text, as many
    characters as the Insert added gives the text back. *)
Theorem insert_then_delete_is_identity (T : string) (ins del : Operation) :
  verify_integrity ins = true -> verify_integrity del = true ->
  op_type ins = INSERT -> op_type del = DELETE ->
  op_position del = op_position ins ->
  op_length del = Text.len (op_text ins) ->
  0 <= op_position ins <= Text.len T ->
  apply_two T ins del = Ok T.
Proof.
  intros Hvi Hvd Hti Htd Hp Hl Hr. unfold apply_two.
  rewrite (apply_operation_verified _ _ Hvi). simpl bind.
  rewrite (apply_operation_verified _ _ Hvd).
  rewrite Hti, Htd, Hp, Hl. f_equal.
  set (n := Z.to_nat (op_position ins)).
  assert (n <= String.length T)%nat as Hn by (unfold n, Text.len in *; lia).
  replace (op_position ins) with (Z.of_nat n) by (unfold n; lia).
  rewrite edit_insert_in_range by exact Hn.
  unfold Text.len at 1.
  assert (String.length (Text.str_take n T) = n) as Hln
    by (rewrite TextFacts.length_str_take; lia).
  rewrite edit_delete_in_range.
  2:{ rewrite !TextFacts.length_app, Hln. lia. }
  rewrite <- Hln at 1. rewrite TextFacts.str_take_app_length.
  rewrite <- TextFacts.str_drop_drop.
  rewrite <- Hln at 2. rewrite TextFacts.str_drop_app_length.
  rewrite TextFacts.str_drop_app_length.
  apply TextFacts.str_take_drop.
Qed.

(** X8. Positions outside the text are clamped: an Insert at or beyond
    the end appends and one at or before 0 prepends; a Delete that starts
    at or beyond the end, or that ends at or before 0, removes nothing. *)
Theorem out_of_range_positions_are_clamped (T : string) (op : Operation) :
  verify_integrity op = true ->
  (op_type op = INSERT -> Text.len T <= op_position op ->
   apply_operation T op = Ok (T +:+ op_text op))
  /\ (op_type op = INSERT -> op_position op <= 0 ->
      apply_operation T op = Ok (op_text op +:+ T))
  /\ (op_type op = DELETE -> Text.len T <= op_position op ->
      apply_operation T op = Ok T)
  /\ (op_type op = DELETE -> op_position op + op_length op <= 0 ->
      apply_operation T op = Ok T).
Proof.
  intros Hv. rewrite (apply_operation_verified _ _ Hv).
  repeat split; intros Ht Hp; rewrite Ht; f_equal.
  - destruct (edit_insert T (op_position op) (op_text op) (op_length op))
      as [_ ->].
    replace (Z.to_nat (Z.max 0 (Z.min (op_position op) (Text.len T))))
      with (String.length T) by (unfold Text.len in *; lia).
    rewrite TextFacts.str_take_all, TextFacts.str_drop_all by lia.
    now rewrite TextFacts.app_empty_r.
  - destruct (edit_insert T (op_position op) (op_text op) (op_length op))
      as [_ ->].
    replace (Z.to_nat (Z.max 0 (Z.min (op_position op) (Text.len T))))
      with 0%nat by (unfold Text.len in *; lia).
    now rewrite TextFacts.str_take_0, TextFacts.str_drop_0.
  - destruct (edit_delete T (op_position op) (op_text op) (op_length op))
      as [_ ->].
    replace (Z.to_nat (Z.max 0 (Z.min (op_position op) (Text.len T))))
      with (String.length T) by (unfold Text.len in *; lia).
    replace (Z.to_nat _) with (String.length T)
      by (unfold Text.len in *; lia).
    rewrite TextFacts.str_take_all, TextFacts.str_drop_all by lia.
    now rewrite TextFacts.app_empty_r.
  - destruct (edit_delete T (op_position op) (op_text op) (op_length op))
      as [_ ->].
    replace (Z.max (Z.max 0 (Z.min (op_position op) (Text.len T)))
                   (Z.min (op_position op + op_length op) (Text.len T)))
      with (Z.max 0 (Z.min (op_position op) (Text.len T)))
      by (unfold Text.len in *; lia).
    apply TextFacts.str_take_drop.
Qed.

End ApplyFacts.

(* ===================================================================== *)
(** * Batches of one and of two operations *)
(* ===================================================================== *)

Section BatchFacts.

Context {hashlib : Hashlib}.

(** The operation with its position shifted by [k]. *)
Definition moved (op : Operation) (k : Z) : Operation :=
  {| op_type := op_type op; op_position := op_position op + k;
     op_text := op_text op; op_length := op_length op;
     op_client_id := op_client_id op;
     op_operation_id := op_operation_id op;
     op_vector_clock := op_vector_clock op;
     op_timestamp := op_timestamp op; op_checksum := op_checksum op |}.

(** The change of the running offset that an operation causes. *)
Definition offset_after (op : Operation) : Z :=
  match op_type op with
  | INSERT => Text.len (op_text op)
  | DELETE => - op_length op
  | RETAIN => 0
  end.

(** The copy that the loop of [apply_operations] builds. *)
Lemma adjusted_copy op k adjusted :
  Operation_new (op_type op) (op_position op + k) (op_text op) (op_length op)
                (op_client_id op) (op_operation_id op) (op_vector_clock op)
                (op_timestamp op) (op_checksum op) = Ok adjusted ->
  op_type adjusted = op_type op
  /\ op_position adjusted = op_position op + k
  /\ op_text adjusted = op_text op
  /\ op_length adjusted = op_length op
  /\ _generate_checksum adjusted = _generate_checksum (moved op k)
  /\ op_checksum adjusted
     = (if Text.is_empty (op_checksum op)
        then _generate_checksum (moved op k) else op_checksum op).
Proof.
  unfold Operation_new. intros H. apply post_init_value in H. simpl in H.
  destruct H as (Ht & Hp & Hx & Hl & _ & _ & _ & _ & Hc).
  assert (_generate_checksum adjusted = _generate_checksum (moved op k)) as Hg
    by (apply checksum_depends_on_content; assumption).
  repeat split; assumption.
Qed.

(** X9. A batch of one operation that passes the guards of the
    constructor and the integrity check is that operation applied. *)
Theorem batch_of_one (T : string) (op : Operation) :
  passes_guards op -> verify_integrity op = true ->
  apply_operations T [op] = apply_operation T op.
Proof.
  intros Hg Hv. unfold apply_operations. simpl sorted.
  cbn [sorted_insert apply_operations_loop].
  destruct (Operation_new (op_type op) (op_position op + 0) (op_text op)
              (op_length op) (op_client_id op) (op_operation_id op)
              (op_vector_clock op) (op_timestamp op) (op_checksum op))
    as [adjusted|e] eqn:E.
  - destruct (adjusted_copy _ _ _ E) as (Ht & Hp & Hx & Hl & Hgen & Hck).
    assert (_generate_checksum (moved op 0) = _generate_checksum op) as Hm
      by (apply checksum_depends_on_content; simpl; try reflexivity; lia).
    assert (verify_integrity adjusted = true) as Hva.
    { apply verify_integrity_iff. rewrite Hck, Hgen, Hm.
      destruct (Text.is_empty (op_checksum op)); [reflexivity|].
      now apply verify_integrity_iff. }
    simpl bind. rewrite (apply_operation_verified _ _ Hva).
    rewrite (apply_operation_verified _ _ Hv). simpl bind.
    rewrite Ht, Hp, Hx, Hl. do 2 f_equal. lia.
  - exfalso. unfold Operation_new in E.
    assert (is_ok (__post_init__
              {| op_type := op_type op; op_position := op_position op + 0;
                 op_text := op_text op; op_length := op_length op;
                 op_client_id := op_client_id op;
                 op_operation_id := op_operation_id op;
                 op_vector_clock := op_vector_clock op;
                 op_timestamp := op_timestamp op;
                 op_checksum := op_checksum op |}) = true) as Hok
      by (apply post_init_ok_iff; exact Hg).
    rewrite E in Hok. discriminate.
Qed.

(** X10. In a batch of two operations the second one is applied only if
    the checksum it carries is the checksum of its content at the shifted
    position: the shifted copy keeps the checksum of the original. *)
Theorem shifted_batch_needs_matching_checksum (T : string)
    (a b : Operation) (r : string) :
  sorted [a; b] = [a; b] ->
  op_checksum b <> "" ->
  apply_operations T [a; b] = Ok r ->
  op_checksum b = _generate_checksum (moved b (offset_after a)).
Proof.
  intros Hs Hck H. unfold apply_operations in H. rewrite Hs in H.
  cbn [apply_operations_loop] in H.
  destruct (Operation_new (op_type a) (op_position a + 0) (op_text a)
              (op_length a) (op_client_id a) (op_operation_id a)
              (op_vector_clock a) (op_timestamp a) (op_checksum a))
    as [adj_a|e]; [|discriminate].
  simpl bind in H.
  destruct (apply_operation T adj_a) as [r1|e]; [|discriminate].
  simpl bind in H.
  match type of H with
  | (try! adjusted_op <- ?new in _) = _ =>
      destruct new as [adj_b|e] eqn:E; [|discriminate]
  end.
  simpl bind in H.
  destruct (apply_operation r1 adj_b) as [r2|e] eqn:Ea; [|discriminate].
  pose proof (apply_ok_verified _ _ _ Ea) as Hv.
  destruct (adjusted_copy _ _ _ E) as (_ & _ & _ & _ & Hgen & Hc).
  apply TextFacts.is_empty_false in Hck. rewrite Hck in Hc.
  apply verify_integrity_iff in Hv. rewrite Hc, Hgen in Hv.
  rewrite Hv. apply checksum_depends_on_content; reflexivity.
Qed.

End BatchFacts.

(* ===================================================================== *)
(** * Cursor positions *)
(* ===================================================================== *)

Section CursorFacts.

Context {hashlib : Hashlib}.

(** X11. [transform_position] keeps the order of positions. *)
Theorem transform_position_monotone (p q : Z) (op : Operation) :
  p <= q -> transform_position p op <= transform_position q op.
Proof.
  intros H. unfold transform_position.
  assert (0 <= Text.len (op_text op)) by (unfold Text.len; lia).
  destruct (op_type op); [lia | |].
  - rewrite !Z.geb_leb.
    destruct (Z.leb_spec (op_position op) p), (Z.leb_spec (op_position op) q);
      lia.
  - rewrite !Z.gtb_ltb.
    destruct (Z.ltb_spec (op_position op + op_length op) p),
             (Z.ltb_spec (op_position op + op_length op) q),
             (Z.ltb_spec (op_position op) p),
             (Z.ltb_spec (op_position op) q); lia.
Qed.

Lemma str_drop_app_ge k a b :
  (String.length a <= k)%nat ->
  Text.str_drop k (a +:+ b) = Text.str_drop (k - String.length a) b.
Proof.
  intros H.
  replace k with (String.length a + (k - String.length a))%nat at 1 by lia.
  rewrite <- TextFacts.str_drop_drop.
  now rewrite TextFacts.str_drop_app_length.
Qed.

(** X12. For an operation applicable to the text and a cursor inside
    the text, the transformed cursor lies inside the new text; the text
    before the cursor is the same when the edit starts after the cursor,
    and the text after the cursor is the same when the edit ends at or
    before it. *)
Theorem cursor_keeps_its_place (T T' : string) (op : Operation) (p : Z) :
  applicable T op -> (op_type op = DELETE -> 0 <= op_length op) ->
  0 <= p <= Text.len T ->
  apply_operation T op = Ok T' ->
  let p' := transform_position p op in
  0 <= p' <= Text.len T'
  /\ match op_type op with
     | INSERT =>
         (p < op_position op -> Text.slice_to T' p' = Text.slice_to T p)
         /\ (op_position op <= p ->
             Text.slice_from T' p' = Text.slice_from T p)
     | DELETE =>
         (p <= op_position op -> Text.slice_to T' p' = Text.slice_to T p)
         /\ (op_position op + op_length op <= p ->
             Text.slice_from T' p' = Text.slice_from T p)
     | RETAIN => p' = p /\ T' = T
     end.
Proof.
  intros (Hv & Hlo & Hhi) Hlen Hp Happ. cbv zeta.
  rewrite (apply_operation_verified _ _ Hv) in Happ. injection Happ as <-.
  unfold affected_range in Hlo, Hhi. simpl in Hlo, Hhi.
  unfold transform_position.
  assert (exists q, p = Z.of_nat q) as [q ->] by (exists (Z.to_nat p); lia).
  assert (exists n, op_position op = Z.of_nat n) as [n Hn]
    by (exists (Z.to_nat (op_position op)); lia).
  rewrite Hn in *. clear Hn.
  unfold Text.len in Hp.
  destruct (op_type op) eqn:Et; simpl in Hhi; unfold Text.len in Hhi.
  - unfold edit. split; [unfold Text.len; lia | split; reflexivity].
  - (* Insert *)
    rewrite edit_insert_in_range by lia.
    set (A := Text.str_take n T). set (B := Text.str_drop n T).
    assert (String.length A = n) as HA
      by (unfold A; rewrite TextFacts.length_str_take; lia).
    assert (String.length B = (String.length T - n)%nat) as HB
      by (unfold B; apply TextFacts.length_str_drop).
    rewrite Z.geb_leb.
    destruct (Z.leb_spec (Z.of_nat n) (Z.of_nat q)) as [Hge|Hlt].
    + split.
      * unfold Text.len. rewrite !TextFacts.length_app, HA, HB. lia.
      * split; [lia|]. intros _.
        replace (Z.of_nat q + Text.len (op_text op))
          with (Z.of_nat (q + String.length (op_text op)))
          by (unfold Text.len; lia).
        rewrite !TextFacts.slice_from_in_range;
          [| lia | rewrite !TextFacts.length_app, HA, HB; lia].
        rewrite str_drop_app_ge by lia.
        rewrite str_drop_app_ge by lia.
        unfold B. rewrite TextFacts.str_drop_drop. f_equal. lia.
    + split.
      * unfold Text.len. rewrite !TextFacts.length_app, HA, HB. lia.
      * split; [|lia]. intros _.
        rewrite !TextFacts.slice_to_in_range;
          [| lia | rewrite !TextFacts.length_app, HA, HB; lia].
        rewrite TextFacts.str_take_app_le by lia.
        unfold A. apply TextFacts.str_take_take. lia.
  - (* Delete *)
    specialize (Hlen eq_refl).
    assert (exists l, op_length op = Z.of_nat l) as [l Hl]
      by (exists (Z.to_nat (op_length op)); lia).
    rewrite Hl in *. clear Hl.
    rewrite edit_delete_in_range by lia.
    set (A := Text.str_take n T). set (B := Text.str_drop (n + l) T).
    assert (String.length A = n) as HA
      by (unfold A; rewrite TextFacts.length_str_take; lia).
    assert (String.length B = (String.length T - (n + l))%nat) as HB
      by (unfold B; apply TextFacts.length_str_drop).
    rewrite !Z.gtb_ltb.
    destruct (Z.ltb_spec (Z.of_nat n + Z.of_nat l) (Z.of_nat q))
      as [Hbeyond|Hnot].
    + split.
      * unfold Text.len. rewrite !TextFacts.length_app, HA, HB. lia.
      * split; [lia|]. intros _.
        replace (Z.of_nat q - Z.of_nat l) with (Z.of_nat (q - l)) by lia.
        rewrite !TextFacts.slice_from_in_range;
          [| lia | rewrite !TextFacts.length_app, HA, HB; lia].
        rewrite str_drop_app_ge by lia.
        unfold B. rewrite TextFacts.str_drop_drop. f_equal. lia.
    + destruct (Z.ltb_spec (Z.of_nat n) (Z.of_nat q)) as [Hin|Hbefore].
      * split.
        -- unfold Text.len. rewrite !TextFacts.length_app, HA, HB. lia.
        -- split; [lia|]. intros Hend.
           rewrite !TextFacts.slice_from_in_range;
             [| lia | rewrite !TextFacts.length_app, HA, HB; lia].
           rewrite str_drop_app_ge by lia.
           unfold B. rewrite TextFacts.str_drop_drop. f_equal. lia.
      * split.
        -- unfold Text.len. rewrite !TextFacts.length_app, HA, HB. lia.
        -- split.
           ++ intros _.
              rewrite !TextFacts.slice_to_in_range;
                [| lia | rewrite !TextFacts.length_app, HA, HB; lia].
              rewrite TextFacts.str_take_app_le by lia.
              unfold A. apply TextFacts.str_take_take. lia.
           ++ intros Hend.
              rewrite !TextFacts.slice_from_in_range;
                [| lia | rewrite !TextFacts.length_app, HA, HB; lia].
              rewrite str_drop_app_ge by lia.
              unfold B. rewrite TextFacts.str_drop_drop. f_equal. lia.
Qed.

End CursorFacts.

(* ===================================================================== *)
(** * What the transformation keeps *)
(* ===================================================================== *)

Section TransformFacts.

Context {hashlib : Hashlib}.

(** What a transformed operation has in common with the operation it
    comes from. *)
Definition transformed_from (op op' : Operation) : Prop :=
  op_client_id op' = op_client_id op
  /\ op_vector_clock op' = op_vector_clock op
  /\ op_timestamp op' = op_timestamp op
  /\ (op_operation_id op <> "" -> op_operation_id op' = op_operation_id op)
  /\ (op_type op' = op_type op
      \/ (op_type op = DELETE /\ op_type op' = RETAIN))
  /\ passes_guards op'
  /\ (verify_integrity op = true -> verify_integrity op' = true).

Lemma transformed_from_refl op : passes_guards op -> transformed_from op op.
Proof. intros H. unfold transformed_from. tauto. Qed.

Lemma transformed_from_trans x y z :
  transformed_from x y -> transformed_from y z -> transformed_from x z.
Proof.
  intros (Hc & Hv & Ht & Hi & Hty & Hg & Hver)
         (Hc' & Hv' & Ht' & Hi' & Hty' & Hg' & Hver').
  unfold transformed_from. repeat split; try congruence; try tauto.
  - intros Hx. rewrite Hi' by (rewrite Hi; assumption). now apply Hi.
  - destruct Hty as [Hty|[Hx Hy]], Hty' as [Hty'|[Hx' Hy']];
      try (left; congruence); try (right; split; congruence).
  - apply Hg'.
  - apply Hg'.
Qed.

Lemma copy_eq vc : VectorClock.copy vc = vc.
Proof. destruct vc. reflexivity. Qed.

(** The constructor called without a checksum, as the transformation
    functions call it. *)
Lemma Operation_new_fresh type p x n c id vc ts :
  ~ (type = INSERT /\ x = "") -> ~ (type = DELETE /\ n <= 0) ->
  exists op', Operation_new type p x n c id vc ts "" = Ok op'
    /\ op_type op' = type /\ op_position op' = p
    /\ op_text op' = x /\ op_length op' = n
    /\ op_client_id op' = c /\ op_vector_clock op' = vc
    /\ op_timestamp op' = ts
    /\ (id <> "" -> op_operation_id op' = id)
    /\ verify_integrity op' = true.
Proof.
  intros H1 H2. unfold Operation_new.
  match goal with |- context [__post_init__ ?f] => set (fields := f) end.
  assert (is_ok (__post_init__ fields) = true) as Hok
    by (apply post_init_ok_iff; split; assumption).
  destruct (__post_init__ fields) as [op'|e] eqn:E; [|discriminate].
  exists op'. pose proof (post_init_verifies _ _ E eq_refl) as Hver.
  apply post_init_value in E. simpl in E.
  destruct E as (? & ? & ? & ? & ? & ? & ? & Hid & _).
  repeat split; try congruence.
  intros Hne. apply TextFacts.is_empty_false in Hne.
  now rewrite Hne in Hid.
Qed.

Lemma passes_guards_of_fields op' :
  ~ (op_type op' = INSERT /\ op_text op' = "") ->
  ~ (op_type op' = DELETE /\ op_length op' <= 0) ->
  passes_guards op'.
Proof. intros H1 H2. split; assumption. Qed.

Lemma moved_insert_from op p :
  passes_guards op -> op_type op = INSERT ->
  exists op', moved_insert op p = Ok op'
    /\ transformed_from op op' /\ op_position op' = p.
Proof.
  intros [Hg _] Ht. unfold moved_insert.
  destruct (Operation_new_fresh (op_type op) p (op_text op) 0
              (op_client_id op) (op_operation_id op)
              (VectorClock.copy (op_vector_clock op)) (op_timestamp op))
    as (op' & E & Hty & Hp & Hx & Hl & Hc & Hv & Hts & Hid & Hver).
  - intros [_ H]. apply Hg. auto.
  - rewrite Ht. intros [H _]. discriminate.
  - exists op'. rewrite copy_eq in Hv.
    split; [exact E|]. split; [|exact Hp].
    unfold transformed_from. repeat split; auto.
    + rewrite Hty, Hx. intros [_ H]. apply Hg. auto.
    + rewrite Hty, Ht. intros [H _]. discriminate.
Qed.

Lemma moved_delete_from type op p n :
  op_type op = DELETE ->
  (type = DELETE /\ 0 < n) \/ type = RETAIN ->
  exists op', moved_delete type op p n = Ok op'
    /\ transformed_from op op' /\ op_type op' = type
    /\ op_position op' = p /\ op_length op' = n
    /\ verify_integrity op' = true.
Proof.
  intros Ht Hn. unfold moved_delete.
  destruct (Operation_new_fresh type p "" n
              (op_client_id op) (op_operation_id op)
              (VectorClock.copy (op_vector_clock op)) (op_timestamp op))
    as (op' & E & Hty & Hp & Hx & Hl & Hc & Hv & Hts & Hid & Hver).
  - intros [H _]. destruct Hn as [[Hn _]|Hn]; congruence.
  - intros [H1 H2]. destruct Hn as [[_ Hn]|Hn]; [lia | congruence].
  - exists op'. rewrite copy_eq in Hv.
    repeat split; auto.
    + destruct Hn as [[Hn _]|Hn]; [left | right]; split || idtac; congruence.
    + intros [H _]. destruct Hn as [[Hn _]|Hn]; congruence.
    + intros [H1 H2]. destruct Hn as [[_ Hn]|Hn]; [lia | congruence].
Qed.

Lemma transform_delete_against_from op other :
  passes_guards op -> op_type op = DELETE ->
  exists op', transform_delete_against op other = Ok op'
    /\ transformed_from op op'.
Proof.
  intros Hg Ht. unfold transform_delete_against.
  assert (0 < op_length op) as Hlen.
  { destruct Hg as [_ Hg].
    destruct (Z.lt_ge_cases 0 (op_length op)); [assumption|].
    exfalso. apply Hg. split; [assumption | lia]. }
  destruct (_ <=? op_position op).
  - destruct (moved_delete_from (op_type op) op
                (op_position op - op_length other) (op_length op) Ht)
      as (op' & E & Hfrom & _); [left; auto | eauto].
  - destruct (_ >=? _).
    + exists op. split; [reflexivity | now apply transformed_from_refl].
    + destruct (_ <=? 0) eqn:En.
      * destruct (moved_delete_from RETAIN op
                    (Z.min (op_position op) (op_position other)) 0 Ht)
          as (op' & E & Hfrom & _); [right; reflexivity | eauto].
      * apply Z.leb_gt in En.
        match goal with
        | |- context [moved_delete _ _ ?p ?n] =>
            destruct (moved_delete_from (op_type op) op p n Ht)
              as (op' & E & Hfrom & _); [left; auto | eauto]
        end.
Qed.

Lemma transform_insert_delete_from i d :
  passes_guards i -> passes_guards d ->
  op_type i = INSERT -> op_type d = DELETE ->
  exists i' d', _transform_insert_delete i d = Ok (i', d')
    /\ transformed_from i i' /\ transformed_from d d'.
Proof.
  intros Hgi Hgd Hti Htd. unfold _transform_insert_delete.
  assert (0 < op_length d) as Hlen.
  { destruct Hgd as [_ Hg].
    destruct (Z.lt_ge_cases 0 (op_length d)); [assumption|].
    exfalso. apply Hg. split; [assumption | lia]. }
  destruct (moved_delete_from (op_type d) d
              (op_position d + Text.len (op_text i)) (op_length d) Htd)
    as (d' & Ed & Hfd & _); [left; auto|].
  destruct (op_position i <=? op_position d).
  - rewrite Ed. exists i, d'. simpl.
    auto using transformed_from_refl.
  - destruct (op_position i >=? _).
    + destruct (moved_insert_from i (op_position i - op_length d) Hgi Hti)
        as (i' & Ei & Hfi & _).
      rewrite Ei. exists i', d. simpl. auto using transformed_from_refl.
    + destruct (moved_insert_from i (op_position d) Hgi Hti)
        as (i' & Ei & Hfi & _).
      rewrite Ei. simpl. rewrite Ed. exists i', d'. simpl. auto.
Qed.

Lemma transform_insert_insert_from a b priority :
  passes_guards a -> passes_guards b ->
  op_type a = INSERT -> op_type b = INSERT ->
  exists a' b', _transform_insert_insert a b priority = Ok (a', b')
    /\ transformed_from a a' /\ transformed_from b b'.
Proof.
  intros Hga Hgb Hta Htb. unfold _transform_insert_insert.
  destruct (moved_insert_from a (op_position a + Text.len (op_text b)) Hga Hta)
    as (a' & Ea & Hfa & _).
  destruct (moved_insert_from b (op_position b + Text.len (op_text a)) Hgb Htb)
    as (b' & Eb & Hfb & _).
  rewrite Ea, Eb. simpl.
  destruct (_ <? _); [exists a, b'; auto using transformed_from_refl|].
  destruct (_ >? _); [exists a', b; auto using transformed_from_refl|].
  destruct (String.eqb _ _);
    [exists a, b' | exists a', b]; auto using transformed_from_refl.
Qed.

Lemma transform_pair_from a b :
  passes_guards a -> passes_guards b ->
  exists a' b', _transform_operation_pair a b = Ok (a', b')
    /\ transformed_from a a' /\ transformed_from b b'.
Proof.
  intros Hga Hgb. unfold _transform_operation_pair.
  destruct (_ || _);
    [exists a, b; auto using transformed_from_refl|].
  destruct (op_type a) eqn:Hta, (op_type b) eqn:Htb;
    try solve [exists a, b; auto using transformed_from_refl].
  - now apply transform_insert_insert_from.
  - now apply transform_insert_delete_from.
  - destruct (transform_insert_delete_from b a Hgb Hga Htb Hta)
      as (b' & a' & E & Hfb & Hfa).
    rewrite E. simpl. eauto.
  - unfold _transform_delete_delete.
    destruct (transform_delete_against_from a b Hga Hta) as (a' & Ea & Hfa).
    destruct (transform_delete_against_from b a Hgb Htb) as (b' & Eb & Hfb).
    rewrite Ea, Eb. simpl. eauto.
Qed.

(** X13. [_transform_operation_pair] does not raise on two operations
    that pass the guards of the constructor; each operation it returns
    keeps the client id, the vector clock and the timestamp of the one it
    comes from and its operation id when that is not empty, has the same
    type or is the Retain that replaces a Delete, passes the guards, and
    passes the integrity check when the original does. *)
Theorem transform_pair_keeps_identity (a b : Operation) :
  passes_guards a -> passes_guards b ->
  exists a' b',
    _transform_operation_pair a b = Ok (a', b')
    /\ transformed_from a a' /\ transformed_from b b'.
Proof.
  intros Hga Hgb. unfold _transform_operation_pair.
  destruct (String.eqb (op_client_id a) (op_client_id b)
            || negb (_operations_conflict a b));
    [exists a, b; auto using transformed_from_refl|].
  destruct (op_type a) eqn:Hta, (op_type b) eqn:Htb;
    try solve [exists a, b; auto using transformed_from_refl].
  - exact (transform_insert_insert_from a b _ Hga Hgb Hta Htb).
  - exact (transform_insert_delete_from a b Hga Hgb Hta Htb).
  - destruct (transform_insert_delete_from b a Hgb Hga Htb Hta)
      as (b' & a' & E & Hfb & Hfa).
    rewrite E. simpl. exists a', b'. auto.
  - unfold _transform_delete_delete.
    destruct (transform_delete_against_from a b Hga Hta) as (a' & Ea & Hfa).
    destruct (transform_delete_against_from b a Hgb Htb) as (b' & Eb & Hfb).
    rewrite Ea, Eb. simpl. exists a', b'. auto.
Qed.

Lemma transform_against_all_from ops2 : forall a,
  passes_guards a -> Forall passes_guards ops2 ->
  exists a', transform_against_all a ops2 = Ok a' /\ transformed_from a a'.
Proof.
  induction ops2 as [|b rest IH]; intros a Hga Hall; simpl.
  - exists a. auto using transformed_from_refl.
  - apply Forall_cons in Hall as [Hgb Hrest].
    destruct (transform_pair_from a b Hga Hgb) as (a' & b' & E & Hfa & _).
    rewrite E. simpl.
    destruct (IH a') as (a'' & E' & Hfa'); [apply Hfa | exact Hrest |].
    exists a''. split; [exact E' | eapply transformed_from_trans; eauto].
Qed.

Lemma transform_all_against_from ops1 : forall b,
  passes_guards b -> Forall passes_guards ops1 ->
  exists b', transform_all_against ops1 b = Ok b' /\ transformed_from b b'.
Proof.
  induction ops1 as [|a rest IH]; intros b Hgb Hall; simpl.
  - exists b. auto using transformed_from_refl.
  - apply Forall_cons in Hall as [Hga Hrest].
    destruct (transform_pair_from a b Hga Hgb) as (a' & b' & E & _ & Hfb).
    rewrite E. simpl.
    destruct (IH b') as (b'' & E' & Hfb'); [apply Hfb | exact Hrest |].
    exists b''. split; [exact E' | eapply transformed_from_trans; eauto].
Qed.

Lemma for_each_from {A B : Type} (P : A -> Prop) (R : A -> B -> Prop)
    (f : A -> Result B) (l : list A) :
  (forall x, P x -> exists y, f x = Ok y /\ R x y) ->
  Forall P l ->
  exists l', for_each f l = Ok l' /\ Forall2 R l l'.
Proof.
  intros Hf. induction l as [|x rest IH]; intros Hall; simpl.
  - exists []. split; [reflexivity | constructor].
  - apply Forall_cons in Hall as [Hx Hrest].
    destruct (Hf x Hx) as (y & -> & Hr).
    destruct (IH Hrest) as (ys & -> & Hrs).
    exists (y :: ys). split; [reflexivity | now constructor].
Qed.

(** X14. [transform_operations] does not raise on two lists of
    operations that pass the guards of the constructor; it returns two
    lists of the lengths of its arguments, whose operations come
    position by position from those of the arguments. *)
Theorem transform_operations_keeps_shape (ops1 ops2 : list Operation) :
  Forall passes_guards ops1 -> Forall passes_guards ops2 ->
  exists ops1' ops2',
    transform_operations ops1 ops2 = Ok (ops1', ops2')
    /\ Forall2 transformed_from ops1 ops1'
    /\ Forall2 transformed_from ops2 ops2'
    /\ List.length ops1' = List.length ops1
    /\ List.length ops2' = List.length ops2.
Proof.
  intros H1 H2. unfold transform_operations.
  assert (forall l, Forall passes_guards l -> Forall2 transformed_from l l)
    as Hrefl.
  { intros l Hl. induction Hl; constructor;
      auto using transformed_from_refl. }
  destruct (is_nil ops1 || is_nil ops2).
  - exists ops1, ops2. auto.
  - destruct (for_each_from passes_guards transformed_from
                (fun op1 => transform_against_all op1 ops2) ops1)
      as (l1 & -> & Hl1); [|exact H1|].
    { intros x Hx. now apply transform_against_all_from. }
    destruct (for_each_from passes_guards transformed_from
                (fun op2 => transform_all_against ops1 op2) ops2)
      as (l2 & -> & Hl2); [|exact H2|].
    { intros x Hx. now apply transform_all_against_from. }
    exists l1, l2. simpl.
    pose proof (Forall2_length _ _ _ Hl1). pose proof (Forall2_length _ _ _ Hl2).
    auto.
Qed.

(** The pairs that [_transform_operation_pair] returns as they came. *)
Definition untouched (a b : Operation) : Prop :=
  op_client_id a = op_client_id b \/ ranges_disjoint a b.

Lemma pair_untouched a b :
  untouched a b -> _transform_operation_pair a b = Ok (a, b).
Proof.
  intros H. unfold _transform_operation_pair.
  destruct (String.eqb (op_client_id a) (op_client_id b)) eqn:E;
    [reflexivity|].
  destruct H as [H|H].
  - apply String.eqb_eq in H. congruence.
  - rewrite (operations_conflict_false_of_disjoint _ _ H). reflexivity.
Qed.

Lemma for_each_id {A : Type} (f : A -> Result A) (l : list A) :
  Forall (fun x => f x = Ok x) l -> for_each f l = Ok l.
Proof.
  induction 1 as [|x rest Hx _ IH]; simpl; [reflexivity|].
  rewrite Hx. simpl. now rewrite IH.
Qed.

(** X15. When every operation of the first list and every operation of
    the second come from the same client or have ranges that do not
    overlap, [transform_operations] returns the two lists as they came;
    two lists of Inserts are such lists. *)
Theorem transform_operations_unchanged (ops1 ops2 : list Operation) :
  (Forall (fun a => Forall (untouched a) ops2) ops1 ->
   transform_operations ops1 ops2 = Ok (ops1, ops2))
  /\ (Forall (fun a => op_type a = INSERT) ops1 ->
      Forall (fun b => op_type b = INSERT) ops2 ->
      transform_operations ops1 ops2 = Ok (ops1, ops2)).
Proof.
  assert (Forall (fun a => Forall (untouched a) ops2) ops1 ->
          transform_operations ops1 ops2 = Ok (ops1, ops2)) as Hmain.
  { intros H. unfold transform_operations.
    destruct (is_nil ops1 || is_nil ops2); [reflexivity|].
    rewrite for_each_id.
    - simpl. rewrite for_each_id; [reflexivity|].
      apply Forall_forall. intros b Hb.
      clear -H Hb. induction H as [|a rest Ha _ IH]; simpl; [reflexivity|].
      rewrite Forall_forall in Ha.
      rewrite (pair_untouched a b) by (apply Ha; exact Hb). simpl. exact IH.
    - eapply Forall_impl; [exact H|]. intros a Ha. simpl.
      clear -Ha. induction Ha as [|b rest Hb _ IH]; simpl; [reflexivity|].
      rewrite (pair_untouched a b Hb). simpl. exact IH. }
  split; [exact Hmain|].
  intros H1 H2. apply Hmain.
  eapply Forall_impl; [exact H1|]. intros a Ha. simpl.
  eapply Forall_impl; [exact H2|]. intros b Hb. simpl.
  right. unfold ranges_disjoint, affected_range. rewrite Ha, Hb. simpl. lia.
Qed.

(** ** Two deletes that overlap *)

Lemma delete_delete_text T (s1 l1 m L : nat) :
  (s1 + l1 <= String.length T)%nat -> (m <= s1)%nat -> (s1 <= m + L)%nat ->
  let T1 := Text.str_take s1 T +:+ Text.str_drop (s1 + l1) T in
  Text.str_take m T1 +:+ Text.str_drop (m + L) T1
  = Text.str_take m T +:+ Text.str_drop (m + L + l1) T.
Proof.
  intros H1 H2 H3. cbv zeta.
  assert (String.length (Text.str_take s1 T) = s1) as HA
    by (rewrite TextFacts.length_str_take; lia).
  rewrite TextFacts.str_take_app_le by lia.
  rewrite TextFacts.str_take_take by lia.
  rewrite str_drop_app_ge by lia.
  rewrite TextFacts.str_drop_drop, HA. do 2 f_equal. lia.
Qed.

(** The text without the characters that either delete removes. *)
Definition without_both (T : string) (a b : Operation) : string :=
  Text.slice_to T (Z.min (op_position a) (op_position b))
  +:+ Text.slice_from T (Z.max (op_position a + op_length a)
                                (op_position b + op_length b)).

Lemma delete_then_transformed T a b :
  op_type a = DELETE -> op_type b = DELETE ->
  applicable T a -> applicable T b ->
  0 < op_length a -> 0 < op_length b ->
  op_position b < op_position a + op_length a ->
  op_position a < op_position b + op_length b ->
  exists b', transform_delete_against b a = Ok b'
    /\ apply_two T a b' = Ok (without_both T a b).
Proof.
  intros Hta Htb (Hva & Hloa & Hhia) (Hvb & Hlob & Hhib) Hla Hlb Hov1 Hov2.
  unfold affected_range in *. rewrite ?Hta, ?Htb in *. simpl in *.
  unfold Text.len in *.
  assert (exists sa, op_position a = Z.of_nat sa) as [sa Hsa]
    by (exists (Z.to_nat (op_position a)); lia).
  assert (exists la, op_length a = Z.of_nat la) as [la Hlena]
    by (exists (Z.to_nat (op_length a)); lia).
  assert (exists sb, op_position b = Z.of_nat sb) as [sb Hsb]
    by (exists (Z.to_nat (op_position b)); lia).
  assert (exists lb, op_length b = Z.of_nat lb) as [lb Hlenb]
    by (exists (Z.to_nat (op_length b)); lia).
  assert (apply_operation T a
          = Ok (Text.str_take sa T +:+ Text.str_drop (sa + la) T)) as Hfirst.
  { rewrite (apply_operation_verified _ _ Hva), Hta, Hsa, Hlena.
    rewrite edit_delete_in_range by lia. reflexivity. }
  unfold without_both, apply_two. rewrite Hfirst. simpl bind.
  set (T1 := Text.str_take sa T +:+ Text.str_drop (sa + la) T).
  assert (String.length T1 = (String.length T - la)%nat) as HT1.
  { unfold T1. rewrite TextFacts.length_app, TextFacts.length_str_take,
      TextFacts.length_str_drop. lia. }
  unfold transform_delete_against.
  destruct (Z.leb_spec (op_position a + op_length a) (op_position b));
    [lia|].
  rewrite Z.geb_leb.
  destruct (Z.leb_spec (op_position b + op_length b) (op_position a));
    [lia|].
  rewrite Hsa, Hsb, Hlena, Hlenb in *.
  set (new_length :=
         Z.of_nat lb
         - Z.max 0 (Z.min (Z.of_nat sb + Z.of_nat lb) (Z.of_nat sa + Z.of_nat la)
                    - Z.max (Z.of_nat sb) (Z.of_nat sa))).
  destruct (Z.leb_spec new_length 0) as [Hin|Hout].
  - destruct (moved_delete_from RETAIN b
                (Z.min (Z.of_nat sb) (Z.of_nat sa)) 0 Htb)
      as (b' & E & _ & Hty & Hp & Hl & Hver); [right; reflexivity|].
    exists b'. split; [exact E|].
    rewrite (apply_operation_verified _ _ Hver), Hty. unfold edit.
    f_equal. unfold new_length in Hin.
    replace (Z.min (Z.of_nat sa) (Z.of_nat sb)) with (Z.of_nat sa) by lia.
    replace (Z.max (Z.of_nat sa + Z.of_nat la) (Z.of_nat sb + Z.of_nat lb))
      with (Z.of_nat (sa + la)) by lia.
    rewrite TextFacts.slice_to_in_range, TextFacts.slice_from_in_range by lia.
    reflexivity.
  - destruct (moved_delete_from (op_type b) b
                (Z.min (Z.of_nat sb) (Z.of_nat sa)) new_length Htb)
      as (b' & E & _ & Hty & Hp & Hl & Hver); [left; auto|].
    exists b'. split; [exact E|].
    rewrite (apply_operation_verified _ _ Hver), Hty, Htb, Hp, Hl.
    f_equal. unfold new_length in *.
    assert (exists m, Z.min (Z.of_nat sb) (Z.of_nat sa) = Z.of_nat m)
      as [m Hm] by (exists (Nat.min sb sa); lia).
    assert (exists L,
              Z.of_nat lb
              - Z.max 0 (Z.min (Z.of_nat sb + Z.of_nat lb)
                               (Z.of_nat sa + Z.of_nat la)
                         - Z.max (Z.of_nat sb) (Z.of_nat sa)) = Z.of_nat L)
      as [L HL].
    { match goal with
      | |- exists L, ?z = _ => exists (Z.to_nat z); lia
      end. }
    rewrite Hm, HL in *.
    rewrite edit_delete_in_range by lia.
    unfold T1. rewrite delete_delete_text by lia.
    replace (Z.min (Z.of_nat sa) (Z.of_nat sb)) with (Z.of_nat m) by lia.
    replace (Z.max (Z.of_nat sa + Z.of_nat la) (Z.of_nat sb + Z.of_nat lb))
      with (Z.of_nat (m + L + la)) by lia.
    rewrite TextFacts.slice_to_in_range, TextFacts.slice_from_in_range by lia.
    reflexivity.
Qed.

Lemma without_both_comm T a b : without_both T a b = without_both T b a.
Proof. unfold without_both. now rewrite Z.min_comm, Z.max_comm. Qed.

(** X16. Two Deletes of different clients that lie inside the text and
    overlap are transformed so that both orders of application give the
    same text: the text without the characters that either removes. *)
Theorem overlapping_deletes_converge (T : string) (a b : Operation) :
  op_type a = DELETE -> op_type b = DELETE ->
  op_client_id a <> op_client_id b ->
  applicable T a -> applicable T b ->
  0 < op_length a -> 0 < op_length b ->
  op_position b < op_position a + op_length a ->
  op_position a < op_position b + op_length b ->
  exists a' b',
    _transform_operation_pair a b = Ok (a', b')
    /\ apply_two T a b' = Ok (without_both T a b)
    /\ apply_two T b a' = Ok (without_both T a b).
Proof.
  intros Hta Htb Hc Ha Hb Hla Hlb Hov1 Hov2.
  destruct (delete_then_transformed T a b) as (b' & Eb & Hab); auto.
  destruct (delete_then_transformed T b a) as (a' & Ea & Hba); auto.
  exists a', b'. rewrite (without_both_comm T b a) in Hba.
  split; [|split; assumption].
  unfold _transform_operation_pair.
  apply String.eqb_neq in Hc. rewrite Hc.
  assert (_operations_conflict a b = true) as ->.
  { unfold _operations_conflict. rewrite Hta, Htb. simpl.
    apply negb_true_iff, orb_false_iff. split; apply Z.leb_gt; lia. }
  simpl. rewrite Hta, Htb. unfold _transform_delete_delete.
  rewrite Ea, Eb. reflexivity.
Qed.

End TransformFacts.

(* ===================================================================== *)
(** * The buffer over many calls *)
(* ===================================================================== *)

Section BufferFacts.

Context {hashlib : Hashlib}.

(** The states of the buffer built by [OperationBuffer(initial_content,
    client)] and then changed by any calls of its two methods. *)
Inductive reachable_from (initial_content client : string)
  : OperationBuffer -> Prop :=
| from_init :
    reachable_from initial_content client
                   (OperationBuffer_init initial_content client)
| from_local self operation :
    reachable_from initial_content client self ->
    reachable_from initial_content client
                   (fst (apply_local_operation self operation))
| from_remote self operation :
    reachable_from initial_content client self ->
    reachable_from initial_content client
                   (fst (apply_remote_operation self operation)).

(** What a call does to content, history and counter: nothing, or one
    operation applied, appended and counted. *)
Definition call_effect (self self' : OperationBuffer) : Prop :=
  client_id self' = client_id self
  /\ ((operation_history self' = operation_history self
       /\ content self' = content self
       /\ operations_processed self' = operations_processed self)
      \/ exists op',
           operation_history self' = operation_history self ++ [op']
           /\ apply_operation (content self) op' = Ok (content self')
           /\ operations_processed self' = operations_processed self + 1).

Lemma apply_local_operation_effect self operation :
  call_effect self (fst (apply_local_operation self operation)).
Proof.
  unfold apply_local_operation, call_effect.
  match goal with |- context [apply_operation ?t ?o] =>
    destruct (apply_operation t o) as [c'|e] eqn:E end; simpl.
  - split; [reflexivity|]. right. eexists. repeat split. exact E.
  - split; [reflexivity|]. left. auto.
Qed.

Lemma apply_remote_operation_effect self operation :
  call_effect self (fst (apply_remote_operation self operation)).
Proof.
  unfold apply_remote_operation, call_effect.
  destruct (negb (verify_integrity operation)); simpl; [auto|].
  destruct (negb (is_nil (pending_operations self))).
  - destruct (transform_operations [operation] (pending_operations self))
      as [[l1 l2]|e]; simpl; [|auto].
    destruct l1 as [|op' l1]; simpl; [auto|].
    destruct (apply_operation (content self) op') as [c'|e] eqn:E; simpl;
      [|auto].
    split; [reflexivity|]. right. exists op'. auto.
  - destruct (apply_operation (content self) operation) as [c'|e] eqn:E;
      simpl; [|auto].
    split; [reflexivity|]. right. exists operation. auto.
Qed.

Lemma apply_in_order_app T l op :
  apply_in_order T (l ++ [op])
  = try! t <- apply_in_order T l in apply_operation t op.
Proof.
  revert T; induction l as [|x l IH]; intros T; simpl.
  - destruct (apply_operation T op); reflexivity.
  - destruct (apply_operation T x); simpl; [apply IH | reflexivity].
Qed.

Lemma call_effect_invariant initial_content self self' :
  call_effect self self' ->
  apply_in_order initial_content (operation_history self) = Ok (content self)
  /\ operations_processed self
     = Z.of_nat (List.length (operation_history self)) ->
  apply_in_order initial_content (operation_history self') = Ok (content self')
  /\ operations_processed self'
     = Z.of_nat (List.length (operation_history self')).
Proof.
  intros [_ [(Hh & Hc & Hn)|(op' & Hh & Hc & Hn)]] [Hr Hp].
  - rewrite Hh, Hc, Hn. auto.
  - rewrite Hh, Hn, apply_in_order_app, Hr, length_app. simpl.
    split; [exact Hc | lia].
Qed.

(** X17. In every state of a buffer, replaying the history from the
    first operation on the initial content returns the current content
    without raising, the counter [operations_processed] is the length of
    the history, and the client id is the one the buffer was built
    with. *)
Theorem history_replays_to_content (initial_content client : string)
    (self : OperationBuffer) :
  reachable_from initial_content client self ->
  apply_in_order initial_content (operation_history self) = Ok (content self)
  /\ operations_processed self
     = Z.of_nat (List.length (operation_history self))
  /\ client_id self = client.
Proof.
  induction 1 as [|self op _ IH|self op _ IH].
  - simpl. auto.
  - destruct IH as (Hr & Hn & Hc).
    pose proof (apply_local_operation_effect self op) as He.
    destruct (call_effect_invariant initial_content _ _ He (conj Hr Hn)).
    destruct He as [-> _]. auto.
  - destruct IH as (Hr & Hn & Hc).
    pose proof (apply_remote_operation_effect self op) as He.
    destruct (call_effect_invariant initial_content _ _ He (conj Hr Hn)).
    destruct He as [-> _]. auto.
Qed.

(** X18. No call lowers a counter of the buffer's vector clock. A local
    call raises the counter of the buffer's own client by exactly one,
    also when it raises the integrity error and leaves content and
    history as they were; a local call that returns records the
    operation under the buffer's client id and its new clock. *)
Theorem clock_never_goes_back (self : OperationBuffer)
    (operation : Operation) :
  let local := apply_local_operation self operation in
  let remote := apply_remote_operation self operation in
  (forall c,
     VectorClock.get (vector_clock self) c
     <= VectorClock.get (vector_clock (fst local)) c)
  /\ (forall c,
        VectorClock.get (vector_clock self) c
        <= VectorClock.get (vector_clock (fst remote)) c)
  /\ VectorClock.get (vector_clock (fst local)) (client_id self)
     = VectorClock.get (vector_clock self) (client_id self) + 1
  /\ (is_ok (snd local) = verify_integrity operation)
  /\ (verify_integrity operation = false ->
      content (fst local) = content self
      /\ operation_history (fst local) = operation_history self)
  /\ (verify_integrity operation = true ->
      exists recorded,
        operation_history (fst local) = operation_history self ++ [recorded]
        /\ op_client_id recorded = client_id self
        /\ op_vector_clock recorded = vector_clock (fst local)).
Proof.
  cbv zeta.
  assert (vector_clock (fst (apply_local_operation self operation))
          = VectorClock.increment (vector_clock self) (client_id self)) as Hl.
  { unfold apply_local_operation.
    match goal with |- context [apply_operation ?t ?o] =>
      destruct (apply_operation t o) end; reflexivity. }
  assert (vector_clock (fst (apply_remote_operation self operation))
          = vector_clock self
          \/ vector_clock (fst (apply_remote_operation self operation))
             = VectorClock.update (vector_clock self)
                                  (op_vector_clock operation)) as Hr.
  { unfold apply_remote_operation.
    destruct (negb (verify_integrity operation)); simpl; [auto|].
    destruct (negb (is_nil (pending_operations self))).
    - destruct (transform_operations [operation] (pending_operations self))
        as [[l1 l2]|e]; simpl; [|auto].
      destruct l1 as [|op' l1]; simpl; [auto|].
      destruct (apply_operation (content self) op'); simpl; auto.
    - destruct (apply_operation (content self) operation); simpl; auto. }
  split; [|split; [|split; [|split; [|split]]]].
  - intros c. rewrite Hl, VectorClockFacts.get_increment.
    destruct (decide (client_id self = c)) as [->|]; lia.
  - intros c. destruct Hr as [->| ->];
      [lia | apply VectorClockMerge.get_update_ge].
  - rewrite Hl, VectorClockFacts.get_increment.
    destruct (decide (client_id self = client_id self)); [reflexivity|].
    contradiction.
  - unfold apply_local_operation.
    match goal with |- context [apply_operation ?t ?o] =>
      assert (verify_integrity o = verify_integrity operation) as Hv
        by reflexivity;
      destruct (verify_integrity operation) eqn:Ev;
      [rewrite (apply_operation_verified t o Hv)
      |rewrite (apply_operation_unverified t o Hv)]
    end; reflexivity.
  - intros Ev. unfold apply_local_operation.
    match goal with |- context [apply_operation ?t ?o] =>
      assert (verify_integrity o = false) as Hv by exact Ev;
      rewrite (apply_operation_unverified t o Hv)
    end. simpl. auto.
  - intros Ev. unfold apply_local_operation.
    match goal with |- context [apply_operation ?t ?o] =>
      assert (verify_integrity o = true) as Hv by exact Ev;
      rewrite (apply_operation_verified t o Hv)
    end. simpl. eexists. split; [reflexivity|]. split; [reflexivity|].
    simpl. unfold VectorClock.copy. simpl. reflexivity.
Qed.

(** The loop of [handle_text_change] over the operations of an edit:
    [for operation in operations: transformed_content =
    buffer.apply_local_operation(operation)], stopping at the first
    exception. The vector clock that the loop assigns to the operation
    before the call is replaced inside [apply_local_operation]. *)
Fixpoint apply_local_all (self : OperationBuffer)
    (transformed_content : string) (operations : list Operation)
  : OperationBuffer * Result string :=
  match operations with
  | [] => (self, Ok transformed_content)
  | operation :: rest =>
      match apply_local_operation self operation with
      | (self', Ok transformed_content') =>
          apply_local_all self' transformed_content' rest
      | (self', Raise e) => (self', Raise e)
      end
  end.

Lemma apply_local_all_replays ops : forall self T T',
  content self = T ->
  apply_in_order T ops = Ok T' ->
  snd (apply_local_all self T ops) = Ok T'
  /\ content (fst (apply_local_all self T ops)) = T'
  /\ List.length (operation_history (fst (apply_local_all self T ops)))
     = (List.length (operation_history self) + List.length ops)%nat.
Proof.
  induction ops as [|op rest IH]; intros self T T' Hc H.
  - simpl in *. injection H as <-. repeat split; [exact Hc | lia].
  - cbn [apply_in_order] in H.
    destruct (apply_operation T op) as [T1|e] eqn:E; [|discriminate].
    simpl bind in H.
    pose proof (apply_ok_verified _ _ _ E) as Hv.
    rewrite (apply_operation_verified _ _ Hv) in E. injection E as E.
    cbn [apply_local_all]. unfold apply_local_operation.
    match goal with |- context [apply_operation ?t ?o] =>
      assert (verify_integrity o = true) as Hv' by exact Hv;
      rewrite (apply_operation_verified t o Hv')
    end.
    cbn [op_type op_position op_text op_length].
    rewrite Hc, E.
    match goal with |- context [apply_local_all ?b T1 rest] =>
      destruct (IH b T1 T' eq_refl H) as (H1 & H2 & H3)
    end.
    split; [exact H1|]. split; [exact H2|].
    rewrite H3. cbn [operation_history]. rewrite length_app. simpl. lia.
Qed.

Arguments edit : simpl never.

(** The operations of an edit, applied in order, turn the old text into
    the new one. *)
Lemma parse_edit_applies clock old_text new_text client_id :
  exists ops,
    parse_edit_to_operations clock old_text new_text client_id = Ok ops
    /\ apply_in_order old_text ops = Ok new_text.
Proof.
  unfold parse_edit_to_operations.
  destruct (String.eqb old_text new_text) eqn:Eeq.
  { apply String.eqb_eq in Eeq. subst. exists []. split; reflexivity. }
  apply String.eqb_neq in Eeq.
  pose proof (diff_decomposition old_text new_text) as Hd. cbv zeta in Hd.
  set (lo := String.length old_text) in *.
  set (ln := String.length new_text) in *.
  set (min_len := Nat.min lo ln) in *.
  set (p := prefix_loop min_len old_text new_text min_len 0) in *.
  set (s := suffix_loop (min_len - p) old_text new_text min_len p lo ln 0) in *.
  destruct Hd as (Hp & Hlo & Hln & Htake & Hdrop).
  rewrite !TextFacts.slice_in_range by (fold lo ln; lia).
  fold lo ln.
  set (om := Text.str_take (lo - s - p) (Text.str_drop p old_text)).
  set (nm := Text.str_take (ln - s - p) (Text.str_drop p new_text)).
  assert (String.length om = (lo - s - p)%nat) as Hlom.
  { unfold om. rewrite TextFacts.length_str_take, TextFacts.length_str_drop. fold lo. lia. }
  assert (String.length nm = (ln - s - p)%nat) as Hlnm.
  { unfold nm. rewrite TextFacts.length_str_take, TextFacts.length_str_drop. fold ln. lia. }
  assert (new_text = Text.str_take p old_text +:+ nm
                     +:+ Text.str_drop (lo - s) old_text) as Hnew.
  { rewrite Htake, Hdrop. unfold nm. apply split_three. lia. }
  assert (old_text = Text.str_take p old_text +:+ om
                     +:+ Text.str_drop (lo - s) old_text) as Hold.
  { unfold om. apply split_three. lia. }
  unfold create_delete_operation, create_insert_operation, Text.len.
  rewrite !is_empty_length, Hlom, Hlnm.
  destruct (lo - s - p =? 0)%nat eqn:Eo; destruct (ln - s - p =? 0)%nat eqn:En;
    simpl negb; cbv iota; simpl andb; cbv iota.
  - (* both middles empty: the texts would be equal *)
    exfalso. apply Eeq. apply Nat.eqb_eq in Eo, En.
    rewrite Hold, Hnew.
    assert (om = "") as ->
      by (apply TextFacts.is_empty_true; rewrite is_empty_length, Hlom;
          now apply Nat.eqb_eq).
    assert (nm = "") as ->
      by (apply TextFacts.is_empty_true; rewrite is_empty_length, Hlnm;
          now apply Nat.eqb_eq).
    reflexivity.
  - (* pure insertion *)
    apply Nat.eqb_eq in Eo. apply Nat.eqb_neq in En.
    rewrite Operation_new_authored.
    2:{ intros [_ H]. apply TextFacts.is_empty_true in H.
        rewrite is_empty_length, Hlnm in H. apply Nat.eqb_eq in H. lia. }
    2:{ intros [H _]. discriminate. }
    simpl bind. eexists. split; [reflexivity|].
    simpl apply_in_order.
    rewrite apply_operation_authored. simpl bind.
    rewrite edit_insert_in_range by (fold lo; lia).
    f_equal. symmetry. etransitivity; [exact Hnew|].
    do 2 f_equal. f_equal. lia.
  - (* pure deletion *)
    apply Nat.eqb_neq in Eo. apply Nat.eqb_eq in En.
    rewrite Operation_new_authored.
    2:{ intros [H _]. discriminate. }
    2:{ intros [_ H]. lia. }
    simpl bind. eexists. split; [reflexivity|].
    simpl apply_in_order.
    rewrite apply_operation_authored. simpl bind.
    rewrite edit_delete_in_range by (fold lo; lia).
    f_equal. symmetry. etransitivity; [exact Hnew|].
    assert (nm = "") as ->
      by (apply TextFacts.is_empty_true; rewrite is_empty_length, Hlnm;
          now apply Nat.eqb_eq).
    rewrite TextFacts.app_nil. do 2 f_equal. lia.
  - (* replacement *)
    apply Nat.eqb_neq in Eo. apply Nat.eqb_neq in En.
    rewrite Operation_new_authored.
    2:{ intros [H _]. discriminate. }
    2:{ intros [_ H]. lia. }
    simpl bind. rewrite Operation_new_authored.
    2:{ intros [_ H]. apply TextFacts.is_empty_true in H.
        rewrite is_empty_length, Hlnm in H. apply Nat.eqb_eq in H. lia. }
    2:{ intros [H _]. discriminate. }
    simpl bind. eexists. split; [reflexivity|].
    simpl apply_in_order.
    rewrite apply_operation_authored. simpl bind.
    rewrite apply_operation_authored.
    rewrite edit_delete_in_range by (fold lo; lia).
    replace (p + (lo - s - p))%nat with (lo - s)%nat by lia.
    rewrite edit_insert_in_range.
    2:{ rewrite TextFacts.length_app, TextFacts.length_str_take. fold lo. lia. }
    simpl bind. f_equal. symmetry. etransitivity; [exact Hnew|].
    assert (String.length (Text.str_take p old_text) = p) as Hlp
      by (rewrite TextFacts.length_str_take; fold lo; lia).
    set (pre := Text.str_take p old_text) in *.
    set (suf := Text.str_drop (lo - s) old_text) in *.
    rewrite <- Hlp at 1 2.
    rewrite TextFacts.str_take_app_length, TextFacts.str_drop_app_length. reflexivity.
Qed.

(** X25. Whatever the state of a buffer, the operations that
    [parse_edit_to_operations] computes from the buffer's content and a
    new text are all accepted by [apply_local_operation], applied one
    after the other they leave the new text as the buffer's content, and
    each is appended to the history. *)
Theorem diff_applies_locally (clock : nat -> Q) (self : OperationBuffer)
    (new_text user_id : string) :
  exists ops,
    parse_edit_to_operations clock (content self) new_text user_id = Ok ops
    /\ snd (apply_local_all self (content self) ops) = Ok new_text
    /\ content (fst (apply_local_all self (content self) ops)) = new_text
    /\ List.length (operation_history
                      (fst (apply_local_all self (content self) ops)))
       = (List.length (operation_history self) + List.length ops)%nat.
Proof.
  destruct (parse_edit_applies clock (content self) new_text user_id)
    as (ops & Hparse & Happly).
  exists ops. split; [exact Hparse|].
  destruct (apply_local_all_replays ops self (content self) new_text
              eq_refl Happly) as (H1 & H2 & H3).
  auto.
Qed.

End BufferFacts.

(* ===================================================================== *)
(** * The rate limit refuses nothing below the budget *)
(* ===================================================================== *)

Module ManagerCompleteness.
Import Manager ManagerProperties.
Local Open Scope Q_scope.

(** The deque holds its entries in the order of the clock, none later
    than [last]. *)
Fixpoint ascending (D : list Q) : Prop :=
  match D with
  | [] => True
  | x :: rest => Forall (Qle x) rest /\ ascending rest
  end.

Definition kept_in_order (D : list Q) (last : Q) : Prop :=
  ascending D /\ Forall (fun x => x <= last) D.

Lemma filter_all {A : Type} (f : A -> bool) (l : list A) :
  Forall (fun x => f x = true) l -> List.filter f l = l.
Proof.
  induction 1 as [|x l Hx _ IH]; simpl; [reflexivity|].
  now rewrite Hx, IH.
Qed.

Lemma popleft_is_filter c D :
  ascending D -> popleft_while_older c D = List.filter (Qle_bool c) D.
Proof.
  induction D as [|x D IH]; intros Hs; [reflexivity|].
  destruct Hs as [Hx Hs]. cbn [popleft_while_older].
  destruct (Qltb x c) eqn:E.
  - apply Qltb_lt in E. cbn [List.filter].
    assert (Qle_bool c x = false) as -> by (apply Qle_bool_false; lra).
    now apply IH.
  - apply Qltb_ge in E. symmetry. apply filter_all. constructor.
    + apply Qle_bool_iff. exact E.
    + eapply Forall_impl; [exact Hx|]. intros y Hy. simpl in Hy.
      apply Qle_bool_iff. lra.
Qed.

Lemma popleft_kept c D last :
  kept_in_order D last -> kept_in_order (popleft_while_older c D) last.
Proof.
  induction D as [|x D IH]; intros [Hs Hl]; [split; constructor|].
  cbn [popleft_while_older]. destruct (Qltb x c).
  - apply IH. destruct Hs as [_ Hs]. apply Forall_cons in Hl as [_ Hl].
    split; assumption.
  - split; assumption.
Qed.

Lemma kept_append D last t :
  kept_in_order D last -> last <= t -> kept_in_order (D ++ [t]) t.
Proof.
  intros [Hs Hl] Ht. split.
  - induction D as [|x D IH]; simpl; [split; constructor|].
    destruct Hs as [Hx Hs]. apply Forall_cons in Hl as [Hxl Hl].
    split; [|now apply IH].
    apply Forall_app. split; [exact Hx|].
    constructor; [lra | constructor].
  - apply Forall_app. split.
    + eapply Forall_impl; [exact Hl|]. intros y Hy. simpl in Hy. lra.
    + constructor; [lra | constructor].
Qed.

Lemma kept_later D last last' :
  last <= last' -> kept_in_order D last -> kept_in_order D last'.
Proof.
  intros H [Hs Hl]. split; [exact Hs|].
  eapply Forall_impl; [exact Hl|]. intros y Hy. simpl in Hy. lra.
Qed.

Lemma check_keeps_order rl user u t last :
  last <= t ->
  kept_in_order (requests_of rl user) last ->
  kept_in_order (requests_of (fst (_check_rate_limit rl u t 100 60)) user) t.
Proof.
  intros Ht Hk.
  pose proof (check_rate_limit_cases rl u t) as Hc. cbv zeta in Hc.
  destruct (decide (u = user)) as [->|Hne].
  - destruct Hc as [[_ ->]|[_ ->]]; cbn [fst]; rewrite requests_of_insert_eq.
    + eapply kept_later; [exact Ht | now apply popleft_kept].
    + eapply kept_append; [apply popleft_kept; exact Hk | exact Ht].
  - destruct Hc as [[_ ->]|[_ ->]]; cbn [fst];
      rewrite requests_of_insert_ne by exact Hne;
      (eapply kept_later; [exact Ht | exact Hk]).
Qed.

(** What a run keeps true of the accepted requests [A] of a user and of
    the deque [D] kept for the user. *)
Definition inv (A D : list Q) (last : Q) : Prop :=
  agrees A D last /\ within_budget A /\ kept_in_order D last.

Lemma last_cons (t : Q) (l : list Q) (d : Q) :
  List.last (t :: l) d = List.last l t.
Proof.
  revert t d. induction l as [|y l IH]; intros t d; [reflexivity|].
  change (List.last (t :: y :: l) d) with (List.last (y :: l) d).
  now rewrite (IH y d), (IH y t).
Qed.

Lemma run_invariant user self trace self' :
  run self trace self' ->
  forall A last,
    nondecreasing_from last (times trace) ->
    inv A (requests_of (rate_limits self) user) last ->
    inv (A ++ allowed_times user trace)
        (requests_of (rate_limits self') user)
        (List.last (times trace) last).
Proof.
  induction 1 as [self | self l self' trace self'' Hstep Hrun IH];
    intros A last Hnd (Hag & Hb & Hk).
  - simpl. rewrite app_nil_r. exact (conj Hag (conj Hb Hk)).
  - rewrite allowed_times_cons, app_assoc.
    destruct Hstep as [handlers self ws msg t1 t info Hkeeps Hinfo
                      | handlers self ws msg t1 t Hnone
                      | self self' t Hrl
                      | self self' Hrl].
    + simpl in Hnd. destruct Hnd as [Hle Hnd].
      destruct (check_step A (rate_limits self) user (user_id info) t last
                           Hle Hag Hb) as [Hag' Hb'].
      cbn [times]. rewrite last_cons.
      apply IH; [exact Hnd|].
      rewrite (handle_message_rate_limits _ _ _ _ _ _ _ Hkeeps Hinfo).
      exact (conj Hag' (conj Hb' (check_keeps_order _ _ _ _ _ Hle Hk))).
    + simpl. rewrite app_nil_r. apply IH; [exact Hnd|].
      unfold handle_message. rewrite Hnone. exact (conj Hag (conj Hb Hk)).
    + simpl in Hnd. destruct Hnd as [Hle Hnd].
      cbn [times allowed_times]. rewrite app_nil_r, last_cons.
      apply IH; [exact Hnd|].
      rewrite Hrl, requests_of_cleanup. split; [|split; [exact Hb|]].
      * intros c Hc. rewrite filter_popleft by lra. apply Hag. lra.
      * eapply kept_later; [exact Hle | now apply popleft_kept].
    + simpl. rewrite app_nil_r. apply IH; [exact Hnd|].
      rewrite Hrl. exact (conj Hag (conj Hb Hk)).
Qed.

Lemma run_app_inv self l1 l2 self' :
  run self (l1 ++ l2) self' ->
  exists m, run self l1 m /\ run m l2 self'.
Proof.
  revert self. induction l1 as [|l l1 IH]; intros self H; simpl in H.
  - exists self. split; [constructor | exact H].
  - inversion H as [|? ? m' ? ? Hstep Hrun]; subst.
    destruct (IH _ Hrun) as (m & H1 & H2).
    exists m. split; [econstructor; eassumption | exact H2].
Qed.

Lemma times_app l1 l2 : times (l1 ++ l2) = times l1 ++ times l2.
Proof.
  induction l1 as [|[u t b| |t|] l1 IH]; simpl; try rewrite IH; reflexivity.
Qed.

Lemma nondecreasing_from_snoc last l t :
  nondecreasing_from last (l ++ [t]) ->
  nondecreasing_from last l /\ List.last l last <= t.
Proof.
  revert last. induction l as [|x l IH]; intros last H.
  - simpl in *. split; [exact I | tauto].
  - change ((x :: l) ++ [t]) with (x :: (l ++ [t])) in H.
    destruct H as [Hx H]. destruct (IH _ H) as [H1 H2].
    rewrite last_cons. split; [split; assumption | exact H2].
Qed.

(** X19. From a manager with no rate-limit entries, along any run whose
    clock readings do not decrease, a message of a user is refused only
    when exactly 100 earlier messages of that user passed the check in
    the 60 seconds up to it. *)
Theorem refusal_only_at_budget self0 pre user t post self :
  rate_limits self0 = ∅ ->
  run self0 (pre ++ Handled user t false :: post) self ->
  nondecreasing (times (pre ++ [Handled user t false])) ->
  length (List.filter (in_window (t - 60)) (allowed_times user pre)) = 100%nat.
Proof.
  intros Hempty Hrun Hnd.
  apply run_app_inv in Hrun as (m & Hpre & Hrest).
  rewrite times_app in Hnd. cbn [times] in Hnd.
  assert (exists last, nondecreasing_from last (times pre ++ [t]))
    as [last Hlast].
  { unfold nondecreasing in Hnd.
    destruct (times pre ++ [t]) as [|t0 ts] eqn:E.
    - exists 0. exact I.
    - exists t0. split; [lra | exact Hnd]. }
  apply nondecreasing_from_snoc in Hlast as [Hlast Hle].
  assert (inv [] (requests_of (rate_limits self0) user) last) as Hinit.
  { rewrite Hempty. split; [intros c _; reflexivity|].
    split; [intros w; simpl; lia|]. split; constructor. }
  pose proof (run_invariant user _ _ _ Hpre [] last Hlast Hinit) as Hinv.
  simpl in Hinv. destruct Hinv as (Hag & Hb & Hs & Hl).
  set (A := allowed_times user pre) in *.
  set (D := requests_of (rate_limits m) user) in *.
  inversion Hrest as [|? ? m' ? ? Hstep _]; subst.
  inversion Hstep as [handlers ? ws msg t1 ? info Hkeeps Hinfo Hu| | |];
    subst.
  match goal with H : snd _ = false |- _ => rename H into Hno end.
  pose proof (check_rate_limit_cases (rate_limits m) (user_id info) t) as Hc.
  cbv zeta in Hc. fold D in Hc.
  destruct Hc as [[Hlen _]|[_ Heq]]; [|rewrite Heq in Hno; discriminate].
  rewrite (popleft_is_filter _ _ Hs) in Hlen.
  assert (List.filter (in_window (t - 60)) A
          = List.filter (fun x => Qle_bool x (t - 60 + 60))
                        (List.filter (Qle_bool (t - 60)) A)) as HA.
  { clear. induction A as [|x A IH]; simpl; [reflexivity|].
    unfold in_window at 1.
    destruct (Qle_bool (t - 60) x); simpl; rewrite IH; reflexivity. }
  pose proof (Hb (t - 60)) as Hub.
  assert (List.filter (fun x => Qle_bool x (t - 60 + 60))
                      (List.filter (Qle_bool (t - 60)) D)
          = List.filter (Qle_bool (t - 60)) D) as Hall.
  { apply filter_all, List.Forall_forall. intros x Hx.
    apply List.filter_In in Hx as [Hx _].
    rewrite List.Forall_forall in Hl. specialize (Hl x Hx). simpl in Hl.
    apply Qle_bool_iff. lra. }
  rewrite HA in Hub |- *.
  rewrite (Hag (t - 60)) in Hub |- * by lra.
  rewrite Hall in Hub |- *. lia.
Qed.

End ManagerCompleteness.

(* ===================================================================== *)
(** * The throughput figures *)
(* ===================================================================== *)

Module MetricsFacts.
Import Metrics.
Local Open Scope Q_scope.

(** The states of [PerformanceMetrics] built by the constructor and then
    changed by the two counters and by [_calculate_throughput]. *)
Inductive metrics_reachable : PerformanceMetrics -> Prop :=
| metrics_init : metrics_reachable PerformanceMetrics_init
| metrics_operation self t :
    metrics_reachable self ->
    metrics_reachable (increment_operation_count self t)
| metrics_message self t :
    metrics_reachable self ->
    metrics_reachable (increment_message_count self t)
| metrics_throughput self t :
    metrics_reachable self ->
    metrics_reachable (_calculate_throughput self t).

Lemma length_deque_append n D x :
  (length D <= n)%nat -> (0 < n)%nat ->
  (length (Manager.deque_append n D x) <= n)%nat.
Proof.
  intros H Hn. unfold Manager.deque_append.
  destruct (Nat.ltb_spec (length D) n); rewrite length_app; simpl.
  - lia.
  - destruct D; simpl in *; lia.
Qed.

Lemma length_popleft c D :
  (length (Manager.popleft_while_older c D) <= length D)%nat.
Proof.
  induction D as [|x D IH]; simpl; [lia|].
  destruct (Qltb x c); simpl; lia.
Qed.

(** X20. The figures reported as operations and messages per second are
    the numbers of samples kept in windows of at most 60 entries: in
    every state they lie between 0 and 60, whatever the number of
    operations counted. *)
Theorem throughput_is_capped (self : PerformanceMetrics) :
  metrics_reachable self ->
  (length (operation_count_window self) <= 60)%nat
  /\ (length (message_count_window self) <= 60)%nat
  /\ (0 <= operations_per_second self <= 60)%Z
  /\ (0 <= messages_per_second self <= 60)%Z.
Proof.
  induction 1 as [|self t _ (H1 & H2 & H3 & H4)|self t _ (H1 & H2 & H3 & H4)
                  |self t _ (H1 & H2 & H3 & H4)]; simpl.
  - repeat split; lia.
  - repeat split; try lia. apply length_deque_append; lia.
  - repeat split; try lia. apply length_deque_append; lia.
  - pose proof (length_popleft (t - 60) (operation_count_window self)).
    pose proof (length_popleft (t - 60) (message_count_window self)).
    repeat split; lia.
Qed.

End MetricsFacts.

(* ===================================================================== *)
(** * Sessions: storage round trip and the local cache *)
(* ===================================================================== *)

Module SessionCacheFacts.
Import Sessions SessionCache.

Section CacheFacts.

Context {hashlib : Hashlib} {datetimelib : DatetimeLib}.

Variable isoformat : datetime -> string.

Ltac lookup_key :=
  repeat (rewrite lookup_insert_ne by discriminate);
  try rewrite lookup_insert_eq.

(** X21. Reading back the dictionary that [to_dict] writes returns a
    session with the same fields and the checksum of the content,
    provided [fromisoformat] reads the two dates back from their
    [isoformat]; a session whose checksum is that of its content is read
    back as it was. *)
Theorem session_round_trip (s : SessionState) :
  fromisoformat (isoformat (created_at s)) = Some (created_at s) ->
  fromisoformat (isoformat (last_activity s)) = Some (last_activity s) ->
  from_dict (to_dict isoformat s)
  = Ok (SessionState_new (session_id s) (content s) (users s)
                         (created_at s) (last_activity s) (version s)
                         (operation_count s) (content_checksum s)
                         (Some (metadata s)))
  /\ (content_checksum s = checksum_of (content s) ->
      from_dict (to_dict isoformat s) = Ok s).
Proof.
  intros Hc Hl.
  assert (from_dict (to_dict isoformat s)
          = Ok (SessionState_new (session_id s) (content s) (users s)
                  (created_at s) (last_activity s) (version s)
                  (operation_count s) (content_checksum s)
                  (Some (metadata s)))) as H.
  { unfold from_dict, to_dict, item, get.
    rewrite !list_to_map_cons.
    lookup_key. cbn [bind]. lookup_key. cbn [bind]. lookup_key.
    cbn [bind set_of]. lookup_key. cbn [bind parse_datetime]. rewrite Hc.
    cbn [bind]. lookup_key. cbn [bind parse_datetime]. rewrite Hl.
    cbn [bind]. lookup_key. lookup_key. lookup_key. lookup_key.
    cbn [as_str bind checksum_argument].
    now rewrite list_to_set_elements_L. }
  split; [exact H|]. intros Hk. rewrite H. f_equal.
  destruct s; unfold SessionState_new; simpl in *. now rewrite <- Hk.
Qed.

(** A call of [get_session]: the session asked for, the two readings of
    the clock and what the store would answer. *)
Definition session_call : Type := (string * Q * Q * hgetall_outcome)%type.

Definition after_call (self : SessionManager) (c : session_call)
  : SessionManager :=
  let '(session_id, now_check, now_store, redis) := c in
  fst (fst (get_session self session_id now_check now_store redis)).

Fixpoint after_calls (self : SessionManager) (calls : list session_call)
  : SessionManager :=
  match calls with
  | [] => self
  | c :: rest => after_calls (after_call self c) rest
  end.

(** The cache holds the session [s] under [session_id], stamped [ts]. *)
Definition cached (self : SessionManager) (session_id : string)
    (s : SessionState) (ts : Q) : Prop :=
  _local_cache self !! session_id = Some s
  /\ _cache_timestamps self !! session_id = Some ts.

(** A call for [session_id] comes less than [ttl] after [ts]; a call for
    another session comes at any time. *)
Definition within_ttl (session_id : string) (ts ttl : Q) (c : session_call)
  : Prop :=
  let '(session_id', now_check, _, _) := c in
  session_id' = session_id -> (now_check - ts < ttl)%Q.

Lemma cached_valid self session_id s ts now :
  cached self session_id s ts ->
  _is_cache_valid self session_id now = Qltb (now - ts) (cache_ttl self).
Proof.
  intros [Hc Ht]. unfold _is_cache_valid. now rewrite Hc, Ht.
Qed.

Lemma after_call_ttl self c : cache_ttl (after_call self c) = cache_ttl self.
Proof.
  destruct c as [[[id now_check] now_store] redis].
  unfold after_call, get_session.
  destruct (_is_cache_valid self id now_check); [reflexivity|].
  destruct redis as [data|e]; [|reflexivity].
  destruct (decide (data = ∅)); [reflexivity|].
  destruct (from_dict data) as [st|e]; simpl; [|reflexivity].
  destruct (negb (verify_integrity st)); reflexivity.
Qed.

Lemma after_call_cached self session_id s ts c :
  cached self session_id s ts ->
  within_ttl session_id ts (cache_ttl self) c ->
  cached (after_call self c) session_id s ts.
Proof.
  intros Hc Hw. destruct c as [[[id now_check] now_store] redis].
  unfold within_ttl in Hw. unfold after_call, get_session.
  destruct (decide (id = session_id)) as [->|Hne].
  - rewrite (cached_valid _ _ _ _ now_check Hc).
    apply ManagerProperties.Qltb_lt in Hw; [|reflexivity].
    rewrite Hw. exact Hc.
  - destruct (_is_cache_valid self id now_check); [exact Hc|].
    destruct redis as [data|e]; [|exact Hc].
    destruct (decide (data = ∅)); [exact Hc|].
    destruct (from_dict data) as [st|e]; simpl; [|exact Hc].
    destruct (negb (verify_integrity st)); [exact Hc|].
    destruct Hc as [H1 H2]. split; simpl.
    + now rewrite lookup_insert_ne.
    + now rewrite lookup_insert_ne.
Qed.

Lemma after_calls_cached calls : forall self session_id s ts,
  cached self session_id s ts ->
  Forall (within_ttl session_id ts (cache_ttl self)) calls ->
  cached (after_calls self calls) session_id s ts
  /\ cache_ttl (after_calls self calls) = cache_ttl self.
Proof.
  induction calls as [|c rest IH]; intros self session_id s ts Hc Hall.
  - split; [exact Hc | reflexivity].
  - apply Forall_cons in Hall as [Hw Hrest]. cbn [after_calls].
    destruct (IH (after_call self c) session_id s ts) as [H1 H2].
    + now apply after_call_cached.
    + now rewrite after_call_ttl.
    + split; [exact H1|]. now rewrite H2, after_call_ttl.
Qed.

(** X22. A fetch by [get_session] leaves the session in the local cache,
    stamped with the time of the fetch. From a state in which a session
    is cached with a stamp, along any sequence of calls of [get_session]
    (for any sessions, at any times, whatever the store answers) in
    which every call for this session comes less than [cache_ttl] after
    the stamp, the session stays cached with that stamp; the next call
    for it is then served from the cache, whatever the store would
    answer, when it comes less than [cache_ttl] after the stamp, and does
    not leave through the cache-hit branch when it comes later. *)
Theorem fetched_session_is_cached :
  (forall (self self1 : SessionManager) (session_id : string) (t1 t2 : Q)
          (redis : hgetall_outcome) (s : SessionState),
     get_session self session_id t1 t2 redis = (self1, Some s, Fetched) ->
     cached self1 session_id s t2 /\ cache_ttl self1 = cache_ttl self)
  /\ (forall (self : SessionManager) (session_id : string)
             (s : SessionState) (ts : Q) (calls : list session_call),
        cached self session_id s ts ->
        Forall (within_ttl session_id ts (cache_ttl self)) calls ->
        let later := after_calls self calls in
        cached later session_id s ts
        /\ forall (t3 t4 : Q) (redis' : hgetall_outcome),
             ((t3 - ts < cache_ttl self)%Q ->
              get_session later session_id t3 t4 redis'
              = (count_cache_hit later, Some s, CacheHit))
             /\ ((cache_ttl self <= t3 - ts)%Q ->
                 snd (get_session later session_id t3 t4 redis')
                 <> CacheHit)).
Proof.
  split.
  - intros self self1 session_id t1 t2 redis s H.
    unfold get_session in H.
    destruct (_is_cache_valid self session_id t1); [discriminate|].
    destruct redis as [data|e]; [|discriminate].
    destruct (decide (data = ∅)); [discriminate|].
    destruct (from_dict data) as [st|e]; simpl in H; [|discriminate].
    destruct (negb (verify_integrity st)); [discriminate|].
    injection H as <- <-. split; [|reflexivity].
    split; simpl; now rewrite lookup_insert_eq.
  - intros self session_id s ts calls Hc Hall. cbv zeta.
    destruct (after_calls_cached calls self session_id s ts Hc Hall)
      as [Hlater Httl].
    split; [exact Hlater|].
    intros t3 t4 redis'. unfold get_session.
    rewrite (cached_valid _ _ _ _ t3 Hlater), Httl.
    split; intros Ht.
    + apply ManagerProperties.Qltb_lt in Ht. rewrite Ht.
      destruct Hlater as [-> _]. reflexivity.
    + apply ManagerProperties.Qltb_ge in Ht. rewrite Ht.
      destruct redis' as [data|e]; [|discriminate].
      destruct (decide (data = ∅)); [discriminate|].
      destruct (from_dict data) as [st|e]; simpl; [|discriminate].
      destruct (negb (verify_integrity st)); discriminate.
Qed.

Lemma lookup_pop_all {A : Type} (keys : list string) (m : gmap string A) k :
  pop_all keys m !! k = if decide (k ∈ keys) then None else m !! k.
Proof.
  unfold pop_all. revert m. induction keys as [|x keys IH]; intros m.
  - simpl. destruct (decide (k ∈ [])) as [H|_]; [|reflexivity].
    now apply elem_of_nil in H.
  - cbn [foldl]. rewrite IH.
    destruct (decide (k ∈ keys)) as [Hin|Hout].
    + destruct (decide (k ∈ x :: keys)) as [_|Hn]; [reflexivity|].
      exfalso. apply Hn. now right.
    + destruct (decide (k = x)) as [->|Hne].
      * rewrite lookup_delete_eq.
        destruct (decide (x ∈ x :: keys)) as [_|Hn]; [reflexivity|].
        exfalso. apply Hn. now left.
      * rewrite lookup_delete_ne by congruence.
        destruct (decide (k ∈ x :: keys)) as [Hin|_]; [|reflexivity].
        apply elem_of_cons in Hin as [?|?]; contradiction.
Qed.

Lemma expired_keys_spec (self : SessionManager) (t : Q) (k : string) :
  k ∈ map fst (List.filter (fun kv => expired self t (snd kv))
                           (map_to_list (_cache_timestamps self)))
  <-> exists ts, _cache_timestamps self !! k = Some ts
                 /\ expired self t ts = true.
Proof.
  rewrite list_elem_of_In, in_map_iff. split.
  - intros ([k' ts] & Hk & Hin). simpl in Hk. subst k'.
    apply List.filter_In in Hin as [Hin He]. simpl in He.
    apply list_elem_of_In, elem_of_map_to_list in Hin. eauto.
  - intros (ts & Hts & He). exists (k, ts). split; [reflexivity|].
    apply List.filter_In. split; [|exact He].
    now apply list_elem_of_In, elem_of_map_to_list.
Qed.

(** X23. [_cleanup_local_cache] removes from the cache and from the
    timestamps exactly the sessions whose timestamp is more than twice
    [cache_ttl] old; a session without a timestamp is never removed.
    When [cache_ttl] is not negative, an entry that [_is_cache_valid]
    accepts is kept and stays valid. *)
Theorem cleanup_removes_exactly_expired (self : SessionManager) (t : Q)
    (k : string) :
  let self' := _cleanup_local_cache self t in
  _cache_timestamps self' !! k
  = match _cache_timestamps self !! k with
    | Some ts => if expired self t ts then None else Some ts
    | None => None
    end
  /\ _local_cache self' !! k
     = match _cache_timestamps self !! k with
       | Some ts => if expired self t ts then None else _local_cache self !! k
       | None => _local_cache self !! k
       end
  /\ ((0 <= cache_ttl self)%Q ->
      _is_cache_valid self k t = true ->
      _local_cache self' !! k = _local_cache self !! k
      /\ _is_cache_valid self' k t = true).
Proof.
  cbv zeta.
  set (keys := map fst (List.filter (fun kv => expired self t (snd kv))
                          (map_to_list (_cache_timestamps self)))).
  assert (_cache_timestamps (_cleanup_local_cache self t) !! k
          = match _cache_timestamps self !! k with
            | Some ts => if expired self t ts then None else Some ts
            | None => None
            end) as H1.
  { unfold _cleanup_local_cache. simpl. fold keys. rewrite lookup_pop_all.
    destruct (decide (k ∈ keys)) as [Hin|Hout].
    - apply expired_keys_spec in Hin as (ts & -> & ->). reflexivity.
    - destruct (_cache_timestamps self !! k) as [ts|] eqn:E; [|reflexivity].
      destruct (expired self t ts) eqn:Ee; [|reflexivity].
      exfalso. apply Hout, expired_keys_spec. eauto. }
  assert (_local_cache (_cleanup_local_cache self t) !! k
          = match _cache_timestamps self !! k with
            | Some ts =>
                if expired self t ts then None else _local_cache self !! k
            | None => _local_cache self !! k
            end) as H2.
  { unfold _cleanup_local_cache. simpl. fold keys. rewrite lookup_pop_all.
    destruct (decide (k ∈ keys)) as [Hin|Hout].
    - apply expired_keys_spec in Hin as (ts & -> & ->). reflexivity.
    - destruct (_cache_timestamps self !! k) as [ts|] eqn:E; [|reflexivity].
      destruct (expired self t ts) eqn:Ee; [|reflexivity].
      exfalso. apply Hout, expired_keys_spec. eauto. }
  split; [exact H1|]. split; [exact H2|].
  intros Httl Hvalid.
  assert (match _cache_timestamps self !! k with
          | Some ts => expired self t ts = false
          | None => True
          end) as Hkeep.
  { unfold _is_cache_valid in Hvalid.
    destruct (_local_cache self !! k); [|discriminate].
    destruct (_cache_timestamps self !! k) as [ts|]; [|exact I].
    simpl in Hvalid. apply ManagerProperties.Qltb_lt in Hvalid.
    unfold expired. apply ManagerProperties.Qltb_ge. lra. }
  assert (_local_cache (_cleanup_local_cache self t) !! k
          = _local_cache self !! k) as H3.
  { rewrite H2. destruct (_cache_timestamps self !! k); [|reflexivity].
    now rewrite Hkeep. }
  split; [exact H3|].
  unfold _is_cache_valid in *. rewrite H3, H1.
  destruct (_local_cache self !! k); [|discriminate].
  destruct (_cache_timestamps self !! k) as [ts|]; [|exact Hvalid].
  rewrite Hkeep. exact Hvalid.
Qed.

End CacheFacts.

End SessionCacheFacts.

(* ===================================================================== *)
(** * Which operation wins *)
(* ===================================================================== *)

Section PriorityFacts.

Context {hashlib : Hashlib}.

Lemma ltb_antisym (c1 c2 : string) :
  c1 <> c2 -> String.ltb c2 c1 = negb (String.ltb c1 c2).
Proof.
  intros Hne. unfold String.ltb. rewrite (String.compare_antisym c2 c1).
  destruct (String.compare c1 c2) eqn:E; try reflexivity.
  apply String.compare_eq_iff in E. contradiction.
Qed.

(** X24. For operations of two different clients [_determine_priority]
    names one of the two, and it names the same operation whichever way
    round the pair is given: ['op1'] for [(a, b)] exactly when ['op2'] for
    [(b, a)]. *)
Theorem priority_is_consistent (a b : Operation) :
  op_client_id a <> op_client_id b ->
  (_determine_priority a b = "op1" \/ _determine_priority a b = "op2")
  /\ (_determine_priority a b = "op1" <-> _determine_priority b a = "op2").
Proof.
  intros Hne. unfold _determine_priority.
  rewrite (VectorClockFacts.compare_cases (op_vector_clock a)
                                          (op_vector_clock b)).
  rewrite (VectorClockFacts.compare_cases (op_vector_clock b)
                                          (op_vector_clock a)).
  rewrite (VectorClockMerge.compare_flags_swap (op_vector_clock a)
                                               (op_vector_clock b)).
  rewrite (ltb_antisym _ _ Hne).
  destruct (VectorClock.compare_flags (op_vector_clock a) (op_vector_clock b))
    as [[|] [|]]; cbn [fst snd];
    destruct (String.ltb (op_client_id a) (op_client_id b)); simpl;
    (split; [auto | split; intros H; (reflexivity || discriminate)]).
Qed.

End PriorityFacts.

(* ===================================================================== *)
(** * The theorems at concrete inputs *)
(* ===================================================================== *)

Module Examples.

Local Existing Instance example_hashlib.

(** An insert before a delete, from two clients. *)
Definition insert_x : Operation :=
  authored INSERT 0 "X" 0 "x" (clock_of "x") 0.
Definition delete_y : Operation :=
  authored DELETE 1 "" 2 "y" (clock_of "y") 0.
Definition retain_z : Operation :=
  authored RETAIN 0 "" 0 "z" (clock_of "z") 0.

(** [transform_pair_unchanged] on an insert at 0 and a delete of [[1,3)]. *)
Lemma transform_pair_unchanged_witness :
  (op_client_id insert_x = op_client_id delete_y
   \/ ranges_disjoint insert_x delete_y)
  /\ _transform_operation_pair insert_x delete_y = Ok (insert_x, delete_y).
Proof.
  assert (op_client_id insert_x = op_client_id delete_y
          \/ ranges_disjoint insert_x delete_y) as H
    by (right; left; vm_compute; discriminate).
  split; [exact H | exact (transform_pair_unchanged insert_x delete_y H)].
Defined.

(** [batch_sort_is_alphabetical] on a retain, an insert and a delete that
    carry the same timestamp. *)
Lemma batch_sort_is_alphabetical_witness :
  op_type retain_z = RETAIN /\ op_type insert_x = INSERT
  /\ op_type delete_y = DELETE
  /\ op_timestamp retain_z == op_timestamp insert_x
  /\ op_timestamp insert_x == op_timestamp delete_y
  /\ sorted [retain_z; insert_x; delete_y] = [delete_y; insert_x; retain_z].
Proof.
  assert (op_type retain_z = RETAIN) as Hr by reflexivity.
  assert (op_type insert_x = INSERT) as Hi by reflexivity.
  assert (op_type delete_y = DELETE) as Hd by reflexivity.
  assert (op_timestamp retain_z == op_timestamp insert_x) as Hri
    by apply Qeq_refl.
  assert (op_timestamp insert_x == op_timestamp delete_y) as Hid
    by apply Qeq_refl.
  exact (conj Hr (conj Hi (conj Hd (conj Hri (conj Hid
           (batch_sort_is_alphabetical retain_z insert_x delete_y
              Hr Hi Hd Hri Hid)))))).
Defined.

(** The batch of an insert followed by a delete: after the first
    operation the offset is not zero, the shifted copy of the second keeps
    the checksum of the unshifted one, and applying it raises. *)
Example batch_raises_after_first_shift :
  apply_operations "abc" [insert_x; delete_y]
  = Raise (ValueError ("Operation integrity check failed: "
                         +:+ op_operation_id insert_x)).
Proof. vm_compute. reflexivity. Qed.

(** Scenario S1: client ["X"] inserts ["X"] at 0 and client ["Y"] inserts
    ["Y"] at 3, both against ["ABC"]. The pair comes back unchanged and the
    two orders of application give different texts. *)
Definition s1_x : Operation := authored INSERT 0 "X" 0 "X" (clock_of "X") 0.
Definition s1_y : Operation := authored INSERT 3 "Y" 0 "Y" (clock_of "Y") 0.

Example s1_disjoint_inserts_diverge :
  _transform_operation_pair s1_x s1_y = Ok (s1_x, s1_y)
  /\ apply_two "ABC" s1_x s1_y = Ok "XABYC"
  /\ apply_two "ABC" s1_y s1_x = Ok "XABCY".
Proof. vm_compute. repeat split; reflexivity. Qed.

(** A buffer after one local insert. *)
Definition buffer_after_insert : OperationBuffer :=
  fst (apply_local_operation (OperationBuffer_init "abc" "server") insert_x).

(** [pending_operations_always_empty] on that buffer. *)
Lemma pending_operations_always_empty_witness :
  reachable buffer_after_insert
  /\ pending_operations buffer_after_insert = []
  /\ forall operation,
       let after := fst (apply_remote_operation buffer_after_insert operation) in
       let outcome := snd (apply_remote_operation buffer_after_insert operation) in
       (verify_integrity operation = false ->
          after = buffer_after_insert /\ is_ok outcome = false)
       /\ (verify_integrity operation = true ->
             outcome = apply_operation (content buffer_after_insert) operation
             /\ outcome = Ok (content after)
             /\ operation_history after
                = operation_history buffer_after_insert ++ [operation]
             /\ pending_operations after = []).
Proof.
  assert (reachable buffer_after_insert) as H
    by (apply reachable_local, reachable_init).
  split; [exact H | exact (pending_operations_always_empty _ H)].
Defined.

Example buffer_after_insert_content :
  content buffer_after_insert = "Xabc".
Proof. vm_compute. reflexivity. Qed.

End Examples.

Module ManagerExamples.
Import Manager ManagerProperties.

Local Open Scope Q_scope.

(** Every send is delivered, and the handlers are left out. *)
Definition example_handlers : Handlers :=
  {| send_text_ok := fun _ _ => true;
     dispatch := fun self _ _ => self |}.

Local Existing Instance example_handlers.

(** A manager with the one channel 1 of user ["u"] in session ["s"]. *)
Definition one_user : AdvancedConnectionManager :=
  {| connection_info :=
       {[ 1%nat := {| user_id := "u"; session_id := "s"; connected_at := 0;
                      cursor_position := 0%Z; last_activity := 0;
                      vector_clock := VectorClock.empty |} ]};
     session_buffers := ∅;
     rate_limits := ∅;
     error_count := ∅;
     sent := [] |}.

Definition text_change : message := [("type", "text_change"); ("content", "x")].

Definition three_calls : list call :=
  [(1%nat, text_change, 0, 0); (1%nat, text_change, 1 # 2, 1 # 2);
   (1%nat, text_change, 1, 1)].

(** [rate_limit_tight] on three messages of user ["u"] within a second. *)
Lemma rate_limit_tight_witness :
  let trace := labels one_user three_calls in
  let self := handle_all one_user three_calls in
  rate_limits one_user = ∅
  /\ run one_user trace self
  /\ nondecreasing (times trace)
  /\ (length (List.filter (in_window 0) (allowed_times "u" trace)) <= 100)%nat
  /\ forall m websocket msg now_activity current_time info,
       connection_info m !! websocket = Some info ->
       snd (_check_rate_limit (rate_limits m) (user_id info) current_time
                              100 60) = false ->
       let m' := handle_message m websocket msg
                                now_activity current_time in
       sent m' =
         (if send_text_ok websocket rate_limit_reply
          then sent m ++ [(websocket, rate_limit_reply)] else sent m)
       /\ default 0%Z (error_count m' !! "rate_limit_exceeded")
          = (default 0%Z (error_count m !! "rate_limit_exceeded") + 1)%Z
       /\ session_buffers m' = session_buffers m
       /\ dom (connection_info m') = dom (connection_info m)
       /\ m' = handle_message m websocket []
                              now_activity current_time.
Proof.
  cbv zeta.
  assert (rate_limits one_user = ∅) as H1 by reflexivity.
  pose proof (run_handle_all example_handlers one_user three_calls
                (fun _ _ _ => eq_refl)) as H2.
  assert (nondecreasing (times (labels one_user three_calls))) as H3
    by (vm_compute; repeat split; discriminate).
  split; [exact H1|]. split; [exact H2|]. split; [exact H3|].
  destruct (rate_limit_tight one_user _ _ "u" 0 H1 H2 H3) as [Ha Hb].
  split; [exact Ha | exact (Hb example_handlers)].
Defined.

(** Scenario S6: 101 messages of one user at the same instant. The first
    100 pass the check, the last one does not, and one error reply has
    been sent. *)
Definition s6_calls : list call := repeat (1%nat, text_change, 0, 0) 101%nat.

Example s6_rate_limit :
  let trace := labels one_user s6_calls in
  let self := handle_all one_user s6_calls in
  length (allowed_times "u" trace) = 100%nat
  /\ last trace = Some (Handled "u" 0 false)
  /\ sent self = [(1%nat, rate_limit_reply)]
  /\ error_count self !! "rate_limit_exceeded" = Some 1%Z.
Proof. vm_compute. repeat split; reflexivity. Qed.

End ManagerExamples.

Module SessionExamples.
Import Sessions SessionProperties.

(** Dates are kept as the strings they are stored as. *)
Definition example_datetimelib : DatetimeLib :=
  {| datetime := string; fromisoformat := Some |}.

Local Existing Instance example_hashlib.
Local Existing Instance example_datetimelib.

(** A stored session whose checksum does not belong to its content. *)
Definition tampered : gmap string value :=
  list_to_map
    [("session_id", VStr "s1"); ("content", VStr "print(1)");
     ("users", VList ["u"]); ("created_at", VStr "2024-01-01T00:00:00");
     ("last_activity", VStr "2024-01-01T00:00:00");
     ("content_checksum", VStr "0000000000000000")].

Definition empty_manager : SessionManager :=
  {| _local_cache := ∅; _cache_timestamps := ∅; cache_ttl := 30;
     cache_hits := 0; cache_misses := 0; redis_errors := 0 |}.

(** The tampered record is read without an error, the session passes the
    integrity check and carries a recomputed checksum, and [get_session]
    returns it through its last branch without counting an error. *)
Example tampered_session_is_accepted :
  exists st,
    from_dict tampered = Ok st
    /\ verify_integrity st = true
    /\ content_checksum st <> "0000000000000000"
    /\ exists after,
         get_session empty_manager "s1" 0 0 (Returned tampered)
         = (after, Some st, Fetched)
         /\ redis_errors after = 0%Z.
Proof.
  eexists. split; [vm_compute; reflexivity|].
  split; [vm_compute; reflexivity|].
  split; [vm_compute; discriminate|].
  eexists. split; [vm_compute; reflexivity | reflexivity].
Qed.

(** [stored_checksum_is_never_checked] on the tampered record: the
    checksum stored with it is not the checksum of its content, and the
    record is read, repaired, cached and returned. *)
Lemma stored_checksum_is_never_checked_witness :
  tampered !! "content_checksum" = Some (VStr "0000000000000000")
  /\ checksum_of "print(1)" <> "0000000000000000"
  /\ readable tampered (VStr "s1") "print(1)" (list_to_set ["u"])
               "2024-01-01T00:00:00" "2024-01-01T00:00:00"
  /\ _is_cache_valid empty_manager "s1" 0 = false
  /\ exists st,
       get_session empty_manager "s1" 0 0 (Returned tampered)
       = (store_in_cache (count_cache_miss empty_manager) "s1" st 0,
          Some st, Fetched)
       /\ content st = "print(1)"
       /\ content_checksum st = checksum_of "print(1)".
Proof.
  assert (tampered !! "content_checksum" = Some (VStr "0000000000000000"))
    as H1 by (vm_compute; reflexivity).
  assert (checksum_of "print(1)" <> "0000000000000000") as H2
    by (vm_compute; discriminate).
  assert (readable tampered (VStr "s1") "print(1)" (list_to_set ["u"])
                   "2024-01-01T00:00:00" "2024-01-01T00:00:00") as H3.
  { split; [vm_compute; reflexivity|]. split; [vm_compute; reflexivity|].
    split; [exists (VList ["u"]); split; vm_compute; reflexivity|].
    split; exists (VStr "2024-01-01T00:00:00"); split; vm_compute;
      reflexivity. }
  assert (_is_cache_valid empty_manager "s1" 0 = false) as H4
    by (vm_compute; reflexivity).
  destruct stored_checksum_is_never_checked
    as (_ & _ & _ & _ & _ & _ & _ & Hget).
  exact (conj H1 (conj H2 (conj H3 (conj H4
           (Hget empty_manager "s1" 0%Q 0%Q tampered _ _ _ _ _ H4 H3))))).
Defined.

End SessionExamples.

Module MoreExamples.
Import Examples.

Local Existing Instance example_hashlib.

(** A delete of the character that [insert_x] adds, and two deletes that
    overlap in ["abcdef"]. *)
Definition delete_x : Operation :=
  authored DELETE 0 "" 1 "y" (clock_of "y") 0.
Definition delete_bcd : Operation :=
  authored DELETE 1 "" 3 "x" (clock_of "x") 0.
Definition delete_cde : Operation :=
  authored DELETE 2 "" 3 "y" (clock_of "y") 0.

Lemma passes_guards_insert_x : passes_guards insert_x.
Proof.
  split; intros [H1 H2]; vm_compute in H1, H2;
    first [discriminate H1 | discriminate H2 | exact (H2 eq_refl)].
Defined.

Lemma passes_guards_delete_y : passes_guards delete_y.
Proof.
  split; intros [H1 H2]; vm_compute in H1, H2;
    first [discriminate H1 | discriminate H2 | exact (H2 eq_refl)].
Defined.

(** [wire_round_trip] on [insert_x]. *)
Lemma wire_round_trip_witness :
  passes_guards insert_x
  /\ op_operation_id insert_x <> ""
  /\ op_checksum insert_x <> ""
  /\ Wire.from_dict 0 (Wire.to_dict insert_x) = Ok insert_x.
Proof.
  assert (op_operation_id insert_x <> "") as H2
    by (vm_compute; discriminate).
  assert (op_checksum insert_x <> "") as H3 by (vm_compute; discriminate).
  exact (conj passes_guards_insert_x (conj H2 (conj H3
           (WireFacts.wire_round_trip 0 insert_x
              passes_guards_insert_x H2 H3)))).
Defined.

(** [insert_then_delete_is_identity] on ["abc"]. *)
Lemma insert_then_delete_is_identity_witness :
  verify_integrity insert_x = true /\ verify_integrity delete_x = true
  /\ op_type insert_x = INSERT /\ op_type delete_x = DELETE
  /\ op_position delete_x = op_position insert_x
  /\ op_length delete_x = Text.len (op_text insert_x)
  /\ 0 <= op_position insert_x <= Text.len "abc"
  /\ apply_two "abc" insert_x delete_x = Ok "abc".
Proof.
  assert (verify_integrity insert_x = true) as H1 by (vm_compute; reflexivity).
  assert (verify_integrity delete_x = true) as H2 by (vm_compute; reflexivity).
  assert (op_type insert_x = INSERT) as H3 by reflexivity.
  assert (op_type delete_x = DELETE) as H4 by reflexivity.
  assert (op_position delete_x = op_position insert_x) as H5 by reflexivity.
  assert (op_length delete_x = Text.len (op_text insert_x)) as H6
    by reflexivity.
  assert (0 <= op_position insert_x <= Text.len "abc") as H7
    by (vm_compute; split; discriminate).
  exact (conj H1 (conj H2 (conj H3 (conj H4 (conj H5 (conj H6 (conj H7
           (insert_then_delete_is_identity "abc" insert_x delete_x
              H1 H2 H3 H4 H5 H6 H7)))))))).
Defined.

(** [out_of_range_positions_are_clamped] on [insert_x] and ["abc"]. *)
Lemma out_of_range_positions_are_clamped_witness :
  verify_integrity insert_x = true
  /\ (op_type insert_x = INSERT -> Text.len "abc" <= op_position insert_x ->
      apply_operation "abc" insert_x = Ok ("abc" +:+ op_text insert_x))
  /\ (op_type insert_x = INSERT -> op_position insert_x <= 0 ->
      apply_operation "abc" insert_x = Ok (op_text insert_x +:+ "abc"))
  /\ (op_type insert_x = DELETE -> Text.len "abc" <= op_position insert_x ->
      apply_operation "abc" insert_x = Ok "abc")
  /\ (op_type insert_x = DELETE ->
      op_position insert_x + op_length insert_x <= 0 ->
      apply_operation "abc" insert_x = Ok "abc").
Proof.
  assert (verify_integrity insert_x = true) as H1 by (vm_compute; reflexivity).
  exact (conj H1 (out_of_range_positions_are_clamped "abc" insert_x H1)).
Defined.

(** [batch_of_one] on [insert_x]. *)
Lemma batch_of_one_witness :
  passes_guards insert_x /\ verify_integrity insert_x = true
  /\ apply_operations "abc" [insert_x] = apply_operation "abc" insert_x.
Proof.
  assert (verify_integrity insert_x = true) as H1 by (vm_compute; reflexivity).
  exact (conj passes_guards_insert_x (conj H1
           (batch_of_one "abc" insert_x passes_guards_insert_x H1))).
Defined.

(** [transform_position_monotone] on the cursors 1 and 2. *)
Lemma transform_position_monotone_witness :
  1 <= 2 /\ transform_position 1 insert_x <= transform_position 2 insert_x.
Proof.
  assert (1 <= 2) as H by lia.
  exact (conj H (transform_position_monotone 1 2 insert_x H)).
Defined.

(** [cursor_keeps_its_place] on the cursor 1 in ["abc"]. *)
Lemma cursor_keeps_its_place_witness :
  applicable "abc" insert_x
  /\ (op_type insert_x = DELETE -> 0 <= op_length insert_x)
  /\ 0 <= 1 <= Text.len "abc"
  /\ apply_operation "abc" insert_x = Ok "Xabc"
  /\ 0 <= transform_position 1 insert_x <= Text.len "Xabc"
  /\ (1 < op_position insert_x ->
      Text.slice_to "Xabc" (transform_position 1 insert_x)
      = Text.slice_to "abc" 1)
  /\ (op_position insert_x <= 1 ->
      Text.slice_from "Xabc" (transform_position 1 insert_x)
      = Text.slice_from "abc" 1).
Proof.
  assert (applicable "abc" insert_x) as H1.
  { split; [vm_compute; reflexivity|].
    split; vm_compute; discriminate. }
  assert (op_type insert_x = DELETE -> 0 <= op_length insert_x) as H2
    by discriminate.
  assert (0 <= 1 <= Text.len "abc") as H3
    by (vm_compute; split; discriminate).
  assert (apply_operation "abc" insert_x = Ok "Xabc") as H4
    by (vm_compute; reflexivity).
  pose proof (cursor_keeps_its_place "abc" "Xabc" insert_x 1 H1 H2 H3 H4)
    as H.
  cbv zeta in H. destruct H as [Ha Hb].
  exact (conj H1 (conj H2 (conj H3 (conj H4 (conj Ha Hb))))).
Defined.

(** [transform_pair_keeps_identity] on [insert_x] and [delete_y]. *)
Lemma transform_pair_keeps_identity_witness :
  passes_guards insert_x /\ passes_guards delete_y
  /\ exists a' b',
       _transform_operation_pair insert_x delete_y = Ok (a', b')
       /\ transformed_from insert_x a' /\ transformed_from delete_y b'.
Proof.
  exact (conj passes_guards_insert_x (conj passes_guards_delete_y
           (transform_pair_keeps_identity insert_x delete_y
              passes_guards_insert_x passes_guards_delete_y))).
Defined.

(** [transform_operations_keeps_shape] on the two one-element lists. *)
Lemma transform_operations_keeps_shape_witness :
  Forall passes_guards [insert_x] /\ Forall passes_guards [delete_y]
  /\ exists ops1' ops2',
       transform_operations [insert_x] [delete_y] = Ok (ops1', ops2')
       /\ Forall2 transformed_from [insert_x] ops1'
       /\ Forall2 transformed_from [delete_y] ops2'
       /\ List.length ops1' = List.length [insert_x]
       /\ List.length ops2' = List.length [delete_y].
Proof.
  assert (Forall passes_guards [insert_x]) as H1
    by (constructor; [exact passes_guards_insert_x | constructor]).
  assert (Forall passes_guards [delete_y]) as H2
    by (constructor; [exact passes_guards_delete_y | constructor]).
  exact (conj H1 (conj H2
           (transform_operations_keeps_shape [insert_x] [delete_y] H1 H2))).
Defined.

(** [overlapping_deletes_converge] on the deletes of ["bcd"] and ["cde"]
    in ["abcdef"]. *)
Lemma overlapping_deletes_converge_witness :
  op_type delete_bcd = DELETE /\ op_type delete_cde = DELETE
  /\ op_client_id delete_bcd <> op_client_id delete_cde
  /\ applicable "abcdef" delete_bcd /\ applicable "abcdef" delete_cde
  /\ 0 < op_length delete_bcd /\ 0 < op_length delete_cde
  /\ op_position delete_cde < op_position delete_bcd + op_length delete_bcd
  /\ op_position delete_bcd < op_position delete_cde + op_length delete_cde
  /\ exists a' b',
       _transform_operation_pair delete_bcd delete_cde = Ok (a', b')
       /\ apply_two "abcdef" delete_bcd b'
          = Ok (without_both "abcdef" delete_bcd delete_cde)
       /\ apply_two "abcdef" delete_cde a'
          = Ok (without_both "abcdef" delete_bcd delete_cde).
Proof.
  assert (op_type delete_bcd = DELETE) as H1 by reflexivity.
  assert (op_type delete_cde = DELETE) as H2 by reflexivity.
  assert (op_client_id delete_bcd <> op_client_id delete_cde) as H3
    by (vm_compute; discriminate).
  assert (applicable "abcdef" delete_bcd) as H4.
  { split; [vm_compute; reflexivity|]. split; vm_compute; discriminate. }
  assert (applicable "abcdef" delete_cde) as H5.
  { split; [vm_compute; reflexivity|]. split; vm_compute; discriminate. }
  assert (0 < op_length delete_bcd) as H6 by (vm_compute; reflexivity).
  assert (0 < op_length delete_cde) as H7 by (vm_compute; reflexivity).
  assert (op_position delete_cde
          < op_position delete_bcd + op_length delete_bcd) as H8
    by (vm_compute; reflexivity).
  assert (op_position delete_bcd
          < op_position delete_cde + op_length delete_cde) as H9
    by (vm_compute; reflexivity).
  exact (conj H1 (conj H2 (conj H3 (conj H4 (conj H5 (conj H6 (conj H7
           (conj H8 (conj H9
              (overlapping_deletes_converge "abcdef" delete_bcd delete_cde
                 H1 H2 H3 H4 H5 H6 H7 H8 H9)))))))))).
Defined.

(** The text both orders arrive at. *)
Example overlapping_deletes_text :
  without_both "abcdef" delete_bcd delete_cde = "af".
Proof. vm_compute. reflexivity. Qed.

(** [history_replays_to_content] on the buffer after one local insert. *)
Lemma history_replays_to_content_witness :
  reachable_from "abc" "server" buffer_after_insert
  /\ apply_in_order "abc" (operation_history buffer_after_insert)
     = Ok (content buffer_after_insert)
  /\ operations_processed buffer_after_insert
     = Z.of_nat (List.length (operation_history buffer_after_insert))
  /\ client_id buffer_after_insert = "server".
Proof.
  assert (reachable_from "abc" "server" buffer_after_insert) as H
    by (apply from_local, from_init).
  exact (conj H (history_replays_to_content "abc" "server" _ H)).
Defined.

(** [priority_is_consistent] on [insert_x] and [delete_y]. *)
Lemma priority_is_consistent_witness :
  op_client_id insert_x <> op_client_id delete_y
  /\ (_determine_priority insert_x delete_y = "op1"
      \/ _determine_priority insert_x delete_y = "op2")
  /\ (_determine_priority insert_x delete_y = "op1"
      <-> _determine_priority delete_y insert_x = "op2").
Proof.
  assert (op_client_id insert_x <> op_client_id delete_y) as H
    by (vm_compute; discriminate).
  exact (conj H (priority_is_consistent insert_x delete_y H)).
Defined.

End MoreExamples.

Module CollisionExamples.

(** A digest under which all checksums coincide. *)
Definition constant_hashlib : Hashlib :=
  {| sha256_hex := fun _ => "0";
     md5_hex := fun _ => "0";
     str_of_float := fun _ => "0";
     str_of_sorted_items := fun _ => "0" |}.

Local Existing Instance constant_hashlib.

Definition first_insert : Operation :=
  authored INSERT 0 "X" 0 "x" (clock_of "x") 0.
Definition second_insert : Operation :=
  authored INSERT 1 "Y" 0 "y" (clock_of "y") 0.

(** [shifted_batch_needs_matching_checksum] on a batch of two inserts
    that is applied because the checksums coincide. *)
Lemma shifted_batch_needs_matching_checksum_witness :
  sorted [first_insert; second_insert] = [first_insert; second_insert]
  /\ op_checksum second_insert <> ""
  /\ apply_operations "abc" [first_insert; second_insert] = Ok "XaYbc"
  /\ op_checksum second_insert
     = _generate_checksum (moved second_insert (offset_after first_insert)).
Proof.
  assert (sorted [first_insert; second_insert]
          = [first_insert; second_insert]) as H1 by (vm_compute; reflexivity).
  assert (op_checksum second_insert <> "") as H2
    by (vm_compute; discriminate).
  assert (apply_operations "abc" [first_insert; second_insert] = Ok "XaYbc")
    as H3 by (vm_compute; reflexivity).
  exact (conj H1 (conj H2 (conj H3
           (shifted_batch_needs_matching_checksum "abc" first_insert
              second_insert "XaYbc" H1 H2 H3)))).
Defined.

End CollisionExamples.

Module MoreManagerExamples.
Import Manager ManagerProperties ManagerExamples.

Local Open Scope Q_scope.

Local Existing Instance example_handlers.

Definition hundred_calls : list call :=
  repeat (1%nat, text_change, 0, 0) 100%nat.

(** [refusal_only_at_budget] on scenario S6: the message refused is the
    one that follows 100 messages of the same instant. *)
Lemma refusal_only_at_budget_witness :
  let pre := labels one_user hundred_calls in
  rate_limits one_user = ∅
  /\ run one_user (pre ++ Handled "u" 0 false :: [])
         (handle_all one_user s6_calls)
  /\ nondecreasing (times (pre ++ [Handled "u" 0 false]))
  /\ length (List.filter (in_window (0 - 60)) (allowed_times "u" pre))
     = 100%nat.
Proof.
  cbv zeta.
  assert (rate_limits one_user = ∅) as H1 by reflexivity.
  assert (labels one_user s6_calls
          = labels one_user hundred_calls ++ [Handled "u" 0 false]) as E
    by (vm_compute; reflexivity).
  pose proof (run_handle_all example_handlers one_user s6_calls
                (fun _ _ _ => eq_refl)) as H2.
  rewrite E in H2.
  assert (nondecreasing
            (times (labels one_user hundred_calls ++ [Handled "u" 0 false])))
    as H3 by (vm_compute; repeat split; discriminate).
  exact (conj H1 (conj H2 (conj H3
           (ManagerCompleteness.refusal_only_at_budget
              one_user _ "u" 0 [] _ H1 H2 H3)))).
Defined.

(** [throughput_is_capped] after one counted operation. *)
Lemma throughput_is_capped_witness :
  let self :=
    Metrics.increment_operation_count Metrics.PerformanceMetrics_init 0 in
  MetricsFacts.metrics_reachable self
  /\ (length (Metrics.operation_count_window self) <= 60)%nat
  /\ (length (Metrics.message_count_window self) <= 60)%nat
  /\ (0 <= Metrics.operations_per_second self <= 60)%Z
  /\ (0 <= Metrics.messages_per_second self <= 60)%Z.
Proof.
  cbv zeta.
  assert (MetricsFacts.metrics_reachable
            (Metrics.increment_operation_count
               Metrics.PerformanceMetrics_init 0)) as H
    by (apply MetricsFacts.metrics_operation, MetricsFacts.metrics_init).
  exact (conj H (MetricsFacts.throughput_is_capped _ H)).
Defined.

End MoreManagerExamples.

Module MoreSessionExamples.
Import Sessions SessionCache SessionExamples.

Local Open Scope Q_scope.

Local Existing Instance example_hashlib.
Local Existing Instance example_datetimelib.

(** The session that the record [tampered] is read as. *)
Definition stored : SessionState :=
  SessionState_new (VStr "s1") "print(1)" (list_to_set ["u"])
                   "2024-01-01T00:00:00" "2024-01-01T00:00:00"
                   (VInt 0) (VInt 0) "" None.

(** Dates are strings: [isoformat] returns the string itself. *)
Definition example_isoformat (d : string) : string := d.

(** [session_round_trip] on that session. *)
Lemma session_round_trip_witness :
  fromisoformat (example_isoformat (created_at stored))
  = Some (created_at stored)
  /\ fromisoformat (example_isoformat (last_activity stored))
     = Some (last_activity stored)
  /\ from_dict (to_dict example_isoformat stored)
     = Ok (SessionState_new (session_id stored) (content stored)
             (users stored) (created_at stored) (last_activity stored)
             (version stored) (operation_count stored)
             (content_checksum stored) (Some (metadata stored)))
  /\ (content_checksum stored = checksum_of (content stored) ->
      from_dict (to_dict example_isoformat stored) = Ok stored).
Proof.
  assert (fromisoformat (example_isoformat (created_at stored))
          = Some (created_at stored)) as H1 by reflexivity.
  assert (fromisoformat (example_isoformat (last_activity stored))
          = Some (last_activity stored)) as H2 by reflexivity.
  exact (conj H1 (conj H2
           (SessionCacheFacts.session_round_trip example_isoformat stored
              H1 H2))).
Defined.

Definition after_fetch : SessionManager :=
  store_in_cache (count_cache_miss empty_manager) "s1" stored 0.

(** Calls that follow the fetch at 0: the session again at 10 with the
    store failing, another session at 100, the session again at 29. *)
Definition later_calls : list SessionCacheFacts.session_call :=
  [("s1", 10, 10, Failed (KeyError "down")); ("other", 100, 100, Returned ∅);
   ("s1", 29, 29, Returned ∅)].

(** [fetched_session_is_cached] on the session fetched into the empty
    manager, whose [cache_ttl] is 30, and on those calls. *)
Lemma fetched_session_is_cached_witness :
  get_session empty_manager "s1" 0 0 (Returned tampered)
  = (after_fetch, Some stored, Fetched)
  /\ SessionCacheFacts.cached after_fetch "s1" stored 0
  /\ Forall (SessionCacheFacts.within_ttl "s1" 0 (cache_ttl after_fetch))
            later_calls
  /\ SessionCacheFacts.cached
       (SessionCacheFacts.after_calls after_fetch later_calls) "s1" stored 0
  /\ forall (t3 t4 : Q) (redis' : hgetall_outcome),
       (t3 - 0 < cache_ttl after_fetch ->
        get_session (SessionCacheFacts.after_calls after_fetch later_calls)
                    "s1" t3 t4 redis'
        = (count_cache_hit
             (SessionCacheFacts.after_calls after_fetch later_calls),
           Some stored, CacheHit))
       /\ (cache_ttl after_fetch <= t3 - 0 ->
           snd (get_session
                  (SessionCacheFacts.after_calls after_fetch later_calls)
                  "s1" t3 t4 redis')
           <> CacheHit).
Proof.
  assert (get_session empty_manager "s1" 0 0 (Returned tampered)
          = (after_fetch, Some stored, Fetched)) as H
    by (vm_compute; reflexivity).
  destruct SessionCacheFacts.fetched_session_is_cached as [Hfetch Hlater].
  destruct (Hfetch empty_manager after_fetch "s1" 0%Q 0%Q (Returned tampered)
              stored H) as [Hc _].
  assert (Forall (SessionCacheFacts.within_ttl "s1" 0 (cache_ttl after_fetch))
                 later_calls) as Hall.
  { apply Forall_cons. split; [intros _; vm_compute; reflexivity|].
    apply Forall_cons. split; [intros E; discriminate E|].
    apply Forall_cons. split; [intros _; vm_compute; reflexivity|].
    apply Forall_nil_2. }
  exact (conj H (conj Hc (conj Hall
           (Hlater after_fetch "s1" stored 0%Q later_calls Hc Hall)))).
Defined.

End MoreSessionExamples.
